(** * crystcif-parse, [lib/cryst.js]: cell geometry, the [Atoms] structure
      and the CIF-to-structure reader, embedded in Rocq.

    Modelling conventions.

    - A JavaScript number is idealised as a real number ([R]).  Rounding,
      infinities and NaN are therefore not represented: [Math.sqrt],
      [Math.acos] and division are the total functions of the standard
      library, and the statements below say by hypothesis when their
      arguments are in range.
    - A JavaScript value that the code only moves around (element symbols,
      labels, coordinates read from a CIF) is a [jsval].
    - A [throw] is an [Err] of the [result] type; each [Error] message of the
      source has one constructor of [error].
    - [mathjs] ([mjs.*]) and [Math.*] are external; they are given by their
      mathematical meaning on numeric vectors and matrices.
    - [utils.js], [symmetry.js] and [parse.js] are other modules of the
      package and the periodic table is the [mendeleev] package.  The small
      vector helpers of [utils.js] are modelled from the specification; the
      others are parameters of the development (Section variables).
    - Values carry no identity in the first part of the file.  The last
      part, module [Store], puts the arrays of a structure in a store of
      shared, mutable arrays and treats the getters there. *)

From Stdlib Require Import Reals Lra Lia List String Ascii ZArith Bool Arith.
Import ListNotations.
Open Scope string_scope.
Open Scope list_scope.
Open Scope R_scope.

Set Implicit Arguments.

(* ================================================================== *)
(** ** JavaScript values and errors *)

#[warnings="-register-all"]
Inductive jsval : Type :=
| JUndef
| JNull
| JBool (b : bool)
| JNum (x : R)
| JStr (s : string)
| JArr (l : list jsval).

(** The [Error]s thrown by [cryst.js], one constructor per message, and the
    two kinds of failure of the run time and of [mathjs]. *)
Inductive error : Type :=
| NonExistingElement (el : jsval)   (* 'Non-existing element "el" passed to Atoms' *)
| InvalidCell                       (* 'Invalid cell passed to set_cell' *)
| InvalidPositions                  (* 'Invalid positions array passed to Atoms' *)
| ScaledNonPeriodic                 (* 'Impossible to use scaled coordinates with non-periodic system' *)
| InvalidArraySize                  (* 'Invalid array size' *)
| AbsoluteCoordinatesNecessary      (* 'Absolute coordinates are necessary without a unit cell' *)
| TypeError                         (* property access on null/undefined, call of a non-function *)
| MathError.                        (* mathjs: singular matrix, non-numeric or ill-shaped operand *)

Inductive result (A : Type) : Type :=
| Ok (a : A)
| Err (e : error).

Arguments Ok {A} a.
Arguments Err {A} e.

Definition bind {A B : Type} (c : result A) (k : A -> result B) : result B :=
  match c with
  | Ok a => k a
  | Err e => Err e
  end.

Notation "x <- c ;; k" := (bind c (fun x => k))
  (at level 61, c at next level, right associativity).
Notation "' pat <- c ;; k" := (bind c (fun x => match x with pat => k end))
  (at level 61, pat pattern, c at next level, right associativity).

Fixpoint mapM {A B : Type} (f : A -> result B) (l : list A) : result (list B) :=
  match l with
  | [] => Ok []
  | a :: r => b <- f a ;; bs <- mapM f r ;; Ok (b :: bs)
  end.

Definition of_option {A : Type} (e : error) (o : option A) : result A :=
  match o with
  | Some a => Ok a
  | None => Err e
  end.

(** JS objects used as dictionaries: association lists in insertion order
    (the order of [for ... in]).  [obj[k]] is the first binding of [k];
    [obj[k] = v] overwrites in place or appends. *)
Fixpoint js_get {A : Type} (k : string) (o : list (string * A)) : option A :=
  match o with
  | [] => None
  | (k', v) :: r => if String.eqb k k' then Some v else js_get k r
  end.

Fixpoint js_set {A : Type} (k : string) (v : A) (o : list (string * A))
  : list (string * A) :=
  match o with
  | [] => [(k, v)]
  | (k', v') :: r =>
      if String.eqb k k' then (k, v) :: r else (k', v') :: js_set k v r
  end.

Definition js_in {A : Type} (k : string) (o : list (string * A)) : bool :=
  match js_get k o with Some _ => true | None => false end.

(* ================================================================== *)
(** ** Numbers, vectors and matrices ([Math.*], [mathjs]) *)

Abbreviation vec := (list R).
Abbreviation mat := (list (list R)).

Definition Rltb (a b : R) : bool := if Rlt_dec a b then true else false.
Definition Reqb (a b : R) : bool := if Req_dec_T a b then true else false.

(** [v[i]] on a numeric array.  Past the end JS yields [undefined] (NaN in
    arithmetic), which the real numbers do not have; every use below is on
    arrays of the documented length. *)
Definition idx (v : vec) (i : nat) : R := nth i v 0.
Definition row (m : mat) (i : nat) : vec := nth i m [].

Fixpoint upd {A : Type} (i : nat) (x : A) (l : list A) : list A :=
  match l, i with
  | [], _ => []
  | _ :: r, O => x :: r
  | a :: r, S i' => a :: upd i' x r
  end.

Definition Math_sign (x : R) : R :=
  if Rlt_dec 0 x then 1 else if Rlt_dec x 0 then -1 else 0.

(** [mjs.dot], [mjs.norm], [mjs.add], [mjs.subtract], [mjs.dotMultiply]
    with a scalar, and the three shapes of [mjs.multiply]. *)
Fixpoint dot (u v : vec) : R :=
  match u, v with
  | x :: u', y :: v' => x * y + dot u' v'
  | _, _ => 0
  end.

Definition norm (v : vec) : R := sqrt (dot v v).

Fixpoint vadd (u v : vec) : vec :=
  match u, v with
  | x :: u', y :: v' => (x + y) :: vadd u' v'
  | _, _ => []
  end.

Fixpoint vsub (u v : vec) : vec :=
  match u, v with
  | x :: u', y :: v' => (x - y) :: vsub u' v'
  | _, _ => []
  end.

Definition scale (a : R) (v : vec) : vec := map (fun x => a * x) v.

(** Row vector times matrix: entry [j] is [sum_k v[k] * m[k][j]]. *)
Definition col (m : mat) (j : nat) : vec := map (fun r => idx r j) m.

Definition vec_mat (v : vec) (m : mat) : vec :=
  map (fun j => dot v (col m j)) (seq 0 (List.length (row m 0))).

Definition mat_mul (a b : mat) : mat := map (fun r => vec_mat r b) a.
Definition mat_vec (m : mat) (v : vec) : vec := map (fun r => dot r v) m.

(** [mjs.inv] on a 3x3 matrix: the inverse matrix, by cofactors; mathjs
    throws when the determinant is zero. *)
Definition det3 (m : mat) : R :=
  let a := row m 0 in let b := row m 1 in let c := row m 2 in
  idx a 0 * (idx b 1 * idx c 2 - idx b 2 * idx c 1)
  - idx a 1 * (idx b 0 * idx c 2 - idx b 2 * idx c 0)
  + idx a 2 * (idx b 0 * idx c 1 - idx b 1 * idx c 0).

Definition is_3x3 (m : mat) : bool :=
  (List.length m =? 3)%nat && forallb (fun r => (List.length r =? 3)%nat) m.

Definition inv (m : mat) : result mat :=
  if negb (is_3x3 m) then Err MathError
  else
    let d := det3 m in
    if Reqb d 0 then Err MathError
    else
      let a := row m 0 in let b := row m 1 in let c := row m 2 in
      Ok [ [ (idx b 1 * idx c 2 - idx b 2 * idx c 1) / d;
             (idx a 2 * idx c 1 - idx a 1 * idx c 2) / d;
             (idx a 1 * idx b 2 - idx a 2 * idx b 1) / d ];
           [ (idx b 2 * idx c 0 - idx b 0 * idx c 2) / d;
             (idx a 0 * idx c 2 - idx a 2 * idx c 0) / d;
             (idx a 2 * idx b 0 - idx a 0 * idx b 2) / d ];
           [ (idx b 0 * idx c 1 - idx b 1 * idx c 0) / d;
             (idx a 1 * idx c 0 - idx a 0 * idx c 1) / d;
             (idx a 0 * idx b 1 - idx a 1 * idx b 0) / d ] ].

(** The identity matrix. *)
Definition I3 : mat := [[1; 0; 0]; [0; 1; 0]; [0; 0; 1]].

(* ================================================================== *)
(** ** [utils.js] vector helpers *)

(** Modelled from the spec: [utils.cross] of the module [utils.js], the
    cross product ([Y = Z x X]). *)
Definition cross (u v : vec) : vec :=
  [ idx u 1 * idx v 2 - idx u 2 * idx v 1;
    idx u 2 * idx v 0 - idx u 0 * idx v 2;
    idx u 0 * idx v 1 - idx u 1 * idx v 0 ].

(** Modelled from the spec: [utils.unit], the vector scaled to norm one
    ([Z = unit(abNormal)]). *)
Definition unit (v : vec) : vec := map (fun x => x / norm v) v.

(** Modelled from the spec: [utils.degToRad] and [utils.radToDeg], the
    conversion between degrees and radians. *)
Definition degToRad (x : R) : R := x * PI / 180.
Definition radToDeg (x : R) : R := x * 180 / PI.

(* ================================================================== *)
(** ** CellGeometry: [cellToCellpar] and [cellparToCell] *)

(** [cryst.js] 23-42. *)
Definition cellToCellpar (cell : mat) (radians : bool) : vec * vec :=
  let lengths := map norm cell in
  let angle (i : nat) : R :=
    let j := ((i + 2) mod 3)%nat in
    let k := ((i + 1) mod 3)%nat in
    let ll := idx lengths j * idx lengths k in
    if Rltb 1e-16 ll
    then acos (dot (row cell j) (row cell k) / ll)
    else PI / 2 in
  let angles := map angle [0; 1; 2]%nat in
  let angles := if negb radians then map radToDeg angles else angles in
  (lengths, angles).

(** [cryst.js] 57-63: the direction of [a] chosen when the caller gives
    none. *)
Definition default_a_direction (ab_normal : vec) : vec :=
  if Rltb (norm (cross ab_normal [1; 0; 0])) 1e-5
  then [0; 0; 1]
  else [1; 0; 0].

(** [cryst.js] 83-89: one turn of the loop rounding for orthorhombic
    cells. *)
Definition snap_at (i : nat) (cs : vec * vec) : vec * vec :=
  let '(cosa, sina) := cs in
  if Rltb (Rabs (Rabs (idx sina i) - 1)) 1e-14
  then (upd i 0 cosa, upd i (Math_sign (idx sina i)) sina)
  else (cosa, sina).

(** [cryst.js] 53-104.  [ab_normal] and [a_direction] are [None] when the
    caller leaves them out. *)
Definition cellparToCell (cellpar : vec * vec)
    (ab_normal a_direction : option vec) (radians : bool) : mat :=
  let ab_normal := match ab_normal with Some n => n | None => [0; 0; 1] end in
  let a_direction :=
    match a_direction with
    | Some d => d
    | None => default_a_direction ab_normal
    end in
  let ad := unit a_direction in
  let Z := unit ab_normal in
  let X := unit (vsub ad (scale (dot ad Z) Z)) in
  let Y := cross Z X in
  let l := fst cellpar in
  let angs := snd cellpar in
  let angs := if negb radians then map degToRad angs else angs in
  let cosa := map cos angs in
  let sina := map sin angs in
  let '(cosa, sina) := snap_at 2 (snap_at 1 (snap_at 0 (cosa, sina))) in
  let va := [idx l 0; 0; 0] in
  let vb := [idx l 1 * idx cosa 2; idx l 1 * idx sina 2; 0] in
  let vc0 := idx l 2 * idx cosa 1 in
  let vc1 := idx l 2 * (idx cosa 0 - idx cosa 1 * idx cosa 2) / idx sina 2 in
  let vc2 := sqrt (idx l 2 * idx l 2 - vc0 * vc0 - vc1 * vc1) in
  let vc := [vc0; vc1; vc2] in
  mat_mul [va; vb; vc] [X; Y; Z].

(* ================================================================== *)
(** ** Data of the [Atoms] class and of a parsed CIF *)

(** An entry of the periodic table ([mendeleev]). *)
Record element : Type := { symbol : string; number : Z }.

(** The [cell] argument of [Atoms], as the constructor inspects it: a falsy
    value, a number, or an array whose entries are [null], numbers or
    arrays of numbers. *)
Inductive cellrow : Type :=
| RowNull
| RowNum (x : R)
| RowArr (r : vec).

Inductive cellarg : Type :=
| CellFalsy
| CellNum (a : R)
| CellArr (rows : list cellrow).

Record Atoms : Type := {
  _arrays : list (string * list jsval);
  _N : nat;
  _pbc : list bool;
  _inv_cell : option mat;
  _cell : option (list (option vec));
  info : list (string * jsval)
}.

(** A leaf of a parsed CIF: the raw text and the typed value. *)
Record CifValue : Type := { text : string; get_value : jsval }.

(** A data item of a block: [{type: 'single', value}] or
    [{type: 'loop', value: [...]}]. *)
Inductive item : Type :=
| Single (v : CifValue)
| Loop (vs : list CifValue).

Definition cblock : Type := list (string * item).
Definition cifdict : Type := list (string * cblock).

(** A symmetry operation [[rot, tr]]. *)
Definition symop : Type := (mat * vec)%type.

(** An object with named fields, read as [o.k] ([undefined] when absent). *)
Definition site : Type := list (string * jsval).

Definition field (k : string) (o : site) : jsval :=
  match js_get k o with Some v => v | None => JUndef end.

(** [x.length]: a number on arrays and strings, [undefined] on other
    primitives, a [TypeError] on [null] and [undefined]. *)
Definition js_length (v : jsval) : result (option nat) :=
  match v with
  | JArr l => Ok (Some (List.length l))
  | JStr s => Ok (Some (String.length s))
  | JNum _ | JBool _ => Ok None
  | JNull | JUndef => Err TypeError
  end.

(** Numeric arrays handed to [mathjs]: every entry has to be a number. *)
Definition to_number (v : jsval) : result R :=
  match v with JNum x => Ok x | _ => Err MathError end.

Definition to_vec (v : jsval) : result vec :=
  match v with JArr l => mapM to_number l | _ => Err MathError end.

Definition of_vec (v : vec) : jsval := JArr (map JNum v).

(** [utils.deepClone] on a value of this layer, where values carry no
    identity; the store of module [Store] below models the copy itself. *)
Definition deepClone {A : Type} (x : A) : A := x.

Definition is_falsy_num (x : R) : bool := Reqb x 0.

Definition is_some {A : Type} (o : option A) : bool :=
  match o with Some _ => true | None => false end.

(** [s.slice(11)]. *)
Definition slice11 (s : string) : string :=
  substring 11 (String.length s - 11) s.

Section Cryst.

(** The collaborators of [cryst.js]. *)
Variable getElement : jsval -> option element.   (* mndtable.getElement *)
Variable getAtomic : R -> option element.        (* mndtable.getAtomic *)
Variable parseCif : string -> cifdict.           (* parse.js *)
Variable parseSymOp : string -> symop.           (* symmetry.parseSymOp *)
Variable interpretHallSymbol : item -> option (list symop).
Variable mod1 : vec -> vec.                      (* utils.mod1 *)
Variable shortestPeriodicLength : vec -> R.      (* utils.shortestPeriodicLength *)
Variable StringToNumber : string -> option R.    (* ECMAScript ToNumber on strings *)

(* ------------------------------------------------------------------ *)
(** *** The constructor, [cryst.js] 132-226 *)

(** Lines 138-157, one element. *)
Definition resolve_elem (tolerant : bool) (el : jsval) : result (jsval * jsval) :=
  let is_num := match el with JNum _ => true | _ => false end in
  let a := match el with JNum x => getAtomic x | _ => getElement el end in
  match a with
  | None =>
      if is_num || negb tolerant
      then Err (NonExistingElement el)
      else Ok (el, JNum (-1))
  | Some a => Ok (JStr (symbol a), JNum (IZR (number a)))
  end.

(** Lines 185-199, one row of a three-entry cell: the stored row and the
    periodicity flag. *)
Definition resolve_row (i : nat) (r : cellrow) : result (option vec * bool) :=
  match r with
  | RowNull => Ok (None, false)
  | RowNum x =>
      if is_falsy_num x then Ok (None, false)
      else Ok (Some (upd i x [0; 0; 0]), true)
  | RowArr v =>
      if negb (List.length v =? 3)%nat then Err InvalidCell
      else Ok (Some v, true)
  end.

(** [cell[k].length == 3] on an entry of the cell array. *)
Definition row_length_is_3 (r : option cellrow) : result bool :=
  match r with
  | Some (RowArr v) => Ok (List.length v =? 3)%nat
  | Some (RowNum _) => Ok false
  | Some RowNull | None => Err TypeError
  end.

(** Lines 166-200: the stored cell and the flags. *)
Definition resolve_cell (cell : cellarg)
  : result (option (list (option vec)) * list bool) :=
  match cell with
  | CellFalsy => Ok (None, [false; false; false])
  | CellNum a =>
      if is_falsy_num a then Ok (None, [false; false; false])
      else Ok (Some [Some [a; 0; 0]; Some [0; a; 0]; Some [0; 0; a]],
               [true; true; true])
  | CellArr rows =>
      is_cellpar <-
        (if (List.length rows =? 2)%nat then
           l0 <- row_length_is_3 (nth_error rows 0) ;;
           if l0 then row_length_is_3 (nth_error rows 1) else Ok false
         else Ok false) ;;
      if is_cellpar then
        match rows with
        | [RowArr l; RowArr angs] =>
            Ok (Some (map Some (cellparToCell (l, angs) None None false)),
                [true; true; true])
        | _ => Err TypeError
        end
      else if negb (List.length rows =? 3)%nat then Err InvalidCell
      else
        rs <- mapM (fun ir => resolve_row (fst ir) (snd ir))
                   (combine (seq 0 3) rows) ;;
        Ok (Some (map fst rs), map snd rs)
  end.

Definition falsy_cell (cell : cellarg) : bool :=
  match cell with
  | CellFalsy => true
  | CellNum a => is_falsy_num a
  | CellArr _ => false
  end.

(** The rows of a cell without [null] entry. *)
Fixpoint full_rows (c : list (option vec)) : option mat :=
  match c with
  | [] => Some []
  | Some r :: c' =>
      match full_rows c' with Some m => Some (r :: m) | None => None end
  | None :: _ => None
  end.

(** Lines 202-203. *)
Definition resolve_inv_cell (cell : cellarg) (c : option (list (option vec)))
  : result (option mat) :=
  match c with
  | Some rows =>
      if falsy_cell cell then Ok None
      else match full_rows rows with
           | Some m => ic <- inv m ;; Ok (Some ic)
           | None => Ok None
           end
  | None => Ok None
  end.

(** Lines 206-212. *)
Fixpoint check_rows (check_pos : bool) (positions : list jsval) : result bool :=
  match positions with
  | [] => Ok check_pos
  | p :: r =>
      if check_pos then
        n <- js_length p ;;
        check_rows (match n with Some 3%nat => true | _ => false end) r
      else check_rows false r
  end.

(** [set_array], lines 234-240. *)
Definition set_array (name : string) (arr : list jsval) (a : Atoms) : result Atoms :=
  if negb (List.length arr =? _N a)%nat then Err InvalidArraySize
  else Ok {| _arrays := js_set name arr (_arrays a);
             _N := _N a;
             _pbc := _pbc a;
             _inv_cell := _inv_cell a;
             _cell := _cell a;
             info := info a |}.

(** [mjs.multiply(positions, m)] on a list of positions and a matrix [m] of
    three rows: every position times the matrix.  On the empty list [mathjs]
    throws (a [RangeError]: an empty array is a vector of length 0, which
    does not match the three rows of the matrix). *)
Definition multiply (ps : list vec) (m : mat) : result (list vec) :=
  match ps with
  | [] => Err MathError
  | _ :: _ => Ok (mat_mul ps m)
  end.

(** [new Atoms(elems, positions, cell, info, scaled, tolerant)]. *)
Definition Atoms_new (elems positions : list jsval) (cell : cellarg)
    (inf : option (list (string * jsval))) (scaled tolerant : bool)
  : result Atoms :=
  els <- mapM (resolve_elem tolerant) elems ;;
  let symbols := map fst els in
  let numbers := map snd els in
  let N := List.length symbols in
  '(c, pbc) <- resolve_cell cell ;;
  ic <- resolve_inv_cell cell c ;;
  check_pos <- check_rows (List.length positions =? N)%nat positions ;;
  if negb check_pos then Err InvalidPositions
  else
    positions <-
      (if scaled then
         match ic with
         | None => Err ScaledNonPeriodic
         | Some _ =>
             ps <- mapM to_vec positions ;;
             m <- of_option MathError
                    (match c with Some rows => full_rows rows | None => None end) ;;
             scaled <- multiply ps m ;;
             Ok (map of_vec scaled)
         end
       else Ok positions) ;;
    a <- set_array "positions" positions
           {| _arrays := [("symbols", symbols); ("numbers", numbers)];
              _N := N;
              _pbc := pbc;
              _inv_cell := ic;
              _cell := c;
              info := [] |} ;;
    Ok {| _arrays := _arrays a;
          _N := _N a;
          _pbc := _pbc a;
          _inv_cell := _inv_cell a;
          _cell := _cell a;
          info := match inf with Some i => i | None => [] end |}.

(* ------------------------------------------------------------------ *)
(** *** The prototype, [cryst.js] 230-276 *)

(** [length], line 231. *)
Definition Atoms_length (a : Atoms) : nat := _N a.

Definition get_array (name : string) (a : Atoms) : option (list jsval) :=
  js_get name (_arrays a).

Definition get_chemical_symbols (a : Atoms) := deepClone (get_array "symbols" a).
Definition get_atomic_numbers (a : Atoms) := deepClone (get_array "numbers" a).
Definition get_cell (a : Atoms) := deepClone (_cell a).
Definition get_inv_cell (a : Atoms) := deepClone (_inv_cell a).
Definition get_pbc (a : Atoms) := deepClone (_pbc a).
Definition get_positions (a : Atoms) := deepClone (get_array "positions" a).

(** [p[k]] as an operand of [*]: a number.  On other values JS coerces or
    yields NaN, which is outside the model. *)
Definition coord (p : jsval) (k : nat) : result R :=
  match p with
  | JArr l => match nth_error l k with
              | Some (JNum x) => Ok x
              | _ => Err MathError
              end
  | JNull | JUndef => Err TypeError
  | _ => Err MathError
  end.

(** Lines 262-275. *)
Definition scaled_position (ic : option mat) (p : jsval) : result vec :=
  ic <- of_option TypeError ic ;;
  p0 <- coord p 0 ;; p1 <- coord p 1 ;; p2 <- coord p 2 ;;
  Ok [ p0 * idx (row ic 0) 0 + p1 * idx (row ic 1) 0 + p2 * idx (row ic 2) 0;
       p0 * idx (row ic 0) 1 + p1 * idx (row ic 1) 1 + p2 * idx (row ic 2) 1;
       p0 * idx (row ic 0) 2 + p1 * idx (row ic 1) 2 + p2 * idx (row ic 2) 2 ].

Definition get_scaled_positions (a : Atoms) : result (list vec) :=
  pos <- of_option TypeError (get_array "positions" a) ;;
  mapM (scaled_position (_inv_cell a)) pos.

(* ------------------------------------------------------------------ *)
(** *** Extraction from a CIF block, [cryst.js] 286-428 *)

(** Lines 286-315. *)
Definition _extract_tags (cb : cblock) (tags : list string)
  : option (list (option (list CifValue))) :=
  let extracted := map (fun tag => js_get tag cb) tags in
  match extracted with
  | Some x0 :: _ =>
      Some (map (fun x =>
                   match x with
                   | None => None
                   | Some x =>
                       match x0, x with
                       | Loop vs0, Loop vs =>
                           if (List.length vs =? List.length vs0)%nat
                           then Some vs else None
                       | Single _, Single v => Some [v]
                       | _, _ => None
                       end
                   end) extracted)
  | _ => None
  end.

(** The inner loops of [_atom_types] and [_atom_sites]: for the tags
    numbered from [j] on, [obj[tag.slice(11)] = vals[j][i].get_value()]
    where [vals[j]] is not [null]. *)
Fixpoint fill_fields (tags : list string) (vals : list (option (list CifValue)))
    (i : nat) (obj : site) : result site :=
  match tags, vals with
  | t :: tags', v :: vals' =>
      obj' <- match v with
              | None => Ok obj
              | Some col =>
                  x <- of_option TypeError (nth_error col i) ;;
                  Ok (js_set (slice11 t) (get_value x) obj)
              end ;;
      fill_fields tags' vals' i obj'
  | _, _ => Ok obj
  end.

Definition atype_tags : list string :=
  ["_atom_type_symbol"; "_atom_type_description"; "_atom_type_radius_bond"].

(** Lines 317-340. *)
Definition _atom_types (cb : cblock) : result (option (list (string * site))) :=
  match _extract_tags cb atype_tags with
  | None => Ok None
  | Some typevals =>
      base <- of_option TypeError (nth 0 typevals None) ;;
      atypes <-
        fold_left
          (fun acc i =>
             atypes <- acc ;;
             x <- of_option TypeError (nth_error base i) ;;
             let sym := text x in
             o <- fill_fields (tl atype_tags) (tl typevals) i [] ;;
             Ok (js_set sym o atypes))
          (seq 0 (List.length base)) (Ok []) ;;
      Ok (Some atypes)
  end.

Definition asite_tags : list string :=
  ["_atom_site_label"; "_atom_site_type_symbol";
   "_atom_site_Cartn_x"; "_atom_site_Cartn_y"; "_atom_site_Cartn_z";
   "_atom_site_fract_x"; "_atom_site_fract_y"; "_atom_site_fract_z"].

(** Lines 342-368. *)
Definition _atom_sites (cb : cblock) : result (option (list site)) :=
  match _extract_tags cb asite_tags with
  | None => Ok None
  | Some sitevals =>
      base <- of_option TypeError (nth 0 sitevals None) ;;
      asites <- mapM (fun i => fill_fields asite_tags sitevals i [])
                     (seq 0 (List.length base)) ;;
      Ok (Some asites)
  end.

Definition cell_tags : list string :=
  ["_cell_length_a"; "_cell_length_b"; "_cell_length_c";
   "_cell_angle_alpha"; "_cell_angle_beta"; "_cell_angle_gamma"].

(** [x == 0] (a CIF leaf value is a primitive). *)
Definition loose_eq_zero (x : jsval) : bool :=
  match x with
  | JNum r => Reqb r 0
  | JBool b => negb b
  | JStr s => match StringToNumber s with Some r => Reqb r 0 | None => false end
  | JUndef | JNull | JArr _ => false
  end.

(** Lines 385-390: the six values, [None] at the first missing tag. *)
Fixpoint cell_values (cb : cblock) (tags : list string) (acc : list jsval)
  : result (option (list jsval)) :=
  match tags with
  | [] => Ok (Some acc)
  | t :: r =>
      match js_get t cb with
      | None => Ok None
      | Some (Single v) => cell_values cb r (acc ++ [get_value v])
      | Some (Loop _) => Err TypeError
      end
  end.

(** Lines 370-398. *)
Definition _cellpars (cb : cblock) : result (option (list jsval * list jsval)) :=
  vals <- cell_values cb cell_tags [] ;;
  match vals with
  | None => Ok None
  | Some vals =>
      let cellpars := (firstn 3 vals, skipn 3 vals) in
      if existsb loose_eq_zero (fst cellpars) then Ok None
      else Ok (Some cellpars)
  end.

Definition first_defined (cb : cblock) (t1 t2 : string) : option item :=
  match js_get t1 cb with
  | Some x => Some x
  | None => js_get t2 cb
  end.

(** Lines 400-428. *)
Definition _symops (cb : cblock) : option (list symop) :=
  let symopvals := first_defined cb "_space_group_symop_operation_xyz"
                                    "_symmetry_equiv_pos_as_xyz" in
  let hallsymbol := first_defined cb "_space_group_name_Hall"
                                     "_symmetry_space_group_name_Hall" in
  match symopvals with
  | Some (Single _) => None
  | Some (Loop vs) =>
      if (List.length vs =? 1)%nat then None
      else Some (map (fun v => parseSymOp (text v)) (tl vs))
  | None =>
      match hallsymbol with
      | Some h => interpretHallSymbol h
      | None => None
      end
  end.

(* ------------------------------------------------------------------ *)
(** *** [Atoms.readCif], [cryst.js] 438-534 *)

Definition is_undefined (v : jsval) : bool :=
  match v with JUndef => true | _ => false end.

(** Lines 469-481: the position of one site. *)
Definition site_position (pbc : bool) (cell : option mat) (s : site)
  : result jsval :=
  let p := [field "Cartn_x" s; field "Cartn_y" s; field "Cartn_z" s] in
  if existsb is_undefined p then
    if negb pbc then Err AbsoluteCoordinatesNecessary
    else
      let p := [field "fract_x" s; field "fract_y" s; field "fract_z" s] in
      pv <- mapM to_number p ;;
      c <- of_option TypeError cell ;;
      Ok (of_vec (vec_mat pv c))
  else Ok (JArr p).

(** Lines 502-510: is [p] equivalent to a position already kept? *)
Definition is_duplicate (symtol : R) (p : vec) (allp : list vec) : bool :=
  existsb (fun q => Rltb (shortestPeriodicLength (mod1 (vsub p q))) symtol) allp.

(** Lines 497-513: one symmetry operation applied to the site [p0]. *)
Definition image (p0 : vec) (op : symop) : vec :=
  mod1 (vadd (mat_vec (fst op) p0) (snd op)).

Definition expand_step (symtol : R) (p0 : vec) (allp : list vec) (op : symop)
  : list vec :=
  let p := image p0 op in
  if is_duplicate symtol p allp then allp else allp ++ [p].

(** Lines 494-514: the positions kept for the site [p0]. *)
Definition expand_site (symtol : R) (symops : list symop) (p0 : vec) : list vec :=
  fold_left (expand_step symtol p0) symops [p0].

(** Lines 489-519. *)
Definition expand (symtol : R) (symops : list symop) (fpos : list vec)
    (symbols labels : list jsval)
  : list vec * list jsval * list jsval :=
  fold_left
    (fun acc i =>
       let '(allfpos, allsyms, alllabs) := acc in
       let allp := expand_site symtol symops (nth i fpos []) in
       (allfpos ++ allp,
        allsyms ++ repeat (nth i symbols JUndef) (List.length allp),
        alllabs ++ repeat (nth i labels JUndef) (List.length allp)))
    (seq 0 (List.length fpos)) ([], [], []).

(** The [cell] variable as the argument of [new Atoms]. *)
Definition cellarg_of (cell : option mat) : cellarg :=
  match cell with
  | None => CellFalsy
  | Some m => CellArr (map RowArr m)
  end.

(** Lines 452-530, the body of the loop over the structures.  [cell] is
    declared with [var] inside the body, hence one variable of the whole
    function: [cell0] is its value when the turn starts and the first
    component of the result its value when the turn ends. *)
Definition process_block (symtol : R) (cell0 : option mat) (cb : cblock)
  : result (option mat * Atoms) :=
  atypes <- _atom_types cb ;;
  asites <- _atom_sites cb ;;
  cellpars <- _cellpars cb ;;
  let pbc := is_some cellpars in
  cell <- match cellpars with
          | Some cp =>
              l <- mapM to_number (fst cp) ;;
              angs <- mapM to_number (snd cp) ;;
              Ok (Some (cellparToCell (l, angs) None None false))
          | None => Ok cell0
          end ;;
  asites <- of_option TypeError asites ;;
  let symbols := map (field "type_symbol") asites in
  let labels := map (field "label") asites in
  positions <- mapM (site_position pbc cell) asites ;;
  '(symbols, labels, positions) <-
    (match (if pbc then _symops cb else None) with
     | Some symops =>
         c <- of_option TypeError cell ;;
         ic <- inv c ;;
         ps <- mapM to_vec positions ;;
         fpos <- multiply ps ic ;;
         let '(allfpos, allsyms, alllabs) :=
           expand symtol symops fpos symbols labels in
         positions <- multiply allfpos c ;;
         Ok (allsyms, alllabs, map of_vec positions)
     | None => Ok (symbols, labels, positions)
     end) ;;
  a <- Atoms_new symbols positions (cellarg_of cell) (Some []) false false ;;
  a <- set_array "labels" labels a ;;
  Ok (cell, a).

(** Lines 451-531: the loop, over the names [snames] of [structs]. *)
Fixpoint process_blocks (symtol : R) (cd : cifdict) (snames : list string)
    (cell : option mat) : result (list (string * Atoms)) :=
  match snames with
  | [] => Ok []
  | sname :: rest =>
      cb <- of_option TypeError (js_get sname cd) ;;
      '(cell', a) <- process_block symtol cell cb ;;
      structs <- process_blocks symtol cd rest cell' ;;
      Ok ((sname, a) :: structs)
  end.

(** Lines 443-449: the blocks with atom sites. *)
Definition select_blocks (cd : cifdict) : list (string * cblock) :=
  fold_left
    (fun structs bname =>
       match js_get bname cd with
       | Some block =>
           if js_in "_atom_site_label" block
           then js_set bname block structs
           else structs
       | None => structs
       end)
    (map fst cd) [].

(** [Atoms.readCif] on the parsed document. *)
Definition readCif_parsed (cd : cifdict) (symtol : option R)
  : result (list (string * Atoms)) :=
  let symtol := match symtol with Some t => t | None => 1e-3 end in
  process_blocks symtol cd (map fst (select_blocks cd)) None.

Definition readCif (cif : string) (symtol : option R)
  : result (list (string * Atoms)) :=
  readCif_parsed (parseCif cif) symtol.

End Cryst.

(* ================================================================== *)
(** * Properties *)

(** ** Comparisons on real numbers *)

Lemma Rltb_true (a b : R) : a < b -> Rltb a b = true.
Proof. intro H. unfold Rltb. destruct (Rlt_dec a b); [reflexivity | contradiction]. Qed.

Lemma Rltb_false (a b : R) : ~ a < b -> Rltb a b = false.
Proof. intro H. unfold Rltb. destruct (Rlt_dec a b); [contradiction | reflexivity]. Qed.

Lemma Rltb_spec (a b : R) : Rltb a b = true <-> a < b.
Proof.
  unfold Rltb. destruct (Rlt_dec a b); split; intro H; auto; discriminate.
Qed.

Lemma Reqb_true (a b : R) : a = b -> Reqb a b = true.
Proof. intro H. unfold Reqb. destruct (Req_dec_T a b); [reflexivity | contradiction]. Qed.

Lemma Reqb_false (a b : R) : a <> b -> Reqb a b = false.
Proof. intro H. unfold Reqb. destruct (Req_dec_T a b); [contradiction | reflexivity]. Qed.

Lemma Math_sign_1 : Math_sign 1 = 1.
Proof. unfold Math_sign. destruct (Rlt_dec 0 1); [reflexivity | lra]. Qed.

(** ** CellGeometry *)

Lemma norm_ez : norm [0; 1; 0] = 1.
Proof.
  unfold norm. simpl.
  replace (0 * 0 + (1 * 1 + (0 * 0 + 0))) with 1 by ring. apply sqrt_1.
Qed.

Lemma norm_ex : norm [1; 0; 0] = 1.
Proof.
  unfold norm. simpl.
  replace (1 * 1 + (0 * 0 + (0 * 0 + 0))) with 1 by ring. apply sqrt_1.
Qed.

Lemma norm_ezz : norm [0; 0; 1] = 1.
Proof.
  unfold norm. simpl.
  replace (0 * 0 + (0 * 0 + (1 * 1 + 0))) with 1 by ring. apply sqrt_1.
Qed.

Lemma cross_z_x : cross [0; 0; 1] [1; 0; 0] = [0; 1; 0].
Proof. unfold cross, idx. simpl. repeat f_equal; ring. Qed.

Lemma default_a_direction_z : default_a_direction [0; 0; 1] = [1; 0; 0].
Proof.
  unfold default_a_direction. rewrite cross_z_x, norm_ez.
  rewrite Rltb_false; [reflexivity | lra].
Qed.

(** C5, as stated, fails: the default normal [[0,0,1]] is not parallel to
    [[1,0,0]] (the cross product has norm 1), and the direction chosen for
    it is [[1,0,0]], not [[0,0,1]]. *)
Lemma C5_counterexample :
  ~ (forall ab_normal : vec,
       (~ norm (cross ab_normal [1; 0; 0]) < 1e-5 ->
        default_a_direction ab_normal = [0; 0; 1]) /\
       (norm (cross ab_normal [1; 0; 0]) < 1e-5 ->
        default_a_direction ab_normal = [1; 0; 0])).
Proof.
  intro H. destruct (H [0; 0; 1]) as [Hnot _].
  rewrite default_a_direction_z in Hnot.
  assert (Hn : ~ norm (cross [0; 0; 1] [1; 0; 0]) < 1e-5).
  { rewrite cross_z_x, norm_ez. lra. }
  specialize (Hnot Hn). inversion Hnot; lra.
Qed.

(** C5, amended: when the caller gives no [a_direction], [cellparToCell]
    uses [[0,0,1]] if [ab_normal] is parallel to [[1,0,0]] within [1e-5]
    (the norm of their cross product is below [1e-5]) and [[1,0,0]]
    otherwise; [ab_normal] itself defaults to [[0,0,1]]. *)
Theorem C5_default_a_direction :
  forall (cellpar : vec * vec) (ab_normal : option vec) (radians : bool),
    let n := match ab_normal with Some n => n | None => [0; 0; 1] end in
    cellparToCell cellpar ab_normal None radians
    = cellparToCell cellpar ab_normal (Some (default_a_direction n)) radians
    /\ (norm (cross n [1; 0; 0]) < 1e-5 -> default_a_direction n = [0; 0; 1])
    /\ (~ norm (cross n [1; 0; 0]) < 1e-5 -> default_a_direction n = [1; 0; 0]).
Proof.
  intros cellpar ab_normal radians n. split; [reflexivity |].
  unfold default_a_direction. split; intro H.
  - rewrite Rltb_true; auto.
  - rewrite Rltb_false; auto.
Qed.

Lemma unit_ex : unit [1; 0; 0] = [1; 0; 0].
Proof. unfold unit. rewrite norm_ex. simpl. repeat f_equal; field. Qed.

Lemma unit_ezz : unit [0; 0; 1] = [0; 0; 1].
Proof. unfold unit. rewrite norm_ezz. simpl. repeat f_equal; field. Qed.

(** With the default normal and direction the rotated system is the
    canonical basis. *)
Lemma default_basis :
  let ad := unit (default_a_direction [0; 0; 1]) in
  let Z := unit [0; 0; 1] in
  let X := unit (vsub ad (scale (dot ad Z) Z)) in
  [X; cross Z X; Z] = [[1; 0; 0]; [0; 1; 0]; [0; 0; 1]].
Proof.
  cbv zeta. rewrite default_a_direction_z, unit_ex, unit_ezz.
  assert (HX : unit (vsub [1; 0; 0] (scale (dot [1; 0; 0] [0; 0; 1]) [0; 0; 1]))
               = [1; 0; 0]).
  { replace (vsub [1; 0; 0] (scale (dot [1; 0; 0] [0; 0; 1]) [0; 0; 1]))
      with [1; 0; 0] by (simpl; repeat f_equal; ring).
    apply unit_ex. }
  rewrite HX. rewrite cross_z_x. reflexivity.
Qed.

Lemma mat_mul_canonical (u v w : vec) :
  List.length u = 3%nat -> List.length v = 3%nat -> List.length w = 3%nat ->
  mat_mul [u; v; w] [[1; 0; 0]; [0; 1; 0]; [0; 0; 1]] = [u; v; w].
Proof.
  intros Hu Hv Hw.
  destruct u as [|u0 [|u1 [|u2 [|]]]]; try discriminate.
  destruct v as [|v0 [|v1 [|v2 [|]]]]; try discriminate.
  destruct w as [|w0 [|w1 [|w2 [|]]]]; try discriminate.
  unfold mat_mul, vec_mat, col, row, idx. simpl.
  repeat f_equal; ring.
Qed.

(** The rounding loop leaves [(cosa, sina)] as it is when the entry it
    would round is already [(0, 1)]. *)
Lemma snap_at_fixed (i : nat) (cosa sina : vec) :
  (Rabs (Rabs (idx sina i) - 1) < 1e-14 -> idx cosa i = 0 /\ idx sina i = 1) ->
  snap_at i (cosa, sina) = (cosa, sina).
Proof.
  intro H. unfold snap_at.
  destruct (Rlt_dec (Rabs (Rabs (idx sina i) - 1)) 1e-14) as [Hlt | Hge].
  - rewrite (Rltb_true Hlt). destruct (H Hlt) as [Hc Hs].
    rewrite Hs, Math_sign_1. rewrite <- Hs at 1. rewrite <- Hc at 1.
    assert (Hupd : forall (l : vec) k, upd k (idx l k) l = l).
    { induction l as [|x l IH]; intros [|k]; simpl; try reflexivity.
      unfold idx in *. simpl. f_equal. apply IH. }
    rewrite !Hupd. reflexivity.
  - rewrite (Rltb_false Hge). reflexivity.
Qed.

(** An angle given in degrees is left alone by the rounding when it is not
    in the rounding window, or when it is exactly 90 degrees. *)
Definition unrounded (deg : R) : Prop :=
  Rabs (Rabs (sin (degToRad deg)) - 1) < 1e-14 -> deg = 90.

Lemma degToRad_90 : degToRad 90 = PI / 2.
Proof. unfold degToRad. field. Qed.

Lemma unrounded_fixed (deg : R) :
  unrounded deg ->
  Rabs (Rabs (sin (degToRad deg)) - 1) < 1e-14 ->
  cos (degToRad deg) = 0 /\ sin (degToRad deg) = 1.
Proof.
  intros H Hlt. rewrite (H Hlt), degToRad_90. split; [apply cos_PI2 | apply sin_PI2].
Qed.

(** The cell built from lengths and angles in the default orientation. *)
Definition canonical_cell (a b c al be ga : R) : mat :=
  let ca := cos (degToRad al) in
  let cb := cos (degToRad be) in
  let cg := cos (degToRad ga) in
  let sg := sin (degToRad ga) in
  let vc0 := c * cb in
  let vc1 := c * (ca - cb * cg) / sg in
  [ [a; 0; 0];
    [b * cg; b * sg; 0];
    [vc0; vc1; sqrt (c * c - vc0 * vc0 - vc1 * vc1)] ].

Lemma cellparToCell_canonical (a b c al be ga : R) :
  unrounded al -> unrounded be -> unrounded ga ->
  cellparToCell ([a; b; c], [al; be; ga]) None None false
  = canonical_cell a b c al be ga.
Proof.
  intros Hal Hbe Hga. unfold cellparToCell.
  pose proof default_basis as HB. cbv zeta in HB.
  cbn [fst snd negb map].
  rewrite (@snap_at_fixed 0); [| apply (unrounded_fixed Hal)].
  rewrite (@snap_at_fixed 1); [| apply (unrounded_fixed Hbe)].
  rewrite (@snap_at_fixed 2); [| apply (unrounded_fixed Hga)].
  rewrite HB. rewrite mat_mul_canonical by reflexivity.
  reflexivity.
Qed.

(** [cellToCellpar] on three rows, with the index arithmetic carried out. *)
Definition angle_between (ll d : R) : R :=
  if Rltb 1e-16 ll then acos (d / ll) else PI / 2.

Lemma cellToCellpar_rows (u v w : vec) :
  cellToCellpar [u; v; w] false
  = ([norm u; norm v; norm w],
     [radToDeg (angle_between (norm w * norm v) (dot w v));
      radToDeg (angle_between (norm u * norm w) (dot u w));
      radToDeg (angle_between (norm v * norm u) (dot v u))]).
Proof. reflexivity. Qed.

Lemma radToDeg_degToRad (x : R) : radToDeg (degToRad x) = x.
Proof. unfold radToDeg, degToRad. field. apply PI_neq0. Qed.

Lemma degToRad_range (x : R) : 0 < x < 180 -> 0 < degToRad x < PI.
Proof.
  intros [H0 H1]. unfold degToRad. pose proof PI_RGT_0 as HPI. split.
  - apply Rdiv_lt_0_compat; [apply Rmult_lt_0_compat; lra | lra].
  - apply Rmult_lt_reg_r with 180; [lra |].
    replace (x * PI / 180 * 180) with (x * PI) by field.
    rewrite (Rmult_comm PI 180). apply Rmult_lt_compat_r; lra.
Qed.

Lemma angle_recovered (x ll d : R) :
  0 < x < 180 -> 1e-16 < ll -> d / ll = cos (degToRad x) ->
  radToDeg (angle_between ll d) = x.
Proof.
  intros Hx Hll Hd. unfold angle_between. rewrite (Rltb_true Hll), Hd.
  destruct (degToRad_range Hx) as [H0 H1].
  rewrite acos_cos by lra. apply radToDeg_degToRad.
Qed.

Lemma norm_3 (x y z n : R) :
  0 <= n -> x * x + y * y + z * z = n * n -> norm [x; y; z] = n.
Proof.
  intros Hn H. unfold norm. simpl.
  replace (x * x + (y * y + (z * z + 0))) with (n * n) by lra.
  apply sqrt_square, Hn.
Qed.

(** The quantity whose sign decides whether three angles are those of a
    cell (the squared volume of the unit-length cell). *)
Definition gram (al be ga : R) : R :=
  let ca := cos (degToRad al) in
  let cb := cos (degToRad be) in
  let cg := cos (degToRad ga) in
  1 - ca * ca - cb * cb - cg * cg + 2 * ca * cb * cg.

Lemma radicand_gram (c al be ga : R) :
  sin (degToRad ga) <> 0 ->
  let ca := cos (degToRad al) in
  let cb := cos (degToRad be) in
  let cg := cos (degToRad ga) in
  let sg := sin (degToRad ga) in
  c * c - (c * cb) * (c * cb) - (c * (ca - cb * cg) / sg) * (c * (ca - cb * cg) / sg)
  = c * c * gram al be ga / (sg * sg).
Proof.
  intros Hs ca cb cg sg. unfold gram. fold ca cb cg.
  assert (H2 : sg * sg = 1 - cg * cg).
  { pose proof (sin2_cos2 (degToRad ga)) as H. unfold Rsqr in H.
    fold sg cg in H. lra. }
  apply Rmult_eq_reg_r with (sg * sg).
  2:{ intro H0. apply Rmult_integral in H0. destruct H0; contradiction. }
  replace (c * c * (1 - ca * ca - cb * cb - cg * cg + 2 * ca * cb * cg)
           / (sg * sg) * (sg * sg))
    with (c * c * (1 - ca * ca - cb * cb - cg * cg + 2 * ca * cb * cg))
    by (field; exact Hs).
  replace ((c * c - c * cb * (c * cb)
            - c * (ca - cb * cg) / sg * (c * (ca - cb * cg) / sg)) * (sg * sg))
    with (c * c * (sg * sg) - c * cb * (c * cb) * (sg * sg)
          - c * (ca - cb * cg) * (c * (ca - cb * cg)))
    by (field; exact Hs).
  rewrite H2. ring.
Qed.

(** C4, amended: in exact real arithmetic, [cellToCellpar] after
    [cellparToCell] (default orientation, degrees) gives back the lengths
    and the angles when the lengths are positive with pairwise products
    above [1e-16], the angles lie strictly between 0 and 180 degrees and are
    those of a cell ([gram] is not negative), and no angle other than
    exactly 90 degrees falls in the rounding window of [cellparToCell]. *)
Theorem C4_roundtrip :
  forall a b c al be ga : R,
    0 < a -> 0 < b -> 0 < c ->
    0 < al < 180 -> 0 < be < 180 -> 0 < ga < 180 ->
    1e-16 < b * c -> 1e-16 < a * c -> 1e-16 < a * b ->
    unrounded al -> unrounded be -> unrounded ga ->
    0 <= gram al be ga ->
    cellToCellpar (cellparToCell ([a; b; c], [al; be; ga]) None None false) false
    = ([a; b; c], [al; be; ga]).
Proof.
  intros a b c al be ga Ha Hb Hc Hal Hbe Hga Hbc Hac Hab Ual Ube Uga Hgram.
  rewrite cellparToCell_canonical by assumption.
  unfold canonical_cell. cbv zeta.
  set (ca := cos (degToRad al)). set (cb := cos (degToRad be)).
  set (cg := cos (degToRad ga)). set (sg := sin (degToRad ga)).
  assert (Hsg : 0 < sg).
  { unfold sg. destruct (degToRad_range Hga). apply sin_gt_0; assumption. }
  assert (Hsg0 : sg <> 0) by lra.
  assert (H2 : sg * sg + cg * cg = 1).
  { pose proof (sin2_cos2 (degToRad ga)) as H. unfold Rsqr in H. exact H. }
  set (vc0 := c * cb). set (vc1 := c * (ca - cb * cg) / sg).
  set (rad := c * c - vc0 * vc0 - vc1 * vc1).
  assert (Hrad : 0 <= rad).
  { unfold rad, vc0, vc1, ca, cb, cg, sg.
    rewrite radicand_gram by exact Hsg0.
    apply Rmult_le_pos.
    - apply Rmult_le_pos; [nra | exact Hgram].
    - left. apply Rinv_0_lt_compat. fold sg. nra. }
  assert (Hz : sqrt rad * sqrt rad = rad) by (apply sqrt_sqrt; exact Hrad).
  rewrite cellToCellpar_rows.
  assert (Na : norm [a; 0; 0] = a) by (apply norm_3; lra).
  assert (Nb : norm [b * cg; b * sg; 0] = b) by (apply norm_3; nra).
  assert (Nc : norm [vc0; vc1; sqrt rad] = c).
  { apply norm_3; [lra |]. rewrite Hz. unfold rad. ring. }
  rewrite Na, Nb, Nc.
  f_equal. f_equal; [| f_equal; [| f_equal]].
  - apply angle_recovered; [assumption | lra |].
    fold ca. simpl. unfold vc0, vc1. field. lra.
  - apply angle_recovered; [assumption | lra |].
    fold cb. simpl. unfold vc0. field. lra.
  - apply angle_recovered; [assumption | lra |].
    fold cg. simpl. field. lra.
Qed.

Lemma degToRad_60 : degToRad 60 = PI / 3.
Proof. unfold degToRad. field. Qed.

Lemma unrounded_90 : unrounded 90.
Proof. intros _. reflexivity. Defined.

Lemma unrounded_60 : unrounded 60.
Proof.
  intro H. exfalso. rewrite degToRad_60, sin_PI3 in H.
  pose proof (sqrt_pos 3) as Hp.
  assert (Hs : sqrt 3 * sqrt 3 = 3) by (apply sqrt_sqrt; lra).
  assert (Hlt : sqrt 3 < 9 / 5) by nra.
  rewrite (Rabs_pos_eq (sqrt 3 / 2)) in H by lra.
  rewrite Rabs_left in H by lra. lra.
Defined.

Lemma gram_60 : gram 60 60 60 = 1 / 2.
Proof. unfold gram. rewrite degToRad_60, cos_PI3. field. Qed.

(** C4 holds at the rhombohedral cell with unit lengths and angles of 60
    degrees. *)
Lemma C4_roundtrip_witness :
  cellToCellpar (cellparToCell ([1; 1; 1], [60; 60; 60]) None None false) false
  = ([1; 1; 1], [60; 60; 60]).
Proof.
  apply C4_roundtrip; try lra; try exact unrounded_60.
  rewrite gram_60. lra.
Defined.

(** The reading of C4 with a tolerance: every length and every angle comes
    back within [tol] of what was given. *)
Definition close (tol : R) (u v : vec) : Prop :=
  Forall2 (fun x y => Rabs (x - y) <= tol) u v.

Definition roundtrip_within (tol : R) : Prop :=
  forall a b c al be ga : R,
    0 < a -> 0 < b -> 0 < c ->
    0 < al < 180 -> 0 < be < 180 -> 0 < ga < 180 ->
    let r := cellToCellpar
               (cellparToCell ([a; b; c], [al; be; ga]) None None false) false in
    close tol (fst r) [a; b; c] /\ close tol (snd r) [al; be; ga].

(** C4, as stated, fails: with the three lengths [1e-9] and the three angles
    60 degrees, every product of two lengths is [1e-18], below the
    threshold [1e-16] of [cellToCellpar], which then answers 90 degrees: 30
    degrees away, far beyond a tolerance of one degree. *)
Lemma C4_counterexample : ~ roundtrip_within 1.
Proof.
  intro H.
  assert (Hl : 0 < 1e-9) by lra.
  assert (Ha : 0 < 60 < 180) by lra.
  destruct (H 1e-9 1e-9 1e-9 60 60 60 Hl Hl Hl Ha Ha Ha) as [_ Hang].
  cbv zeta in Hang.
  rewrite cellparToCell_canonical in Hang by exact unrounded_60.
  unfold canonical_cell in Hang. cbv zeta in Hang.
  rewrite cellToCellpar_rows in Hang. cbn [snd] in Hang.
  set (cg := cos (degToRad 60)) in *. set (sg := sin (degToRad 60)) in *.
  assert (H2 : sg * sg + cg * cg = 1).
  { pose proof (sin2_cos2 (degToRad 60)) as E. unfold Rsqr in E. exact E. }
  assert (Na : norm [1e-9; 0; 0] = 1e-9) by (apply norm_3; lra).
  assert (Nb : norm [1e-9 * cg; 1e-9 * sg; 0] = 1e-9) by (apply norm_3; nra).
  rewrite Na, Nb in Hang.
  unfold close in Hang.
  inversion Hang as [| x1 y1 l1 l1' _ Hang1]; subst.
  inversion Hang1 as [| x2 y2 l2 l2' _ Hang2]; subst.
  inversion Hang2 as [| x3 y3 l3 l3' Hg _]; subst.
  unfold angle_between in Hg.
  rewrite Rltb_false in Hg by lra.
  replace (radToDeg (PI / 2)) with 90 in Hg
    by (unfold radToDeg; field; apply PI_neq0).
  rewrite Rabs_pos_eq in Hg by lra. lra.
Qed.

(** ** Sequencing *)

Lemma mapM_ok_nth {A B : Type} (f : A -> result B) (l : list A) (bs : list B) :
  mapM f l = Ok bs ->
  List.length bs = List.length l /\
  forall i a, nth_error l i = Some a ->
    exists b, nth_error bs i = Some b /\ f a = Ok b.
Proof.
  revert bs. induction l as [|x l IH]; intros bs H; simpl in H.
  - injection H as <-. split; [reflexivity |]. intros [|i] a Hi; discriminate.
  - destruct (f x) as [b|e] eqn:Hx; simpl in H; [| discriminate].
    destruct (mapM f l) as [bs'|e] eqn:Hl; simpl in H; [| discriminate].
    injection H as <-. destruct (IH bs' eq_refl) as [Hlen Hnth].
    split; [simpl; congruence |].
    intros [|i] a Hi; simpl in Hi.
    + injection Hi as <-. exists b. split; [reflexivity | exact Hx].
    + simpl. apply Hnth, Hi.
Qed.

Lemma mapM_all_ok {A B : Type} (f : A -> result B) (l : list A) :
  (forall a, In a l -> exists b, f a = Ok b) ->
  exists bs, mapM f l = Ok bs.
Proof.
  induction l as [|x l IH]; intro H; simpl.
  - eexists. reflexivity.
  - destruct (H x (or_introl eq_refl)) as [b Hb]. rewrite Hb. simpl.
    destruct IH as [bs Hbs]; [intros a Ha; apply H; right; exact Ha |].
    rewrite Hbs. simpl. eexists. reflexivity.
Qed.

(** The first failing element decides the error. *)
Lemma mapM_some_err {A B : Type} (f : A -> result B) (l : list A) (a : A) (e : error) :
  In a l -> f a = Err e ->
  exists a' e', In a' l /\ f a' = Err e' /\ mapM f l = Err e'.
Proof.
  induction l as [|x l IH]; intros Hin Ha; [contradiction |].
  simpl. destruct (f x) as [b|ex] eqn:Hx; simpl.
  - destruct Hin as [-> | Hin]; [congruence |].
    destruct (IH Hin Ha) as (a' & e' & Hin' & Hf & Hm).
    exists a', e'. rewrite Hm. simpl. auto.
  - exists x, ex. auto.
Qed.

(** ** The constructor *)

Section AtomsProperties.

Variable getElement : jsval -> option element.
Variable getAtomic : R -> option element.

Definition is_number (el : jsval) : bool :=
  match el with JNum _ => true | _ => false end.

(** An element is unknown when the periodic table does not resolve it. *)
Definition unknown (el : jsval) : Prop :=
  match el with
  | JNum x => getAtomic x = None
  | _ => getElement el = None
  end.

Lemma resolve_elem_err (tolerant : bool) (el : jsval) (e : error) :
  resolve_elem getElement getAtomic tolerant el = Err e ->
  e = NonExistingElement el /\ unknown el /\
  (tolerant = true -> is_number el = true).
Proof.
  unfold resolve_elem, unknown.
  destruct el; simpl;
    try (destruct (getElement _) eqn:Hg; [discriminate |];
         destruct tolerant; simpl; [discriminate |];
         intro H; injection H as <-; repeat split; auto; discriminate).
  destruct (getAtomic x) eqn:Hg; [discriminate |].
  intro H; injection H as <-. auto.
Qed.

Lemma resolve_elem_unknown_strict (el : jsval) :
  unknown el -> resolve_elem getElement getAtomic false el = Err (NonExistingElement el).
Proof.
  unfold resolve_elem, unknown. destruct el; intros ->; reflexivity.
Qed.

Lemma resolve_elem_unknown_number (tolerant : bool) (x : R) :
  getAtomic x = None ->
  resolve_elem getElement getAtomic tolerant (JNum x) = Err (NonExistingElement (JNum x)).
Proof. unfold resolve_elem. intros ->. reflexivity. Qed.

Lemma resolve_elem_tolerant (el : jsval) :
  is_number el = false -> getElement el = None ->
  resolve_elem getElement getAtomic true el = Ok (el, JNum (-1)).
Proof.
  unfold resolve_elem. destruct el; simpl; try discriminate; intros _ ->; reflexivity.
Qed.

(** The constructor stops at the element loop when that loop fails. *)
Lemma Atoms_new_elems_err (tolerant : bool) (elems positions : list jsval)
    (cell : cellarg) (inf : option (list (string * jsval))) (scaled : bool)
    (e : error) :
  mapM (resolve_elem getElement getAtomic tolerant) elems = Err e ->
  Atoms_new getElement getAtomic elems positions cell inf scaled tolerant = Err e.
Proof. intro H. unfold Atoms_new. rewrite H. reflexivity. Qed.

(** The constructor on valid unscaled input. *)
Lemma Atoms_new_ok (tolerant : bool) (elems positions : list jsval)
    (cell : cellarg) (inf : option (list (string * jsval)))
    (els : list (jsval * jsval)) c pbc ic :
  mapM (resolve_elem getElement getAtomic tolerant) elems = Ok els ->
  resolve_cell cell = Ok (c, pbc) ->
  resolve_inv_cell cell c = Ok ic ->
  check_rows (List.length positions =? List.length elems)%nat positions = Ok true ->
  Atoms_new getElement getAtomic elems positions cell inf false tolerant
  = Ok {| _arrays := [("symbols", map fst els); ("numbers", map snd els);
                      ("positions", positions)];
          _N := List.length elems;
          _pbc := pbc;
          _inv_cell := ic;
          _cell := c;
          info := match inf with Some i => i | None => [] end |}.
Proof.
  intros Hels Hcell Hinv Hpos. unfold Atoms_new.
  destruct (mapM_ok_nth _ _ Hels) as [Hlen _].
  rewrite Hels. cbn [bind]. rewrite Hcell. cbn [bind]. rewrite Hinv. cbn [bind].
  rewrite length_map, Hlen, Hpos. cbn [bind negb].
  assert (HN : List.length positions = List.length elems).
  { destruct (List.length positions =? List.length elems)%nat eqn:E.
    - apply Nat.eqb_eq, E.
    - exfalso. clear - Hpos. induction positions as [|p r IH]; simpl in Hpos;
        [discriminate | auto]. }
  unfold set_array. cbn [_N]. rewrite HN, Nat.eqb_refl. cbn [negb bind].
  reflexivity.
Qed.

Lemma Atoms_new_unknown (tolerant : bool) (elems positions : list jsval)
    (cell : cellarg) (inf : option (list (string * jsval))) (scaled : bool)
    (el : jsval) :
  In el elems ->
  resolve_elem getElement getAtomic tolerant el = Err (NonExistingElement el) ->
  exists el', In el' elems /\ unknown el' /\
    (tolerant = true -> is_number el' = true) /\
    Atoms_new getElement getAtomic elems positions cell inf scaled tolerant
    = Err (NonExistingElement el').
Proof.
  intros Hin Hel.
  destruct (mapM_some_err _ _ _ Hin Hel) as (el' & e' & Hin' & Hf & Hm).
  destruct (resolve_elem_err _ _ Hf) as (-> & Hun & Hnum).
  exists el'. repeat split; auto.
  apply Atoms_new_elems_err, Hm.
Qed.

(** C7: an element symbol that the periodic table does not resolve makes
    the construction fail with the non-existing-element error when
    [tolerant] is false; when [tolerant] is true (unscaled positions of the
    right shape, an acceptable cell, every numeric element known) the
    construction succeeds, the number stored for that atom is [-1] and its
    symbol is the value given. *)
Theorem C7_unknown_symbol :
  forall (elems positions : list jsval) (cell : cellarg)
         (inf : option (list (string * jsval))) (scaled : bool) (el : jsval),
    In el elems -> is_number el = false -> getElement el = None ->
    (exists el', In el' elems /\ unknown el' /\
       Atoms_new getElement getAtomic elems positions cell inf scaled false
       = Err (NonExistingElement el'))
    /\
    (forall c pbc ic,
       (forall x, In (JNum x) elems -> getAtomic x <> None) ->
       resolve_cell cell = Ok (c, pbc) ->
       resolve_inv_cell cell c = Ok ic ->
       check_rows (List.length positions =? List.length elems)%nat positions
       = Ok true ->
       exists a syms nums,
         Atoms_new getElement getAtomic elems positions cell inf false true = Ok a
         /\ get_chemical_symbols a = Some syms
         /\ get_atomic_numbers a = Some nums
         /\ forall i, nth_error elems i = Some el ->
              nth_error syms i = Some el /\
              nth_error nums i = Some (JNum (-1))).
Proof.
  intros elems positions cell inf scaled el Hin Hnum Hget. split.
  - destruct (@Atoms_new_unknown false elems positions cell inf scaled el Hin)
      as (el' & H1 & H2 & _ & H3).
    + apply resolve_elem_unknown_strict. destruct el; try discriminate; exact Hget.
    + exists el'. auto.
  - intros c pbc ic Hknown Hcell Hinv Hpos.
    destruct (@mapM_all_ok _ _ (resolve_elem getElement getAtomic true) elems)
      as [els Hels].
    { intros a Ha. unfold resolve_elem. destruct a as [| | b | y | s | l]; simpl;
        try (match goal with
             | |- context [getElement ?v] => destruct (getElement v)
             end; eexists; reflexivity).
      destruct (getAtomic y) eqn:Hy; [eexists; reflexivity |].
      exfalso. apply (Hknown y Ha Hy). }
    eexists. exists (map fst els), (map snd els).
    split; [eapply Atoms_new_ok; eassumption |].
    split; [reflexivity |]. split; [reflexivity |].
    intros i Hi. destruct (mapM_ok_nth _ _ Hels) as [_ Hnth].
    destruct (Hnth i el Hi) as (b & Hb & Hres).
    rewrite (resolve_elem_tolerant Hnum Hget) in Hres. injection Hres as <-.
    split.
    + rewrite nth_error_map, Hb. reflexivity.
    + rewrite nth_error_map, Hb. reflexivity.
Qed.

(** C10: the tolerant fallback is for elements that are not numbers.  A
    numeric element that the periodic table does not resolve makes the
    construction fail whatever [tolerant] is (and with [tolerant] true the
    failing element is a number); a numeric element that passes the loop
    carries the number of its table entry, never the fallback. *)
Theorem C10_numeric_never_tolerated :
  forall (tolerant : bool) (elems positions : list jsval) (cell : cellarg)
         (inf : option (list (string * jsval))) (scaled : bool) (x : R),
    In (JNum x) elems -> getAtomic x = None ->
    (exists el', In el' elems /\ unknown el' /\
       (tolerant = true -> is_number el' = true) /\
       Atoms_new getElement getAtomic elems positions cell inf scaled tolerant
       = Err (NonExistingElement el'))
    /\
    (forall (y : R) (sym num : jsval),
       resolve_elem getElement getAtomic tolerant (JNum y) = Ok (sym, num) ->
       exists a, getAtomic y = Some a /\ sym = JStr (symbol a) /\
                 num = JNum (IZR (number a))).
Proof.
  intros tolerant elems positions cell inf scaled x Hin Hx. split.
  - apply Atoms_new_unknown with (el := JNum x); [exact Hin |].
    apply resolve_elem_unknown_number, Hx.
  - intros y sym num. unfold resolve_elem.
    destruct (getAtomic y) as [a|]; simpl; [| discriminate].
    intro H. injection H as <- <-. exists a. auto.
Qed.

End AtomsProperties.

(** A periodic table with two entries, for the examples. *)
Definition carbon : element := {| symbol := "C"; number := 6 |}.
Definition hydrogen : element := {| symbol := "H"; number := 1 |}.

Definition table_getElement (el : jsval) : option element :=
  match el with
  | JStr s => if String.eqb s "C" then Some carbon
              else if String.eqb s "H" then Some hydrogen
              else None
  | _ => None
  end.

Definition table_getAtomic (x : R) : option element :=
  if Reqb x 6 then Some carbon
  else if Reqb x 1 then Some hydrogen
  else None.

(** C7 at [new Atoms(['C', 'X'], [[0,0,0], [1,1,1]], null, ...)]. *)
Lemma C7_unknown_symbol_witness :
  let elems := [JStr "C"; JStr "X"] in
  let positions := [JArr [JNum 0; JNum 0; JNum 0]; JArr [JNum 1; JNum 1; JNum 1]] in
  (exists el', In el' elems /\ unknown table_getElement table_getAtomic el' /\
     Atoms_new table_getElement table_getAtomic elems positions CellFalsy None
               false false
     = Err (NonExistingElement el'))
  /\
  (exists a syms nums,
     Atoms_new table_getElement table_getAtomic elems positions CellFalsy None
               false true = Ok a
     /\ get_chemical_symbols a = Some syms
     /\ get_atomic_numbers a = Some nums
     /\ forall i, nth_error elems i = Some (JStr "X") ->
          nth_error syms i = Some (JStr "X") /\
          nth_error nums i = Some (JNum (-1))).
Proof.
  intros elems positions.
  destruct (@C7_unknown_symbol table_getElement table_getAtomic
              elems positions CellFalsy None false (JStr "X"))
    as [Hstrict Htol].
  - simpl. right. left. reflexivity.
  - reflexivity.
  - reflexivity.
  - split; [exact Hstrict |].
    apply (Htol None [false; false; false] None).
    + intros x [H | [H | []]]; discriminate.
    + reflexivity.
    + reflexivity.
    + reflexivity.
Defined.

(** C10 at [new Atoms([200], [[0,0,0]], null, null, false, true)]. *)
Lemma C10_numeric_never_tolerated_witness :
  exists el', In el' [JNum 200] /\
    is_number el' = true /\
    Atoms_new table_getElement table_getAtomic [JNum 200]
              [JArr [JNum 0; JNum 0; JNum 0]] CellFalsy None false true
    = Err (NonExistingElement el').
Proof.
  destruct (@C10_numeric_never_tolerated table_getElement table_getAtomic true
              [JNum 200] [JArr [JNum 0; JNum 0; JNum 0]] CellFalsy None false 200)
    as [(el' & H1 & _ & H3 & H4) _].
  - left. reflexivity.
  - unfold table_getAtomic.
    rewrite !Reqb_false by lra. reflexivity.
  - exists el'. auto.
Defined.

(** ** Scaled positions *)

(** Equality of numeric vectors and matrices, entry by entry. *)
Ltac vec_eq tac :=
  repeat match goal with
         | |- Ok _ = Ok _ => apply f_equal
         | |- (_ :: _) = (_ :: _) => apply f_equal2
         | |- @eq R _ _ => tac
         | |- @eq (list _) [] [] => reflexivity
         end.

Lemma is_3x3_inv (m : mat) :
  is_3x3 m = true ->
  exists a0 a1 a2 b0 b1 b2 c0 c1 c2,
    m = [[a0; a1; a2]; [b0; b1; b2]; [c0; c1; c2]].
Proof.
  unfold is_3x3. intro H. apply andb_prop in H. destruct H as [Hl Hr].
  destruct m as [|a [|b [|c [|]]]]; try discriminate.
  simpl in Hr. repeat (apply andb_prop in Hr; destruct Hr as [? Hr]).
  destruct a as [|a0 [|a1 [|a2 [|]]]]; try discriminate.
  destruct b as [|b0 [|b1 [|b2 [|]]]]; try discriminate.
  destruct c as [|c0 [|c1 [|c2 [|]]]]; try discriminate.
  repeat eexists.
Qed.

Lemma scaled_position_vec_mat (ic : mat) (p : vec) :
  is_3x3 ic = true -> List.length p = 3%nat ->
  scaled_position (Some ic) (of_vec p) = Ok (vec_mat p ic).
Proof.
  intros Hic Hp.
  destruct (is_3x3_inv _ Hic) as (a0 & a1 & a2 & b0 & b1 & b2 & c0 & c1 & c2 & ->).
  destruct p as [|x [|y [|z [|]]]]; try discriminate.
  unfold scaled_position, vec_mat, col, row, idx. simpl.
  vec_eq ltac:(ring).
Qed.

Lemma inv_example :
  inv [[1; 1; 0]; [2; -2; 0]; [0; 0; 2]]
  = Ok [[1 / 2; 1 / 4; 0]; [1 / 2; - (1 / 4); 0]; [0; 0; 1 / 2]].
Proof.
  unfold inv.
  assert (Hd : det3 [[1; 1; 0]; [2; -2; 0]; [0; 0; 2]] = -8).
  { unfold det3, row, idx. simpl. ring. }
  rewrite Hd.
  change (is_3x3 [[1; 1; 0]; [2; -2; 0]; [0; 0; 2]]) with true.
  cbn [negb]. rewrite Reqb_false by lra.
  unfold row, idx. simpl. vec_eq ltac:(field).
Qed.

(** C6: on a fully periodic model whose positions are numeric triples,
    [get_scaled_positions] gives for each atom the row vector [p] times the
    inverse cell; and for the cell [[1,1,0],[2,-2,0],[0,0,2]] and the
    position [[0.5,0.5,1]] the scaled position is [[0.5,0,0.5]]. *)
Theorem C6_scaled_positions :
  (forall (a : Atoms) (ic : mat) (ps : list vec),
      _inv_cell a = Some ic -> is_3x3 ic = true ->
      get_array "positions" a = Some (map of_vec ps) ->
      Forall (fun p => List.length p = 3%nat) ps ->
      get_scaled_positions a = Ok (map (fun p => vec_mat p ic) ps))
  /\
  (exists a,
      Atoms_new table_getElement table_getAtomic
                [JStr "C"] [of_vec [1 / 2; 1 / 2; 1]]
                (CellArr [RowArr [1; 1; 0]; RowArr [2; -2; 0]; RowArr [0; 0; 2]])
                None false false = Ok a
      /\ get_scaled_positions a = Ok [[1 / 2; 0; 1 / 2]]).
Proof.
  split.
  - intros a ic ps Hic H3 Hpos Hps. unfold get_scaled_positions.
    rewrite Hpos, Hic. cbn [of_option bind]. clear Hpos.
    induction Hps as [|p ps Hp _ IH]; [reflexivity |].
    cbn [map mapM]. rewrite scaled_position_vec_mat by assumption. cbn [bind].
    rewrite IH. reflexivity.
  - eexists. split.
    + eapply Atoms_new_ok.
      * reflexivity.
      * cbn. reflexivity.
      * cbn -[inv]. rewrite inv_example. reflexivity.
      * reflexivity.
    + unfold get_scaled_positions. unfold get_array. cbn [_arrays js_get].
      cbn. vec_eq ltac:(field).
Qed.

(** C6 at the model of the example: one carbon at [[0.5,0.5,1]] with the
    inverse of the cell [[1,1,0],[2,-2,0],[0,0,2]]. *)
Lemma C6_scaled_positions_witness :
  let ic := [[1 / 2; 1 / 4; 0]; [1 / 2; - (1 / 4); 0]; [0; 0; 1 / 2]] in
  let a := {| _arrays := [("symbols", [JStr "C"]); ("numbers", [JNum 6]);
                          ("positions", [of_vec [1 / 2; 1 / 2; 1]])];
              _N := 1;
              _pbc := [true; true; true];
              _inv_cell := Some ic;
              _cell := Some [Some [1; 1; 0]; Some [2; -2; 0]; Some [0; 0; 2]];
              info := [] |} in
  get_scaled_positions a = Ok [vec_mat [1 / 2; 1 / 2; 1] ic].
Proof.
  intros ic a.
  apply (proj1 C6_scaled_positions a ic [[1 / 2; 1 / 2; 1]]).
  - reflexivity.
  - reflexivity.
  - reflexivity.
  - repeat constructor.
Defined.

(** ** Reading a CIF *)

Lemma FOP_snoc {A : Type} (Rel : A -> A -> Prop) (l : list A) (p : A) :
  ForallOrdPairs Rel l -> Forall (fun q => Rel q p) l ->
  ForallOrdPairs Rel (l ++ [p]).
Proof.
  induction 1 as [|a l Ha _ IH]; intro Hp; simpl.
  - constructor; constructor.
  - inversion Hp as [|? ? Hap Hlp]; subst. constructor.
    + apply Forall_app. split; [exact Ha | constructor; [exact Hap | constructor]].
    + apply IH, Hlp.
Qed.

Lemma FOP_nth {A : Type} (Rel : A -> A -> Prop) (l : list A) :
  ForallOrdPairs Rel l ->
  forall i j a b, (i < j)%nat ->
    nth_error l i = Some a -> nth_error l j = Some b -> Rel a b.
Proof.
  induction 1 as [|x l Hx _ IH]; intros i j a b Hij Hi Hj.
  - destruct i; discriminate.
  - destruct j as [|j]; [lia |]. simpl in Hj. destruct i as [|i]; simpl in Hi.
    + injection Hi as <-. rewrite Forall_forall in Hx.
      apply Hx. eapply nth_error_In, Hj.
    + apply (IH i j); [lia | assumption | assumption].
Qed.

Section ReadCifProperties.

Variable getElement : jsval -> option element.
Variable getAtomic : R -> option element.
Variable parseSymOp : string -> symop.
Variable interpretHallSymbol : item -> option (list symop).
Variable mod1 : vec -> vec.
Variable shortestPeriodicLength : vec -> R.
Variable StringToNumber : string -> option R.

(** The distance the expansion compares with [symtol]: the shortest
    periodic length of the difference reduced modulo one. *)
Definition periodic_distance (p q : vec) : R :=
  shortestPeriodicLength (mod1 (vsub p q)).

Lemma is_duplicate_true (symtol : R) (p : vec) (allp : list vec) :
  is_duplicate mod1 shortestPeriodicLength symtol p allp = true <->
  exists q, In q allp /\ periodic_distance p q < symtol.
Proof.
  unfold is_duplicate. rewrite existsb_exists. split.
  - intros (q & Hq & Hlt). exists q. split; [exact Hq |]. apply Rltb_spec, Hlt.
  - intros (q & Hq & Hlt). exists q. split; [exact Hq |]. apply Rltb_spec, Hlt.
Qed.

Lemma is_duplicate_false (symtol : R) (p : vec) (allp : list vec) :
  is_duplicate mod1 shortestPeriodicLength symtol p allp = false <->
  forall q, In q allp -> ~ periodic_distance p q < symtol.
Proof.
  split.
  - intros H q Hq Hlt.
    assert (Ht : is_duplicate mod1 shortestPeriodicLength symtol p allp = true).
    { apply is_duplicate_true. exists q. auto. }
    congruence.
  - intro H.
    destruct (is_duplicate mod1 shortestPeriodicLength symtol p allp) eqn:E;
      [| reflexivity].
    apply is_duplicate_true in E. destruct E as (q & Hq & Hlt).
    exfalso. exact (H q Hq Hlt).
Qed.

(** Later positions of the kept list are not within [symtol] of earlier
    ones. *)
Definition separated (symtol : R) (allp : list vec) : Prop :=
  ForallOrdPairs (fun q p => ~ periodic_distance p q < symtol) allp.

Lemma expand_step_separated (symtol : R) (p0 : vec) (allp : list vec) (op : symop) :
  separated symtol allp ->
  separated symtol (expand_step mod1 shortestPeriodicLength symtol p0 allp op).
Proof.
  intro H. unfold expand_step.
  destruct (is_duplicate mod1 shortestPeriodicLength symtol (image mod1 p0 op) allp)
    eqn:E; [exact H |].
  apply FOP_snoc; [exact H |]. apply Forall_forall.
  apply is_duplicate_false, E.
Qed.

Lemma fold_expand_separated (symtol : R) (p0 : vec) (ops : list symop) :
  forall allp, separated symtol allp ->
    separated symtol
      (fold_left (expand_step mod1 shortestPeriodicLength symtol p0) ops allp).
Proof.
  induction ops as [|op ops IH]; intros allp H; simpl; [exact H |].
  apply IH, expand_step_separated, H.
Qed.

Lemma expand_fold (symtol : R) (ops : list symop) (symbols labels : list jsval) :
  forall (fpos pre : list vec) (acc : list vec * list jsval * list jsval),
    fst (fst (fold_left
      (fun acc i =>
         let '(allfpos, allsyms, alllabs) := acc in
         let allp := expand_site mod1 shortestPeriodicLength symtol ops
                       (nth i (pre ++ fpos) []) in
         (allfpos ++ allp,
          allsyms ++ repeat (nth i symbols JUndef) (List.length allp),
          alllabs ++ repeat (nth i labels JUndef) (List.length allp)))
      (seq (List.length pre) (List.length fpos)) acc))
    = fst (fst acc)
      ++ List.concat (map (expand_site mod1 shortestPeriodicLength symtol ops) fpos).
Proof.
  induction fpos as [|p fpos IH]; intros pre [[a s] l]; simpl.
  - rewrite app_nil_r. reflexivity.
  - replace (pre ++ p :: fpos) with ((pre ++ [p]) ++ fpos)
      by (rewrite <- app_assoc; reflexivity).
    replace (S (List.length pre)) with (List.length (pre ++ [p]))
      by (rewrite length_app; simpl; lia).
    rewrite IH. simpl.
    rewrite <- app_assoc. f_equal. f_equal.
    rewrite <- app_assoc. simpl. rewrite nth_middle. reflexivity.
Qed.

End ReadCifProperties.

Section BlockProperties.

Variable getElement : jsval -> option element.
Variable getAtomic : R -> option element.
Variable parseSymOp : string -> symop.
Variable interpretHallSymbol : item -> option (list symop).
Variable mod1 : vec -> vec.
Variable shortestPeriodicLength : vec -> R.
Variable StringToNumber : string -> option R.

(** The soft failure of [_cellpars]: on a block whose cell tags, where
    present, are single values, a missing cell tag or a length equal to zero
    gives [null]. *)
Definition length_tags : list string :=
  ["_cell_length_a"; "_cell_length_b"; "_cell_length_c"].

Lemma cellpars_soft_fail (cb : cblock) :
  (forall t x, In t cell_tags -> js_get t cb = Some x -> exists v, x = Single v) ->
  (exists t, In t cell_tags /\ js_get t cb = None)
  \/ (exists t v, In t length_tags /\ js_get t cb = Some (Single v)
                  /\ get_value v = JNum 0) ->
  _cellpars StringToNumber cb = Ok None.
Proof.
  intros Hsingle H. unfold _cellpars, cell_tags. cbn [cell_values].
  repeat match goal with
         | |- context [js_get ?t cb] =>
             let E := fresh "E" in
             destruct (js_get t cb) as [[? | ?] |] eqn:E;
             [ | exfalso;
                 destruct (Hsingle t _ ltac:(unfold cell_tags; simpl; tauto) E);
                 discriminate
               | reflexivity ]
         end.
  cbn [app bind firstn skipn fst existsb].
  destruct H as [(t & Hin & Hnone) | (t & v' & Hin & Hsome & Hzero)].
  - exfalso. unfold cell_tags in Hin. simpl in Hin.
    repeat (destruct Hin as [<- | Hin]; [congruence |]). exact Hin.
  - assert (Hz : loose_eq_zero StringToNumber (get_value v') = true).
    { rewrite Hzero. simpl. apply Reqb_true. reflexivity. }
    unfold length_tags in Hin. simpl in Hin.
    destruct Hin as [<- | [<- | [<- | []]]];
      match goal with
      | E : js_get _ cb = Some (Single ?w) |- _ =>
          rewrite E in Hsome; injection Hsome as <-
      end; rewrite Hz; rewrite ?orb_true_r; reflexivity.
Qed.

(** [readCif] looks at the cell parameters of a block only through the
    answer of [_cellpars]: when that is [null] and no earlier block has left
    a cell behind, the structure is built without a cell. *)
Lemma process_block_first_aperiodic (symtol : R) (cb : cblock) (a : Atoms)
    (cell' : option mat) :
  _cellpars StringToNumber cb = Ok None ->
  process_block getElement getAtomic parseSymOp interpretHallSymbol
                mod1 shortestPeriodicLength StringToNumber symtol None cb
  = Ok (cell', a) ->
  cell' = None /\ _pbc a = [false; false; false] /\ _cell a = None
  /\ _inv_cell a = None.
Proof.
  intros Hcp. unfold process_block. rewrite Hcp.
  destruct (_atom_types cb); [| discriminate]. cbn [bind].
  destruct (_atom_sites cb) as [[asites |] |]; try discriminate.
  cbn [bind is_some of_option cellarg_of].
  destruct (mapM _ asites) as [positions |]; [| discriminate].
  cbn [bind]. unfold Atoms_new.
  destruct (mapM _ (map _ asites)) as [els |]; [| discriminate].
  cbn [bind resolve_cell resolve_inv_cell].
  destruct (check_rows _ positions) as [[|] |]; try discriminate.
  cbn [bind negb]. unfold set_array. cbn [_N js_set].
  destruct (negb _); [discriminate |]. cbn [bind _N].
  destruct (negb _); [discriminate |].
  intro H. injection H as <- <-. auto.
Qed.






End BlockProperties.


(** ** Two documents *)

Definition num_value (t : string) (x : R) : CifValue :=
  {| text := t; get_value := JNum x |}.

Definition str_value (t : string) : CifValue :=
  {| text := t; get_value := JStr t |}.

(** A cubic block: unit cell of side 1, one carbon at the origin in
    fractional coordinates. *)
Definition block_cubic : cblock :=
  [ ("_cell_length_a", Single (num_value "1" 1));
    ("_cell_length_b", Single (num_value "1" 1));
    ("_cell_length_c", Single (num_value "1" 1));
    ("_cell_angle_alpha", Single (num_value "90" 90));
    ("_cell_angle_beta", Single (num_value "90" 90));
    ("_cell_angle_gamma", Single (num_value "90" 90));
    ("_atom_site_label", Loop [str_value "C1"]);
    ("_atom_site_type_symbol", Loop [str_value "C"]);
    ("_atom_site_fract_x", Loop [num_value "0" 0]);
    ("_atom_site_fract_y", Loop [num_value "0" 0]);
    ("_atom_site_fract_z", Loop [num_value "0" 0]) ].

(** A molecule: no cell, one hydrogen at the origin in Cartesian
    coordinates. *)
Definition block_molecule : cblock :=
  [ ("_atom_site_label", Loop [str_value "H1"]);
    ("_atom_site_type_symbol", Loop [str_value "H"]);
    ("_atom_site_Cartn_x", Loop [num_value "0" 0]);
    ("_atom_site_Cartn_y", Loop [num_value "0" 0]);
    ("_atom_site_Cartn_z", Loop [num_value "0" 0]) ].

(** The same molecule in a block whose cell has a zero length. *)
Definition block_zero_length : cblock :=
  [ ("_cell_length_a", Single (num_value "0" 0));
    ("_cell_length_b", Single (num_value "1" 1));
    ("_cell_length_c", Single (num_value "1" 1));
    ("_cell_angle_alpha", Single (num_value "90" 90));
    ("_cell_angle_beta", Single (num_value "90" 90));
    ("_cell_angle_gamma", Single (num_value "90" 90)) ]
  ++ block_molecule.

Definition doc_cubic_molecule : cifdict :=
  [("A", block_cubic); ("B", block_molecule)].

Definition doc_molecule : cifdict := [("B", block_molecule)].

Definition doc_cubic_zero_length : cifdict :=
  [("A", block_cubic); ("Z", block_zero_length)].

Definition doc_zero_length : cifdict := [("Z", block_zero_length)].

Lemma cellparToCell_cubic :
  cellparToCell ([1; 1; 1], [90; 90; 90]) None None false = I3.
Proof.
  rewrite cellparToCell_canonical by exact unrounded_90.
  unfold canonical_cell. cbv zeta. rewrite degToRad_90, cos_PI2, sin_PI2.
  replace (1 * 1 - 1 * 0 * (1 * 0) - 1 * (0 - 0 * 0) / 1 * (1 * (0 - 0 * 0) / 1))
    with 1 by field.
  rewrite sqrt_1. unfold I3. vec_eq ltac:(field).
Qed.

Lemma inv_I3 : inv I3 = Ok I3.
Proof.
  unfold inv, I3.
  assert (Hd : det3 [[1; 0; 0]; [0; 1; 0]; [0; 0; 1]] = 1).
  { unfold det3, row, idx. simpl. ring. }
  rewrite Hd.
  change (is_3x3 [[1; 0; 0]; [0; 1; 0]; [0; 0; 1]]) with true.
  cbn [negb]. rewrite Reqb_false by lra.
  unfold row, idx. simpl. vec_eq ltac:(field).
Qed.

Lemma resolve_cell_I3 :
  resolve_cell (cellarg_of (Some I3)) = Ok (Some (map Some I3), [true; true; true]).
Proof. reflexivity. Qed.

Lemma resolve_inv_cell_I3 :
  resolve_inv_cell (cellarg_of (Some I3)) (Some (map Some I3)) = Ok (Some I3).
Proof.
  unfold resolve_inv_cell.
  change (falsy_cell (cellarg_of (Some I3))) with false.
  change (full_rows (map Some I3)) with (Some I3).
  cbv iota. rewrite inv_I3. reflexivity.
Qed.

Section Documents.

Variable parseSymOp : string -> symop.
Variable interpretHallSymbol : item -> option (list symop).
Variable mod1 : vec -> vec.
Variable shortestPeriodicLength : vec -> R.
Variable StringToNumber : string -> option R.

Lemma cellpars_cubic :
  _cellpars StringToNumber block_cubic
  = Ok (Some ([JNum 1; JNum 1; JNum 1], [JNum 90; JNum 90; JNum 90])).
Proof.
  unfold _cellpars. cbn -[loose_eq_zero]. unfold loose_eq_zero.
  rewrite !Reqb_false by lra. reflexivity.
Qed.

Lemma cellpars_zero_length :
  _cellpars StringToNumber block_zero_length = Ok None.
Proof.
  unfold _cellpars. cbn -[loose_eq_zero]. unfold loose_eq_zero.
  rewrite Reqb_true by reflexivity. reflexivity.
Qed.

Lemma cellpars_molecule :
  _cellpars StringToNumber block_molecule = Ok None.
Proof. reflexivity. Qed.

(** The cubic block, read first. *)
Lemma process_block_cubic (symtol : R) :
  exists a,
    process_block table_getElement table_getAtomic parseSymOp interpretHallSymbol
      mod1 shortestPeriodicLength StringToNumber symtol None block_cubic
    = Ok (Some I3, a).
Proof.
  unfold process_block.
  change (_atom_types block_cubic) with (@Ok (option (list (string * site))) None).
  cbn [bind]. rewrite cellpars_cubic. cbn [bind is_some fst snd mapM to_number].
  rewrite cellparToCell_cubic.
  cbn -[Atoms_new vec_mat I3 set_array cellarg_of].
  erewrite Atoms_new_ok;
    [| reflexivity | exact resolve_cell_I3 | exact resolve_inv_cell_I3 | reflexivity].
  cbn [bind]. eexists. reflexivity.
Qed.

(** The structure read from the molecule, given what the constructor made
    of the [cell] variable. *)
Definition molecule_atoms (c : option (list (option vec))) (pbc : list bool)
    (ic : option mat) : Atoms :=
  {| _arrays := [("symbols", [JStr "H"]); ("numbers", [JNum 1]);
                 ("positions", [JArr [JNum 0; JNum 0; JNum 0]]);
                 ("labels", [JStr "H1"])];
     _N := 1;
     _pbc := pbc;
     _inv_cell := ic;
     _cell := c;
     info := [] |}.

Definition molecule_sites : list site :=
  [[("label", JStr "H1"); ("type_symbol", JStr "H");
    ("Cartn_x", JNum 0); ("Cartn_y", JNum 0); ("Cartn_z", JNum 0)]].

(** A block without cell parameters whose sites are those of the molecule:
    the structure is built with whatever [cell] holds when the turn
    starts. *)
Lemma process_block_no_cellpars (symtol : R) (cb : cblock) (cell0 : option mat)
    c pbc ic :
  _atom_types cb = Ok None ->
  _atom_sites cb = Ok (Some molecule_sites) ->
  _cellpars StringToNumber cb = Ok None ->
  resolve_cell (cellarg_of cell0) = Ok (c, pbc) ->
  resolve_inv_cell (cellarg_of cell0) c = Ok ic ->
  process_block table_getElement table_getAtomic parseSymOp interpretHallSymbol
    mod1 shortestPeriodicLength StringToNumber symtol cell0 cb
  = Ok (cell0, molecule_atoms c pbc ic).
Proof.
  intros Hat Has Hcp Hc Hic. unfold process_block.
  rewrite Hat, Has, Hcp.
  cbn -[Atoms_new set_array cellarg_of].
  erewrite Atoms_new_ok; [| reflexivity | exact Hc | exact Hic | reflexivity].
  reflexivity.
Qed.

(** C2 fails on the code: the molecule block [B] has no cell.  Read alone it
    gives an aperiodic structure; read after the cubic block [A] it gives a
    periodic structure carrying the cell of [A], because the variable [cell]
    of [readCif] keeps its value from one block to the next. *)
Theorem C2_stale_cell :
  exists aA,
    readCif_parsed table_getElement table_getAtomic parseSymOp
      interpretHallSymbol mod1 shortestPeriodicLength StringToNumber
      doc_cubic_molecule None
    = Ok [("A", aA);
          ("B", molecule_atoms (Some (map Some I3)) [true; true; true] (Some I3))]
    /\
    readCif_parsed table_getElement table_getAtomic parseSymOp
      interpretHallSymbol mod1 shortestPeriodicLength StringToNumber
      doc_molecule None
    = Ok [("B", molecule_atoms None [false; false; false] None)]
    /\
    get_pbc (molecule_atoms (Some (map Some I3)) [true; true; true] (Some I3))
    <> get_pbc (molecule_atoms None [false; false; false] None).
Proof.
  destruct (process_block_cubic 1e-3) as [aA HA]. exists aA.
  split; [| split].
  - unfold readCif_parsed.
    change (map fst (select_blocks doc_cubic_molecule)) with ["A"; "B"].
    unfold process_blocks.
    change (js_get "A" doc_cubic_molecule) with (Some block_cubic).
    change (js_get "B" doc_cubic_molecule) with (Some block_molecule).
    cbn [of_option bind]. rewrite HA. cbn [bind].
    rewrite (@process_block_no_cellpars _ block_molecule (Some I3)
               (Some (map Some I3)) [true; true; true] (Some I3));
      [reflexivity | reflexivity | reflexivity | reflexivity
       | exact resolve_cell_I3 | exact resolve_inv_cell_I3].
  - unfold readCif_parsed.
    change (map fst (select_blocks doc_molecule)) with ["B"].
    unfold process_blocks.
    change (js_get "B" doc_molecule) with (Some block_molecule).
    cbn [of_option bind].
    rewrite (@process_block_no_cellpars _ block_molecule None
               None [false; false; false] None);
      reflexivity.
  - discriminate.
Qed.

(** C8 fails on the code in a document of several blocks: the block [Z] has
    a cell length equal to zero, [_cellpars] answers [null] for it, and yet,
    read after the cubic block [A], it gives a periodic structure carrying the
    cell of [A] (the same leak of the variable [cell] as in C2); read alone
    it gives the aperiodic structure. *)
Theorem C8_zero_length_after_periodic :
  _cellpars StringToNumber block_zero_length = Ok None
  /\
  (exists aA,
     readCif_parsed table_getElement table_getAtomic parseSymOp
       interpretHallSymbol mod1 shortestPeriodicLength StringToNumber
       doc_cubic_zero_length None
     = Ok [("A", aA);
           ("Z", molecule_atoms (Some (map Some I3)) [true; true; true] (Some I3))])
  /\
  readCif_parsed table_getElement table_getAtomic parseSymOp
    interpretHallSymbol mod1 shortestPeriodicLength StringToNumber
    doc_zero_length None
  = Ok [("Z", molecule_atoms None [false; false; false] None)].
Proof.
  split; [exact cellpars_zero_length |]. split.
  - destruct (process_block_cubic 1e-3) as [aA HA]. exists aA.
    unfold readCif_parsed.
    change (map fst (select_blocks doc_cubic_zero_length)) with ["A"; "Z"].
    unfold process_blocks.
    change (js_get "A" doc_cubic_zero_length) with (Some block_cubic).
    change (js_get "Z" doc_cubic_zero_length) with (Some block_zero_length).
    cbn [of_option bind]. rewrite HA. cbn [bind].
    rewrite (@process_block_no_cellpars _ block_zero_length (Some I3)
               (Some (map Some I3)) [true; true; true] (Some I3));
      [reflexivity | reflexivity | reflexivity | exact cellpars_zero_length
       | exact resolve_cell_I3 | exact resolve_inv_cell_I3].
  - unfold readCif_parsed.
    change (map fst (select_blocks doc_zero_length)) with ["Z"].
    unfold process_blocks.
    change (js_get "Z" doc_zero_length) with (Some block_zero_length).
    cbn [of_option bind].
    rewrite (@process_block_no_cellpars _ block_zero_length None
               None [false; false; false] None);
      [reflexivity | reflexivity | reflexivity | exact cellpars_zero_length
       | reflexivity | reflexivity].
Qed.

End Documents.

(* ================================================================== *)
(** * The store: arrays as shared, mutable objects

    The prototype of [Atoms] once more, [cryst.js] 230-276, over a store in
    which an array is a location and two references to one array see each
    other's writes.  This is the layer in which "returns a copy" and
    "returns a reference to internal storage" differ. *)

Module Store.

Definition loc : Type := nat.

(** A value as a variable or an array slot holds it: a primitive or a
    reference to an array. *)
Inductive hval : Type :=
| HUndef
| HNull
| HBool (b : bool)
| HNum (x : R)
| HStr (s : string)
| HRef (l : loc).

(** The store: the arrays, by location; a new array takes the next
    location. *)
Definition heap : Type := list (list hval).

(** Building the arrays of a value in the store, innermost first. *)
Fixpoint alloc (v : jsval) (h : heap) {struct v} : heap * hval :=
  match v with
  | JUndef => (h, HUndef)
  | JNull => (h, HNull)
  | JBool b => (h, HBool b)
  | JNum x => (h, HNum x)
  | JStr s => (h, HStr s)
  | JArr l =>
      let '(h', vs) :=
        (fix alloc_list (l : list jsval) (h : heap) {struct l}
           : heap * list hval :=
           match l with
           | [] => (h, [])
           | x :: r =>
               let '(h1, hx) := alloc x h in
               let '(h2, hr) := alloc_list r h1 in
               (h2, hx :: hr)
           end) l h in
      (h' ++ [vs], HRef (List.length h'))
  end.

Fixpoint alloc_list (l : list jsval) (h : heap) {struct l} : heap * list hval :=
  match l with
  | [] => (h, [])
  | x :: r =>
      let '(h1, hx) := alloc x h in
      let '(h2, hr) := alloc_list r h1 in
      (h2, hx :: hr)
  end.

(** The value a reference stands for, followed [n] arrays deep. *)
Fixpoint read (n : nat) (h : heap) (v : hval) : jsval :=
  match v with
  | HUndef => JUndef
  | HNull => JNull
  | HBool b => JBool b
  | HNum x => JNum x
  | HStr s => JStr s
  | HRef l =>
      match n with
      | O => JUndef
      | S n' =>
          match nth_error h l with
          | Some arr => JArr (map (read n' h) arr)
          | None => JUndef
          end
      end
  end.

(** The whole of [v] is found within [n] arrays of depth, with no dangling
    reference. *)
Fixpoint ok (n : nat) (h : heap) (v : hval) : bool :=
  match v with
  | HRef l =>
      match n with
      | O => false
      | S n' =>
          match nth_error h l with
          | Some arr => forallb (ok n' h) arr
          | None => false
          end
      end
  | _ => true
  end.

(** The locations reachable from a value. *)
Inductive reach (h : heap) : hval -> loc -> Prop :=
| reach_here (l : loc) : reach h (HRef l) l
| reach_step (l : loc) (arr : list hval) (x : hval) (l' : loc) :
    nth_error h l = Some arr -> In x arr -> reach h x l' ->
    reach h (HRef l) l'.

(** Modelled from the spec: [utils.deepClone] of the module [utils.js],
    "an independent copy": the value is read through the store and built
    anew in fresh arrays. *)
Definition deepClone (h : heap) (v : hval) : heap * hval :=
  alloc (read (List.length h) h v) h.

(** Any in-place change of the array at [l] (a write to a slot, [push],
    [pop], [splice], [sort], ...) replaces its contents. *)
Definition mutate (l : loc) (arr : list hval) (h : heap) : heap := upd l arr h.

Definition mutations (ms : list (loc * list hval)) (h : heap) : heap :=
  fold_left (fun h m => mutate (fst m) (snd m) h) ms h.

(** The fields of a structure of the value layer. *)
Definition arrays_of (a : Atoms) : list (string * list jsval) := _arrays a.
Definition N_of (a : Atoms) : nat := _N a.
Definition pbc_of (a : Atoms) : list bool := _pbc a.
Definition inv_cell_of (a : Atoms) : option mat := _inv_cell a.
Definition cell_of (a : Atoms) : option (list (option vec)) := _cell a.

(** The getters of the value layer. *)
Definition value_cell (a : Atoms) := get_cell a.
Definition value_inv_cell (a : Atoms) := get_inv_cell a.
Definition value_pbc (a : Atoms) := get_pbc a.
Definition value_positions (a : Atoms) := get_positions a.
Definition value_symbols (a : Atoms) := get_chemical_symbols a.
Definition value_numbers (a : Atoms) := get_atomic_numbers a.

(** The [Atoms] object: its fields hold references. *)
Record object : Type := {
  _arrays : list (string * hval);
  _N : nat;
  _pbc : hval;
  _inv_cell : hval;
  _cell : hval
}.

(** Lines 241-243: [get_array] hands out what [_arrays] holds. *)
Definition get_array (name : string) (a : object) (h : heap) : heap * hval :=
  (h, match js_get name (_arrays a) with Some v => v | None => HUndef end).

(** Lines 244-261. *)
Definition get_chemical_symbols (a : object) (h : heap) : heap * hval :=
  deepClone h (snd (get_array "symbols" a h)).
Definition get_atomic_numbers (a : object) (h : heap) : heap * hval :=
  deepClone h (snd (get_array "numbers" a h)).
Definition get_cell (a : object) (h : heap) : heap * hval :=
  deepClone h (_cell a).
Definition get_inv_cell (a : object) (h : heap) : heap * hval :=
  deepClone h (_inv_cell a).
Definition get_pbc (a : object) (h : heap) : heap * hval :=
  deepClone h (_pbc a).
Definition get_positions (a : object) (h : heap) : heap * hval :=
  deepClone h (snd (get_array "positions" a h)).

Definition mat_of_js (v : jsval) : option mat :=
  match v with
  | JArr rows => match mapM to_vec rows with Ok m => Some m | Err _ => None end
  | _ => None
  end.

(** Lines 262-275: the positions and the inverse cell are read through the
    store, the result is a new array of new rows. *)
Definition get_scaled_positions (a : object) (h : heap) : result (heap * hval) :=
  let pos := read (List.length h) h (snd (get_array "positions" a h)) in
  let ic := read (List.length h) h (_inv_cell a) in
  match pos with
  | JArr ps =>
      spos <- mapM (scaled_position (mat_of_js ic)) ps ;;
      Ok (alloc (JArr (map of_vec spos)) h)
  | _ => Err TypeError
  end.

(** The queries of the prototype. *)
Inductive query : Type :=
| QLength
| QArray (name : string)
| QSymbols | QNumbers | QCell | QInvCell | QPbc | QPositions
| QScaled.

Definition run (q : query) (a : object) (h : heap) : result (heap * hval) :=
  match q with
  | QLength => Ok (h, HNum (INR (_N a)))
  | QArray name => Ok (get_array name a h)
  | QSymbols => Ok (get_chemical_symbols a h)
  | QNumbers => Ok (get_atomic_numbers a h)
  | QCell => Ok (get_cell a h)
  | QInvCell => Ok (get_inv_cell a h)
  | QPbc => Ok (get_pbc a h)
  | QPositions => Ok (get_positions a h)
  | QScaled => get_scaled_positions a h
  end.

(** What the caller sees of the answer to a query. *)
Definition observe (q : query) (a : object) (h : heap) : result jsval :=
  '(h', v) <- run q a h ;; Ok (read (List.length h') h' v).

(** The six accessors that go through [deepClone]. *)
Inductive getter : Type :=
| GSymbols | GNumbers | GCell | GInvCell | GPbc | GPositions.

Definition getter_query (g : getter) : query :=
  match g with
  | GSymbols => QSymbols
  | GNumbers => QNumbers
  | GCell => QCell
  | GInvCell => QInvCell
  | GPbc => QPbc
  | GPositions => QPositions
  end.

(** The object in the store after construction: every array of the
    structure [a] has its location. *)
Definition js_of_cell (c : option (list (option vec))) : jsval :=
  match c with
  | None => JNull
  | Some rows =>
      JArr (map (fun r => match r with Some v => of_vec v | None => JNull end) rows)
  end.

Definition js_of_inv_cell (ic : option mat) : jsval :=
  match ic with
  | None => JNull
  | Some m => JArr (map of_vec m)
  end.

Fixpoint store_arrays (arrs : list (string * list jsval)) (h : heap)
  : heap * list (string * hval) :=
  match arrs with
  | [] => (h, [])
  | (name, arr) :: r =>
      let '(h1, v) := alloc (JArr arr) h in
      let '(h2, vs) := store_arrays r h1 in
      (h2, (name, v) :: vs)
  end.

Definition store_atoms (a : Atoms) (h : heap) : heap * object :=
  let '(h1, arrs) := store_arrays (arrays_of a) h in
  let '(h2, pbc) := alloc (JArr (map JBool (pbc_of a))) h1 in
  let '(h3, ic) := alloc (js_of_inv_cell (inv_cell_of a)) h2 in
  let '(h4, c) := alloc (js_of_cell (cell_of a)) h3 in
  (h4, {| _arrays := arrs; _N := N_of a; _pbc := pbc;
          _inv_cell := ic; _cell := c |}).

(** Nothing dangles from the object and its arrays nest finitely. *)
Definition wf (a : object) (h : heap) : Prop :=
  Forall (fun nv => ok (List.length h) h (snd nv) = true) (_arrays a)
  /\ ok (List.length h) h (_cell a) = true
  /\ ok (List.length h) h (_inv_cell a) = true
  /\ ok (List.length h) h (_pbc a) = true.

(** The number of arrays of a value. *)
Fixpoint size (v : jsval) : nat :=
  match v with
  | JArr l => S (list_sum (map size l))
  | _ => O
  end.

(** What a getter copies. *)
Definition source (g : getter) (a : object) : hval :=
  match g with
  | GSymbols => match js_get "symbols" (_arrays a) with Some v => v | None => HUndef end
  | GNumbers => match js_get "numbers" (_arrays a) with Some v => v | None => HUndef end
  | GPositions => match js_get "positions" (_arrays a) with Some v => v | None => HUndef end
  | GCell => _cell a
  | GInvCell => _inv_cell a
  | GPbc => _pbc a
  end.

(** An accessor returns an independent copy when no change made to an
    array reachable from what it returned shows in a later query. *)
Definition returns_copy (acc : object -> heap -> heap * hval) : Prop :=
  forall (a : object) (h : heap), wf a h ->
  forall (l : loc) (arr : list hval),
    reach (fst (acc a h)) (snd (acc a h)) l ->
    forall q : query,
      observe q a (mutate l arr (fst (acc a h))) = observe q a h.

Local Open Scope nat_scope.

Lemma jsval_ind' (P : jsval -> Prop) :
  P JUndef -> P JNull -> (forall b, P (JBool b)) -> (forall x, P (JNum x)) ->
  (forall s, P (JStr s)) -> (forall l, Forall P l -> P (JArr l)) ->
  forall v, P v.
Proof.
  intros HU HN HB HX HS HA. fix IH 1.
  intros [ | | b | x | s | l];
    [exact HU | exact HN | apply HB | apply HX | apply HS |].
  apply HA. induction l as [|y l IHl]; constructor; [apply IH | exact IHl].
Qed.

Lemma alloc_JArr (l : list jsval) (h : heap) :
  alloc (JArr l) h
  = (fst (alloc_list l h) ++ [snd (alloc_list l h)],
     HRef (List.length (fst (alloc_list l h)))).
Proof.
  change (alloc (JArr l) h)
    with (let '(h', vs) := alloc_list l h in (h' ++ [vs], HRef (List.length h'))).
  destruct (alloc_list l h). reflexivity.
Qed.

Lemma reach_prim_inv (h : heap) (v : hval) (l : loc) :
  reach h v l -> exists l0, v = HRef l0.
Proof. intro H. destruct H; eexists; reflexivity. Qed.

Lemma ok_closed (n : nat) (h : heap) :
  forall v, ok n h v = true -> forall l, reach h v l -> l < List.length h.
Proof.
  induction n as [|n IH]; intros v Hok l Hr.
  - destruct Hr; discriminate.
  - destruct Hr as [l | l arr x l' Hn Hx Hr]; simpl in Hok.
    + destruct (nth_error h l) eqn:E; [| discriminate].
      apply nth_error_Some. congruence.
    + rewrite Hn in Hok. rewrite forallb_forall in Hok.
      apply (IH x); auto.
Qed.

Lemma ok_read (n : nat) (h : heap) :
  forall v, ok n h v = true -> forall m, n <= m -> read m h v = read n h v.
Proof.
  induction n as [|n IH]; intros v Hok m Hm.
  - destruct v; simpl in Hok; try discriminate; destruct m; reflexivity.
  - destruct v; try (destruct m; reflexivity).
    destruct m; [lia |]. simpl in *.
    destruct (nth_error h l); [| discriminate].
    f_equal. apply map_ext_in. intros x Hx. apply IH; [| lia].
    rewrite forallb_forall in Hok. auto.
Qed.

(** Two stores that agree below [k]. *)
Definition agree (k : nat) (h h' : heap) : Prop :=
  forall l, l < k -> nth_error h' l = nth_error h l.

Lemma read_agree (k : nat) (h h' : heap) :
  agree k h h' ->
  forall n v, (forall l, reach h v l -> l < k) -> read n h' v = read n h v.
Proof.
  intros Hag. induction n as [|n IH]; intros v Hc; destruct v;
    simpl; try reflexivity.
  rewrite Hag by (apply Hc; constructor).
  destruct (nth_error h l) as [arr|] eqn:E; [| reflexivity].
  f_equal. apply map_ext_in. intros x Hx. apply IH.
  intros l' Hr. apply Hc. econstructor; eauto.
Qed.

Lemma reach_agree (k : nat) (h h' : heap) :
  agree k h h' ->
  forall v l, reach h' v l -> (forall l0, reach h v l0 -> l0 < k) -> reach h v l.
Proof.
  intros Hag v l Hr. induction Hr as [l | l arr x l' Hn Hx Hr IH]; intro Hc.
  - constructor.
  - assert (Hl : l < k) by (apply Hc; constructor).
    rewrite (Hag _ Hl) in Hn.
    econstructor; eauto. apply IH. intros l0 H0. apply Hc. econstructor; eauto.
Qed.

Lemma agree_app (h ext : heap) : agree (List.length h) h (h ++ ext).
Proof. intros l Hl. apply nth_error_app1, Hl. Qed.

Lemma agree_trans (k : nat) (h1 h2 h3 : heap) :
  agree k h1 h2 -> agree k h2 h3 -> agree k h1 h3.
Proof. intros H12 H23 l Hl. rewrite (H23 _ Hl). apply H12, Hl. Qed.

Lemma agree_le (k k' : nat) (h h' : heap) :
  k' <= k -> agree k h h' -> agree k' h h'.
Proof. intros Hk H l Hl. apply H. lia. Qed.

Lemma length_upd {A : Type} (i : nat) (x : A) (l : list A) :
  List.length (upd i x l) = List.length l.
Proof.
  revert i. induction l as [|a l IH]; intros [|i]; simpl; auto.
Qed.

Lemma nth_error_upd_other {A : Type} (i j : nat) (x : A) (l : list A) :
  i <> j -> nth_error (upd i x l) j = nth_error l j.
Proof.
  revert i j. induction l as [|a l IH]; intros [|i] [|j] Hij; simpl;
    try reflexivity; try lia.
  apply IH. lia.
Qed.

Lemma mutate_agree (k l : nat) (arr : list hval) (h : heap) :
  k <= l -> agree k h (mutate l arr h).
Proof.
  intros Hk l' Hl'. unfold mutate. apply nth_error_upd_other. lia.
Qed.

Lemma mutations_agree (k : nat) (ms : list (loc * list hval)) :
  Forall (fun m => k <= fst m) ms ->
  forall h, List.length (mutations ms h) = List.length h
            /\ agree k h (mutations ms h).
Proof.
  induction 1 as [|m ms Hm _ IH]; intro h.
  - split; [reflexivity | intros l _; reflexivity].
  - change (mutations (m :: ms) h)
      with (mutations ms (mutate (fst m) (snd m) h)).
    destruct (IH (mutate (fst m) (snd m) h)) as [Hlen Hag]. split.
    + rewrite Hlen. apply length_upd.
    + eapply agree_trans; [apply mutate_agree, Hm | exact Hag].
Qed.

(** Every location reachable from [v] lies in [[lo, hi)]. *)
Definition within (lo hi : nat) (h : heap) (v : hval) : Prop :=
  forall l, reach h v l -> lo <= l < hi.

Lemma size_le_sum (x : jsval) (l : list jsval) :
  In x l -> size x <= list_sum (map size l).
Proof.
  induction l as [|y l IH]; intro H; [contradiction |].
  simpl. destruct H as [-> | H]; [lia | specialize (IH H); lia].
Qed.

Lemma ok_mono (n : nat) (h : heap) :
  forall v m, ok n h v = true -> n <= m -> ok m h v = true.
Proof.
  induction n as [|n IH]; intros v m Hok Hm.
  - destruct v; simpl in Hok; try discriminate; destruct m; reflexivity.
  - destruct v; try (destruct m; reflexivity).
    destruct m; [lia |]. simpl in *.
    destruct (nth_error h l); [| discriminate].
    rewrite forallb_forall in *. intros x Hx. apply IH; [auto | lia].
Qed.

Lemma ok_agree (h h' : heap) :
  agree (List.length h) h h' ->
  forall n v, ok n h v = true -> ok n h' v = true.
Proof.
  intros Hag. induction n as [|n IH]; intros v Hok; destruct v;
    simpl in *; try reflexivity; try discriminate.
  destruct (nth_error h l) as [arr|] eqn:E; [| discriminate].
  rewrite Hag by (apply nth_error_Some; congruence). rewrite E.
  rewrite forallb_forall in *. intros x Hx. apply IH. auto.
Qed.

Definition alloc_ok (j : jsval) : Prop :=
  forall h, exists ext v,
    alloc j h = (h ++ ext, v)
    /\ List.length ext = size j
    /\ within (List.length h) (List.length h + size j) (h ++ ext) v
    /\ (forall n, size j <= n -> read n (h ++ ext) v = j)
    /\ ok (size j) (h ++ ext) v = true.

Lemma alloc_list_ok (l : list jsval) :
  Forall alloc_ok l ->
  forall h, exists ext vs,
    alloc_list l h = (h ++ ext, vs)
    /\ List.length ext = list_sum (map size l)
    /\ Forall (within (List.length h) (List.length h + List.length ext) (h ++ ext)) vs
    /\ (forall n, list_sum (map size l) <= n -> map (read n (h ++ ext)) vs = l)
    /\ Forall (fun v => ok (list_sum (map size l)) (h ++ ext) v = true) vs.
Proof.
  induction 1 as [|x r Hx _ IH]; intro h.
  - exists [], []. simpl. rewrite app_nil_r. repeat split; auto.
  - destruct (Hx h) as (e1 & hx & Ex & Lx & Wx & Rx & Ox).
    destruct (IH (h ++ e1)) as (e2 & hr & Er & Lr & Wr & Rr & Or).
    exists (e1 ++ e2), (hx :: hr). simpl. rewrite Ex, Er.
    rewrite <- app_assoc.
    assert (Hcl : forall l0, reach (h ++ e1) hx l0 -> l0 < List.length (h ++ e1)).
    { intros l0 H0. rewrite length_app, Lx. apply Wx, H0. }
    split; [reflexivity |]. split; [| split; [| split]].
    + rewrite length_app. lia.
    + constructor.
      * intros l0 H0. rewrite app_assoc in H0.
        apply (reach_agree (agree_app (h ++ e1) e2)) in H0; [| exact Hcl].
        apply Wx in H0. rewrite length_app. lia.
      * rewrite app_assoc. eapply Forall_impl; [| exact Wr].
        intros v Hv l0 H0. apply Hv in H0.
        rewrite !length_app in *. lia.
    + intros n Hn. rewrite app_assoc. f_equal.
      * rewrite (read_agree (agree_app (h ++ e1) e2)) by exact Hcl.
        apply Rx. lia.
      * apply Rr. lia.
    + rewrite app_assoc. constructor.
      * apply (ok_agree (agree_app (h ++ e1) e2)).
        eapply ok_mono; [exact Ox | lia].
      * eapply Forall_impl; [| exact Or].
        intros v Hv. eapply ok_mono; [exact Hv | lia].
Qed.

Lemma alloc_spec : forall j, alloc_ok j.
Proof.
  apply jsval_ind'.
  1-5: intros; eexists [], _; simpl; rewrite app_nil_r;
       repeat split; auto;
       try (match goal with
            | H : reach _ _ _ |- _ =>
                apply reach_prim_inv in H; destruct H; discriminate
            end);
       try (intros n _; destruct n; reflexivity).
  intros l IH h.
  destruct (alloc_list_ok IH h) as (ext & vs & E & L & W & Rd & Ov).
  exists (ext ++ [vs]), (HRef (List.length (h ++ ext))).
  rewrite alloc_JArr, E. cbn [fst snd]. rewrite <- app_assoc.
  assert (Hnth : nth_error (h ++ ext ++ [vs]) (List.length (h ++ ext)) = Some vs).
  { rewrite app_assoc. rewrite nth_error_app2 by lia.
    rewrite Nat.sub_diag. reflexivity. }
  assert (Hcl : forall x, In x vs ->
            forall l0, reach (h ++ ext) x l0 -> l0 < List.length (h ++ ext)).
  { intros x Hx l0 H0. rewrite Forall_forall in W.
    apply (W x Hx) in H0. rewrite length_app. lia. }
  split; [reflexivity |]. split; [| split; [| split]].
  - rewrite length_app. simpl. lia.
  - intros l0 H. simpl.
    inversion H as [l1 | l1 arr x l' Hn Hx Hr]; subst.
    + rewrite length_app. lia.
    + rewrite Hnth in Hn. injection Hn as <-.
      rewrite app_assoc in Hr.
      apply (reach_agree (agree_app (h ++ ext) [vs])) in Hr;
        [| exact (Hcl x Hx)].
      rewrite Forall_forall in W. apply (W x Hx) in Hr. lia.
  - intros n Hn. simpl in Hn. destruct n as [|n]; [lia |].
    cbn [read]. rewrite Hnth. f_equal.
    rewrite <- (Rd n) by lia.
    apply map_ext_in. intros x Hx. rewrite app_assoc.
    apply (read_agree (agree_app (h ++ ext) [vs])). exact (Hcl x Hx).
  - cbn [size ok]. rewrite Hnth. rewrite forallb_forall. intros x Hx.
    rewrite app_assoc. apply (ok_agree (agree_app (h ++ ext) [vs])).
    rewrite Forall_forall in Ov. exact (Ov x Hx).
Qed.

Lemma deepClone_spec (h : heap) (v : hval) :
  exists ext v',
    deepClone h v = (h ++ ext, v')
    /\ within (List.length h) (List.length (h ++ ext)) (h ++ ext) v'
    /\ read (List.length (h ++ ext)) (h ++ ext) v' = read (List.length h) h v.
Proof.
  unfold deepClone.
  destruct (alloc_spec (read (List.length h) h v) h)
    as (ext & v' & E & L & W & Rd & _).
  exists ext, v'. split; [exact E |]. split.
  - intros l Hl. apply W in Hl. rewrite length_app. lia.
  - apply Rd. rewrite length_app. lia.
Qed.

Lemma alloc_read (j : jsval) (h : heap) :
  read (List.length (fst (alloc j h))) (fst (alloc j h)) (snd (alloc j h)) = j.
Proof.
  destruct (alloc_spec j h) as (ext & v' & E & L & _ & Rd & _).
  rewrite E. cbn [fst snd]. apply Rd. rewrite length_app. lia.
Qed.

Lemma field_read (h h2 : heap) (v : hval) :
  ok (List.length h) h v = true ->
  agree (List.length h) h h2 -> List.length h <= List.length h2 ->
  read (List.length h2) h2 v = read (List.length h) h v.
Proof.
  intros Hok Hag Hlen.
  rewrite (read_agree Hag) by (eapply ok_closed; exact Hok).
  apply ok_read; assumption.
Qed.

Lemma js_get_In {A : Type} (k : string) (o : list (string * A)) (v : A) :
  js_get k o = Some v -> exists k', In (k', v) o.
Proof.
  induction o as [|[k' v'] o IH]; simpl; [discriminate |].
  destruct (String.eqb k k').
  - intro H. injection H as <-. exists k'. left. reflexivity.
  - intro H. destruct (IH H) as [k'' Hin]. exists k''. right. exact Hin.
Qed.

Lemma wf_array (a : object) (h : heap) (name : string) :
  wf a h ->
  ok (List.length h) h
     (match js_get name (_arrays a) with Some v => v | None => HUndef end) = true.
Proof.
  intros [Harr _]. destruct (js_get name (_arrays a)) as [v|] eqn:E.
  - apply js_get_In in E. destruct E as [k' Hin].
    rewrite Forall_forall in Harr. apply (Harr _ Hin).
  - destruct (List.length h); reflexivity.
Qed.

Lemma wf_source (a : object) (h : heap) (g : getter) :
  wf a h -> ok (List.length h) h (source g a) = true.
Proof.
  intro H. destruct g; simpl; try (apply wf_array; exact H);
    destruct H as (_ & Hc & Hi & Hp); assumption.
Qed.

Lemma run_getter (g : getter) (a : object) (h : heap) :
  run (getter_query g) a h = Ok (deepClone h (source g a)).
Proof. destruct g; reflexivity. Qed.

Lemma observe_getter (g : getter) (a : object) (h : heap) :
  observe (getter_query g) a h = Ok (read (List.length h) h (source g a)).
Proof.
  unfold observe. rewrite run_getter. cbn [bind].
  destruct (deepClone_spec h (source g a)) as (ext & v' & E & _ & Rd).
  rewrite E, Rd. reflexivity.
Qed.

(** A store that agrees with [h] on the arrays [h] has answers every query
    as [h] does. *)
Lemma observe_frame (a : object) (h h2 : heap) :
  wf a h -> agree (List.length h) h h2 -> List.length h <= List.length h2 ->
  forall q, observe q a h2 = observe q a h.
Proof.
  intros Hwf Hag Hlen q.
  assert (Hg : forall g, observe (getter_query g) a h2
                         = observe (getter_query g) a h).
  { intro g. rewrite !observe_getter. f_equal.
    apply field_read; [apply wf_source, Hwf | exact Hag | exact Hlen]. }
  destruct q;
    try (exact (Hg GSymbols)); try (exact (Hg GNumbers));
    try (exact (Hg GCell)); try (exact (Hg GInvCell));
    try (exact (Hg GPbc)); try (exact (Hg GPositions)).
  - unfold observe, run. cbn [bind].
    destruct (List.length h), (List.length h2); reflexivity.
  - unfold observe, run, get_array. cbn [bind]. f_equal.
    apply field_read; [apply wf_array, Hwf | exact Hag | exact Hlen].
  - unfold observe, run, get_scaled_positions, get_array. cbn [snd].
    rewrite (@field_read h h2 _ (wf_array "positions" Hwf) Hag Hlen).
    assert (Hic : ok (List.length h) h (_inv_cell a) = true)
      by (destruct Hwf as (_ & _ & Hi & _); exact Hi).
    rewrite (@field_read h h2 _ Hic Hag Hlen).
    destruct (read (List.length h) h
                (match js_get "positions" (_arrays a) with
                 | Some v => v | None => HUndef end)); try reflexivity.
    destruct (mapM _ l) as [spos|e]; [| reflexivity].
    cbn [bind].
    destruct (alloc (JArr (map of_vec spos)) h2) as [h3 v3] eqn:E2.
    destruct (alloc (JArr (map of_vec spos)) h) as [h1 v1] eqn:E1.
    pose proof (alloc_read (JArr (map of_vec spos)) h2) as R2.
    pose proof (alloc_read (JArr (map of_vec spos)) h) as R1.
    rewrite E2 in R2. rewrite E1 in R1. cbn [fst snd] in R1, R2.
    rewrite R1, R2. reflexivity.
Qed.

(** A getter hands out new arrays with the contents of the internal value;
    changes to arrays that did not exist before the call do not show. *)
Lemma getter_copy :
  forall (a : object) (h : heap) (g : getter),
    wf a h ->
    exists h1 v,
      run (getter_query g) a h = Ok (h1, v)
      /\ read (List.length h1) h1 v = read (List.length h) h (source g a)
      /\ (forall l, reach h1 v l -> List.length h <= l)
      /\ (forall fld l, In fld [source g a; _cell a; _inv_cell a; _pbc a] ->
            reach h fld l -> l < List.length h)
      /\ (forall ms, Forall (fun m => List.length h <= fst m) ms ->
            forall q, observe q a (mutations ms h1) = observe q a h).
Proof.
  intros a h g Hwf.
  destruct (deepClone_spec h (source g a)) as (ext & v' & E & W & Rd).
  exists (h ++ ext), v'. split; [rewrite run_getter, E; reflexivity |].
  split; [exact Rd |]. split; [intros l Hl; apply W in Hl; lia |]. split.
  - intros fld l Hin Hr.
    assert (Hok : ok (List.length h) h fld = true).
    { destruct Hwf as (Ha & Hc & Hi & Hp).
      destruct Hin as [<- | [<- | [<- | [<- | []]]]]; auto.
      apply wf_source. repeat split; assumption. }
    eapply ok_closed; eassumption.
  - intros ms Hms q.
    destruct (mutations_agree Hms (h ++ ext)) as [Hlen Hag].
    apply observe_frame; [exact Hwf | |].
    + eapply agree_trans; [apply agree_app | exact Hag].
    + rewrite Hlen, length_app. lia.
Qed.

(** C3, amended: each of [get_chemical_symbols], [get_atomic_numbers],
    [get_cell], [get_inv_cell], [get_pbc] and [get_positions] returns an
    independent copy.  No change made to an array reachable from the
    returned value shows in a later query; more precisely the returned value
    has the contents of the internal one, every array reachable from it is
    new (none is an array of the structure), and whatever sequence of
    changes is made to arrays that did not exist before the call, every
    query answers as before.  ([get_array] is not among them: it returns the
    internal array itself.) *)
Theorem C3_getters_return_copies :
  forall g : getter,
    returns_copy (fun a h => deepClone h (source g a))
    /\
    (forall (a : object) (h : heap),
        wf a h ->
        exists h1 v,
          run (getter_query g) a h = Ok (h1, v)
          /\ read (List.length h1) h1 v = read (List.length h) h (source g a)
          /\ (forall l, reach h1 v l -> List.length h <= l)
          /\ (forall fld l, In fld [source g a; _cell a; _inv_cell a; _pbc a] ->
                reach h fld l -> l < List.length h)
          /\ (forall ms, Forall (fun m => List.length h <= fst m) ms ->
                forall q, observe q a (mutations ms h1) = observe q a h)).
Proof.
  intro g. split.
  - intros a h Hwf l arr Hr q.
    destruct (getter_copy g Hwf) as (h1 & v & Hrun & _ & Hfresh & _ & Hms).
    rewrite run_getter in Hrun. injection Hrun as Hrun.
    rewrite Hrun in *. cbn [fst snd] in *.
    apply (Hms [(l, arr)]). constructor; [apply Hfresh, Hr | constructor].
  - intros a h Hwf. exact (getter_copy g Hwf).
Qed.

(** [v] stands for the value [j] in the store [H] and in every store that
    extends [H], with nothing dangling. *)
Definition stands_for (H : heap) (v : hval) (j : jsval) : Prop :=
  forall ext, ok (List.length (H ++ ext)) (H ++ ext) v = true
              /\ read (List.length (H ++ ext)) (H ++ ext) v = j.

Lemma alloc_extends (j : jsval) (h : heap) :
  exists ext, fst (alloc j h) = h ++ ext.
Proof.
  destruct (alloc_spec j h) as (ext & v & E & _). exists ext. rewrite E. reflexivity.
Qed.

Lemma alloc_stands_for (j : jsval) (h : heap) :
  stands_for (fst (alloc j h)) (snd (alloc j h)) j.
Proof.
  destruct (alloc_spec j h) as (ext & v & E & L & W & Rd & Ok1).
  rewrite E. cbn [fst snd]. intro ext2.
  assert (Hlen : size j <= List.length ((h ++ ext) ++ ext2))
    by (rewrite !length_app; lia).
  split.
  - apply (ok_agree (agree_app (h ++ ext) ext2)).
    eapply ok_mono; [exact Ok1 | exact Hlen].
  - rewrite (read_agree (agree_app (h ++ ext) ext2)).
    + apply Rd, Hlen.
    + intros l Hl. apply W in Hl. rewrite length_app. lia.
Qed.

Lemma stands_for_ext (H ext : heap) (v : hval) (j : jsval) :
  stands_for H v j -> stands_for (H ++ ext) v j.
Proof. intros Hs ext2. rewrite <- app_assoc. apply Hs. Qed.

Lemma stands_for_here (H : heap) (v : hval) (j : jsval) :
  stands_for H v j ->
  ok (List.length H) H v = true /\ read (List.length H) H v = j.
Proof. intro Hs. specialize (Hs []). rewrite app_nil_r in Hs. exact Hs. Qed.

Lemma store_arrays_spec (arrs : list (string * list jsval)) :
  forall h,
    (exists ext, fst (store_arrays arrs h) = h ++ ext)
    /\ Forall2 (fun nv na => fst nv = fst na
                  /\ stands_for (fst (store_arrays arrs h)) (snd nv) (JArr (snd na)))
               (snd (store_arrays arrs h)) arrs.
Proof.
  induction arrs as [|[name arr] r IH]; intro h.
  - split; [exists []; simpl; rewrite app_nil_r; reflexivity | constructor].
  - cbn [store_arrays].
    pose proof (alloc_stands_for (JArr arr) h) as Hs.
    destruct (alloc_extends (JArr arr) h) as [e1 E1].
    destruct (alloc (JArr arr) h) as [h1 v] eqn:Ea. cbn [fst snd] in *.
    destruct (IH h1) as [[e2 E2] HF].
    destruct (store_arrays r h1) as [h2 vs] eqn:Er. cbn [fst snd] in *.
    subst h1 h2. split.
    + exists (e1 ++ e2). rewrite app_assoc. reflexivity.
    + constructor; [| exact HF].
      split; [reflexivity |]. cbn [snd]. apply stands_for_ext, Hs.
Qed.

(** The object that [store_atoms] lays out is well formed, and each of its
    fields stands for the field of the structure it was made from. *)
Lemma store_atoms_spec (a : Atoms) (h : heap) :
  let H := fst (store_atoms a h) in
  let o := snd (store_atoms a h) in
  wf o H
  /\ Forall2 (fun nv na => fst nv = fst na /\ stands_for H (snd nv) (JArr (snd na)))
             (_arrays o) (arrays_of a)
  /\ stands_for H (_pbc o) (JArr (map JBool (pbc_of a)))
  /\ stands_for H (_inv_cell o) (js_of_inv_cell (inv_cell_of a))
  /\ stands_for H (_cell o) (js_of_cell (cell_of a))
  /\ _N o = N_of a.
Proof.
  unfold store_atoms.
  destruct (store_arrays_spec (arrays_of a) h) as [[e1 E1] HF].
  destruct (store_arrays (arrays_of a) h) as [h1 arrs]. cbn [fst snd] in *.
  pose proof (alloc_stands_for (JArr (map JBool (pbc_of a))) h1) as Sp.
  destruct (alloc_extends (JArr (map JBool (pbc_of a))) h1) as [e2 E2].
  destruct (alloc (JArr (map JBool (pbc_of a))) h1) as [h2 pbc]. cbn [fst snd] in *.
  pose proof (alloc_stands_for (js_of_inv_cell (inv_cell_of a)) h2) as Si.
  destruct (alloc_extends (js_of_inv_cell (inv_cell_of a)) h2) as [e3 E3].
  destruct (alloc (js_of_inv_cell (inv_cell_of a)) h2) as [h3 ic]. cbn [fst snd] in *.
  pose proof (alloc_stands_for (js_of_cell (cell_of a)) h3) as Sc.
  destruct (alloc_extends (js_of_cell (cell_of a)) h3) as [e4 E4].
  destruct (alloc (js_of_cell (cell_of a)) h3) as [h4 c]. cbn [fst snd] in *.
  assert (HF4 : Forall2 (fun nv na => fst nv = fst na
                           /\ stands_for h4 (snd nv) (JArr (snd na)))
                        arrs (arrays_of a)).
  { eapply Forall2_impl; [| exact HF]. intros nv na [Hk Hs].
    split; [exact Hk |]. subst h4 h3 h2.
    apply stands_for_ext, stands_for_ext, stands_for_ext, Hs. }
  assert (Sp4 : stands_for h4 pbc (JArr (map JBool (pbc_of a)))).
  { subst h4 h3. apply stands_for_ext, stands_for_ext, Sp. }
  assert (Si4 : stands_for h4 ic (js_of_inv_cell (inv_cell_of a))).
  { subst h4. apply stands_for_ext, Si. }
  cbv zeta. cbn [_arrays _pbc _inv_cell _cell _N].
  split;
    [| split; [exact HF4 | split; [exact Sp4 | split; [exact Si4 |
       split; [exact Sc | reflexivity]]]]].
  unfold wf. cbn [_arrays _pbc _inv_cell _cell].
  split; [| split; [| split]].
  - clear - HF4. induction HF4 as [|nv na l l' [_ Hs] _ IH]; constructor;
      [apply (stands_for_here Hs) | exact IH].
  - apply (stands_for_here Sc).
  - apply (stands_for_here Si4).
  - apply (stands_for_here Sp4).
Qed.

Lemma js_get_Forall2 {A B : Type} (P : A -> B -> Prop) (k : string)
    (o : list (string * A)) (o' : list (string * B)) :
  Forall2 (fun x y => fst x = fst y /\ P (snd x) (snd y)) o o' ->
  match js_get k o, js_get k o' with
  | Some v, Some w => P v w
  | None, None => True
  | _, _ => False
  end.
Proof.
  induction 1 as [|[k1 v] [k2 w] l l' [Hk Hp] _ IH]; simpl; [exact I |].
  simpl in Hk. subst k2. destruct (String.eqb k k1); [exact Hp | exact IH].
Qed.

(** The store refines the value layer: on the object laid out from a
    structure, the getters of the store answer what the getters of the value
    layer answer. *)
Lemma store_refines (a : Atoms) (h : heap) :
  let H := fst (store_atoms a h) in
  let o := snd (store_atoms a h) in
  observe QCell o H = Ok (js_of_cell (value_cell a))
  /\ observe QInvCell o H = Ok (js_of_inv_cell (value_inv_cell a))
  /\ observe QPbc o H = Ok (JArr (map JBool (value_pbc a)))
  /\ (forall ps, value_positions a = Some ps ->
        observe QPositions o H = Ok (JArr ps))
  /\ (forall ss, value_symbols a = Some ss ->
        observe QSymbols o H = Ok (JArr ss))
  /\ (forall ns, value_numbers a = Some ns ->
        observe QNumbers o H = Ok (JArr ns)).
Proof.
  destruct (store_atoms_spec a h) as (_ & HF & Sp & Si & Sc & _).
  cbv zeta in *.
  set (H := fst (store_atoms a h)) in *. set (o := snd (store_atoms a h)) in *.
  assert (Harr : forall name arr,
             js_get name (arrays_of a) = Some arr ->
             read (List.length H) H
               (match js_get name (_arrays o) with Some v => v | None => HUndef end)
             = JArr arr).
  { intros name arr E.
    pose proof (js_get_Forall2 (fun v w => stands_for H v (JArr w)) name HF) as G.
    cbv beta in G. rewrite E in G.
    destruct (js_get name (_arrays o)) as [v|]; [| contradiction].
    apply (stands_for_here G). }
  repeat split.
  - rewrite (observe_getter GCell). f_equal. apply (stands_for_here Sc).
  - rewrite (observe_getter GInvCell). f_equal. apply (stands_for_here Si).
  - rewrite (observe_getter GPbc). f_equal. apply (stands_for_here Sp).
  - intros ps E. rewrite (observe_getter GPositions). f_equal. apply Harr, E.
  - intros ss E. rewrite (observe_getter GSymbols). f_equal. apply Harr, E.
  - intros ns E. rewrite (observe_getter GNumbers). f_equal. apply Harr, E.
Qed.

(** The molecule of the examples as an object of the store: its arrays are
    at locations 0 to 5, the row of the one position at 2 and the array of
    positions at 3. *)
Definition example_heap : heap :=
  fst (store_atoms (molecule_atoms None [false; false; false] None) []).

Definition example_object : object :=
  snd (store_atoms (molecule_atoms None [false; false; false] None) []).

Lemma example_wf : wf example_object example_heap.
Proof.
  repeat split; try reflexivity.
  repeat constructor.
Defined.

(** C3, as stated, fails for [get_array]: [a.get_array('positions')] is the
    internal array, the row at its index 0 is the internal row, and after
    [a.get_array('positions')[0][0] = 5] the structure answers
    [[[5, 0, 0]]] to [get_positions], not [[[0, 0, 0]]]. *)
Lemma C3_counterexample : ~ returns_copy (get_array "positions").
Proof.
  intro H.
  assert (Hr : reach (fst (get_array "positions" example_object example_heap))
                     (snd (get_array "positions" example_object example_heap)) 2).
  { apply reach_step with (arr := [HRef 2]) (x := HRef 2).
    - reflexivity.
    - left. reflexivity.
    - constructor. }
  specialize (H example_object example_heap example_wf 2
                [HNum 5; HNum 0; HNum 0] Hr QPositions).
  assert (Hafter :
    observe QPositions example_object
      (mutate 2 [HNum 5; HNum 0; HNum 0]
         (fst (get_array "positions" example_object example_heap)))
    = Ok (JArr [JArr [JNum 5; JNum 0; JNum 0]])) by reflexivity.
  assert (Hbefore :
    observe QPositions example_object example_heap
    = Ok (JArr [JArr [JNum 0; JNum 0; JNum 0]])) by reflexivity.
  rewrite Hafter, Hbefore in H. injection H as H.
  apply eq_IZR in H. discriminate.
Qed.

(** C3 at the molecule: [get_positions] returns new arrays, and writing
    into them leaves [get_positions] as it was. *)
Lemma C3_getters_return_copies_witness :
  exists h1 v,
    run QPositions example_object example_heap = Ok (h1, v)
    /\ (forall l, reach h1 v l -> List.length example_heap <= l)
    /\ (forall ms, Forall (fun m => List.length example_heap <= fst m) ms ->
          forall q, observe q example_object (mutations ms h1)
                    = observe q example_object example_heap).
Proof.
  destruct (proj2 (C3_getters_return_copies GPositions)
              example_object example_heap example_wf)
    as (h1 & v & Hrun & _ & Hfresh & _ & Hms).
  exists h1, v. repeat split; assumption.
Defined.

End Store.

(* ================================================================== *)
(** * Further properties of [cryst.js] *)

(** ** The constructor and [set_array] *)

(** Every array of the structure has one entry per atom. *)
Definition arrays_ok (a : Atoms) : Prop :=
  forall name arr, get_array name a = Some arr -> List.length arr = _N a.

Lemma check_rows_true (positions : list jsval) :
  forall b, check_rows b positions = Ok true ->
    b = true /\ forall p, In p positions -> js_length p = Ok (Some 3%nat).
Proof.
  induction positions as [|p r IH]; intros b H; simpl in H.
  - injection H as ->. split; [reflexivity | intros p []].
  - destruct b.
    + destruct (js_length p) as [n|e] eqn:E; simpl in H; [| discriminate].
      destruct (IH _ H) as [Hb Hr].
      assert (Hn : n = Some 3%nat).
      { destruct n as [[|[|[|[|k]]]]|]; try discriminate; reflexivity. }
      subst n. split; [reflexivity |].
      intros q [<- | Hq]; [exact E | apply Hr, Hq].
    + destruct (IH _ H) as [Hb _]. discriminate.
Qed.

Lemma check_rows_false (positions : list jsval) :
  exists r, check_rows false positions = r /\ r = Ok false.
Proof.
  induction positions as [|p r IH]; simpl; eexists; split; try reflexivity.
  destruct IH as (r' & <- & E). exact E.
Qed.

Section ConstructorProperties.

Variable getElement : jsval -> option element.
Variable getAtomic : R -> option element.

(** What a successful construction went through. *)
Lemma Atoms_new_inv (elems positions : list jsval) (cell : cellarg)
    (inf : option (list (string * jsval))) (scaled tolerant : bool) (a : Atoms) :
  Atoms_new getElement getAtomic elems positions cell inf scaled tolerant = Ok a ->
  exists els c pbc ic pos,
    mapM (resolve_elem getElement getAtomic tolerant) elems = Ok els
    /\ resolve_cell cell = Ok (c, pbc)
    /\ resolve_inv_cell cell c = Ok ic
    /\ check_rows (List.length positions =? List.length elems)%nat positions
       = Ok true
    /\ (if scaled
        then exists ps m,
               ic <> None /\ mapM to_vec positions = Ok ps
               /\ match c with Some rows => full_rows rows | None => None end
                  = Some m
               /\ ps <> []
               /\ pos = map of_vec (mat_mul ps m)
        else pos = positions)
    /\ List.length pos = List.length elems
    /\ a = {| _arrays := [("symbols", map fst els); ("numbers", map snd els);
                          ("positions", pos)];
              _N := List.length elems;
              _pbc := pbc;
              _inv_cell := ic;
              _cell := c;
              info := match inf with Some i => i | None => [] end |}.
Proof.
  unfold Atoms_new. intro H.
  destruct (mapM (resolve_elem getElement getAtomic tolerant) elems)
    as [els|] eqn:Hels; [| discriminate].
  cbn [bind] in H.
  destruct (resolve_cell cell) as [[c pbc]|] eqn:Hc; [| discriminate].
  cbn [bind] in H.
  destruct (resolve_inv_cell cell c) as [ic|] eqn:Hic; [| discriminate].
  cbn [bind] in H.
  destruct (mapM_ok_nth _ _ Hels) as [Hlen _].
  rewrite length_map, Hlen in H.
  destruct (check_rows (List.length positions =? List.length elems)%nat positions)
    as [[|]|] eqn:Hpos; try discriminate.
  cbn [bind negb] in H.
  assert (Hset : forall pos,
     (a0 <- set_array "positions" pos
              {| _arrays := [("symbols", map fst els); ("numbers", map snd els)];
                 _N := List.length elems; _pbc := pbc; _inv_cell := ic;
                 _cell := c; info := [] |} ;;
      Ok {| _arrays := _arrays a0; _N := _N a0; _pbc := _pbc a0;
            _inv_cell := _inv_cell a0; _cell := _cell a0;
            info := match inf with Some i => i | None => [] end |}) = Ok a ->
     List.length pos = List.length elems
     /\ a = {| _arrays := [("symbols", map fst els); ("numbers", map snd els);
                           ("positions", pos)];
               _N := List.length elems; _pbc := pbc; _inv_cell := ic; _cell := c;
               info := match inf with Some i => i | None => [] end |}).
  { intros pos Hs. unfold set_array in Hs. cbn [_N] in Hs.
    destruct (List.length pos =? List.length elems)%nat eqn:E;
      cbn [negb bind] in Hs; [| discriminate].
    injection Hs as <-. split; [apply Nat.eqb_eq, E | reflexivity]. }
  exists els, c, pbc, ic.
  destruct scaled.
  - destruct ic as [icm|]; [| discriminate].
    destruct (mapM to_vec positions) as [ps|] eqn:Hps; [| discriminate].
    cbn [bind] in H.
    destruct (match c with Some rows => full_rows rows | None => None end)
      as [m|] eqn:Hm; [| discriminate].
    cbn [of_option bind] in H.
    destruct ps as [|p0 ps']; [discriminate |].
    cbn [multiply bind] in H.
    destruct (Hset _ H) as [Hl Ha].
    exists (map of_vec (mat_mul (p0 :: ps') m)). repeat split; auto.
    exists (p0 :: ps'), m. repeat split; auto; discriminate.
  - cbn [bind] in H. destruct (Hset _ H) as [Hl Ha].
    exists positions. repeat split; auto.
Qed.

(** X1.  A successful construction gives a structure with one atom per
    element: [length()] is the number of elements, the arrays [symbols],
    [numbers] and [positions] exist, every array has that length, every
    position has three entries, and unscaled positions are stored as
    given. *)
Theorem Atoms_new_arrays :
  forall (elems positions : list jsval) (cell : cellarg)
         (inf : option (list (string * jsval))) (scaled tolerant : bool)
         (a : Atoms),
    Atoms_new getElement getAtomic elems positions cell inf scaled tolerant = Ok a ->
    Atoms_length a = List.length elems
    /\ arrays_ok a
    /\ (exists syms nums pos,
          get_chemical_symbols a = Some syms
          /\ get_atomic_numbers a = Some nums
          /\ get_positions a = Some pos
          /\ (scaled = false -> pos = positions)
          /\ forall p, In p pos -> js_length p = Ok (Some 3%nat)).
Proof.
  intros elems positions cell inf scaled tolerant a H.
  destruct (Atoms_new_inv _ _ _ _ _ _ H)
    as (els & c & pbc & ic & pos & Hels & Hc & Hic & Hpos & Hsc & Hl & ->).
  destruct (mapM_ok_nth _ _ Hels) as [Hlen _].
  destruct (check_rows_true _ _ Hpos) as [_ Hrows].
  split; [reflexivity |]. split.
  - intros name arr. unfold get_array. cbn [_arrays _N js_get].
    destruct (String.eqb name "symbols");
      [intro E; injection E as <-; rewrite length_map; exact Hlen |].
    destruct (String.eqb name "numbers");
      [intro E; injection E as <-; rewrite length_map; exact Hlen |].
    destruct (String.eqb name "positions");
      [intro E; injection E as <-; exact Hl | discriminate].
  - exists (map fst els), (map snd els), pos.
    split; [reflexivity |]. split; [reflexivity |]. split; [reflexivity |].
    split.
    + intros ->. exact Hsc.
    + destruct scaled.
      * destruct Hsc as (ps & m & Hne & Hps & Hm & _ & ->).
        intros p Hp. apply in_map_iff in Hp. destruct Hp as (v & <- & Hv).
        unfold mat_mul in Hv. apply in_map_iff in Hv.
        destruct Hv as (r & <- & _).
        unfold of_vec, js_length, vec_mat. rewrite !length_map, length_seq.
        assert (H3 : List.length (row m 0) = 3%nat).
        { destruct ic as [icm|]; [| contradiction].
          destruct c as [rows|]; [| discriminate].
          unfold resolve_inv_cell in Hic. rewrite Hm in Hic.
          destruct (falsy_cell cell); [discriminate |].
          unfold inv in Hic. destruct (is_3x3 m) eqn:E3; [| discriminate].
          destruct (is_3x3_inv _ E3)
            as (a0 & a1 & a2 & b0 & b1 & b2 & c0 & c1 & c2 & ->).
          reflexivity. }
        rewrite H3. reflexivity.
      * subst pos. exact Hrows.
Qed.

End ConstructorProperties.

(** X1 at [new Atoms(['C', 'H'], [[0,0,0], [1,1,1]])]. *)
Lemma Atoms_new_arrays_witness :
  exists a,
    Atoms_new table_getElement table_getAtomic [JStr "C"; JStr "H"]
      [JArr [JNum 0; JNum 0; JNum 0]; JArr [JNum 1; JNum 1; JNum 1]]
      CellFalsy None false false = Ok a
    /\ Atoms_length a = 2%nat /\ arrays_ok a.
Proof.
  eexists. split; [reflexivity |].
  match goal with
  | |- Atoms_length ?a = _ /\ _ =>
      destruct (@Atoms_new_arrays table_getElement table_getAtomic
                  [JStr "C"; JStr "H"]
                  [JArr [JNum 0; JNum 0; JNum 0]; JArr [JNum 1; JNum 1; JNum 1]]
                  CellFalsy None false false a eq_refl) as (H1 & H2 & _)
  end.
  split; [exact H1 | exact H2].
Defined.

Lemma js_get_set_same {A : Type} (k : string) (v : A) (o : list (string * A)) :
  js_get k (js_set k v o) = Some v.
Proof.
  induction o as [|[k' v'] o IH]; simpl.
  - rewrite String.eqb_refl. reflexivity.
  - destruct (String.eqb k k') eqn:E; simpl.
    + rewrite String.eqb_refl. reflexivity.
    + rewrite E. exact IH.
Qed.

Lemma js_get_set_other {A : Type} (k k0 : string) (v : A) (o : list (string * A)) :
  k0 <> k -> js_get k0 (js_set k v o) = js_get k0 o.
Proof.
  intro Hne. induction o as [|[k' v'] o IH]; simpl.
  - destruct (String.eqb k0 k) eqn:E; [| reflexivity].
    apply String.eqb_eq in E. contradiction.
  - destruct (String.eqb k k') eqn:E; simpl.
    + apply String.eqb_eq in E. subst k'.
      destruct (String.eqb k0 k) eqn:E0; [| reflexivity].
      apply String.eqb_eq in E0. contradiction.
    + destruct (String.eqb k0 k'); [reflexivity | exact IH].
Qed.

(** X2.  [set_array] refuses an array whose length is not the number of
    atoms; otherwise [get_array] of that name then returns the array given
    (also for a built-in name such as [symbols]), every other array and the
    count, cell, inverse cell and flags are as before, and all arrays still
    have one entry per atom. *)
Theorem set_array_get_array :
  forall (name : string) (arr : list jsval) (a : Atoms),
    (List.length arr <> _N a -> set_array name arr a = Err InvalidArraySize)
    /\
    (List.length arr = _N a ->
     exists a',
       set_array name arr a = Ok a'
       /\ get_array name a' = Some arr
       /\ (forall n, n <> name -> get_array n a' = get_array n a)
       /\ Atoms_length a' = Atoms_length a
       /\ get_cell a' = get_cell a
       /\ get_inv_cell a' = get_inv_cell a
       /\ get_pbc a' = get_pbc a
       /\ (arrays_ok a -> arrays_ok a')).
Proof.
  intros name arr a. unfold set_array. split; intro H.
  - apply Nat.eqb_neq in H. rewrite H. reflexivity.
  - rewrite H, Nat.eqb_refl. cbn [negb]. eexists. split; [reflexivity |].
    unfold get_array. cbn [_arrays].
    split; [apply js_get_set_same |].
    split; [intros n Hn; apply js_get_set_other, Hn |].
    repeat split.
    intros Hok n arr'. unfold get_array. cbn [_arrays _N].
    destruct (String.eqb n name) eqn:E.
    + apply String.eqb_eq in E. subst n. rewrite js_get_set_same.
      intro E'. injection E' as <-. exact H.
    + rewrite js_get_set_other
        by (intro E'; subst n; rewrite String.eqb_refl in E; discriminate).
      apply Hok.
Qed.

(** [check_rows] on arrays: the count has to match and every row has to
    have three entries. *)
Lemma check_rows_arrays (rows : list (list jsval)) :
  forall b, check_rows b (map JArr rows)
            = Ok (b && forallb (fun r => (List.length r =? 3)%nat) rows).
Proof.
  induction rows as [|r rows IH]; intro b; simpl.
  - rewrite andb_true_r. reflexivity.
  - destruct b; simpl.
    + rewrite IH.
      destruct (List.length r) as [|[|[|[|n]]]]; reflexivity.
    + rewrite IH. reflexivity.
Qed.

Section ConstructorErrors.

Variable getElement : jsval -> option element.
Variable getAtomic : R -> option element.

Lemma Atoms_new_cell_err (elems positions : list jsval) (cell : cellarg)
    (inf : option (list (string * jsval))) (scaled tolerant : bool)
    (els : list (jsval * jsval)) (e : error) :
  mapM (resolve_elem getElement getAtomic tolerant) elems = Ok els ->
  resolve_cell cell = Err e ->
  Atoms_new getElement getAtomic elems positions cell inf scaled tolerant = Err e.
Proof. intros H1 H2. unfold Atoms_new. rewrite H1. cbn [bind]. rewrite H2. reflexivity. Qed.

(** X3.  When the elements resolve and the cell is accepted, positions that
    are arrays but not as many as the elements, or of which one does not
    have three entries, make the construction fail with the
    invalid-positions error. *)
Theorem Atoms_new_invalid_positions :
  forall (elems : list jsval) (rows : list (list jsval)) (cell : cellarg)
         (inf : option (list (string * jsval))) (scaled tolerant : bool)
         els c pbc ic,
    mapM (resolve_elem getElement getAtomic tolerant) elems = Ok els ->
    resolve_cell cell = Ok (c, pbc) ->
    resolve_inv_cell cell c = Ok ic ->
    List.length rows <> List.length elems
    \/ (exists r, In r rows /\ List.length r <> 3%nat) ->
    Atoms_new getElement getAtomic elems (map JArr rows) cell inf scaled tolerant
    = Err InvalidPositions.
Proof.
  intros elems rows cell inf scaled tolerant els c pbc ic Hels Hc Hic Hbad.
  unfold Atoms_new. rewrite Hels. cbn [bind]. rewrite Hc. cbn [bind].
  rewrite Hic. cbn [bind]. rewrite check_rows_arrays. cbn [bind].
  assert (Hf : ((List.length (map JArr rows)
                 =? List.length (map fst els))%nat
                && forallb (fun r => (List.length r =? 3)%nat) rows) = false).
  { destruct (mapM_ok_nth _ _ Hels) as [Hlen _].
    rewrite !length_map, Hlen.
    destruct Hbad as [Hn | (r & Hr & Hn)].
    - apply Nat.eqb_neq in Hn. rewrite Hn. reflexivity.
    - apply andb_false_iff. right.
      destruct (forallb _ rows) eqn:E; [| reflexivity].
      rewrite forallb_forall in E. specialize (E r Hr).
      apply Nat.eqb_eq in E. contradiction. }
  rewrite Hf. reflexivity.
Qed.

(** X6.  A cell given as an array is refused with the invalid-cell error
    when it has neither two nor three entries, when it has three entries of
    which one is an array not of three numbers, and when it has two entries
    of which the first is a number or an array not of three numbers; with
    two entries of which the first is [null] the constructor raises a
    [TypeError] instead. *)
Theorem resolve_cell_invalid :
  forall rows : list cellrow,
    (List.length rows <> 2%nat -> List.length rows <> 3%nat ->
     resolve_cell (CellArr rows) = Err InvalidCell)
    /\
    (forall r0 r1 r2 v,
        rows = [r0; r1; r2] -> In (RowArr v) rows -> List.length v <> 3%nat ->
        resolve_cell (CellArr rows) = Err InvalidCell)
    /\
    (forall r0 r1,
        rows = [r0; r1] ->
        (exists x, r0 = RowNum x)
        \/ (exists v, r0 = RowArr v /\ List.length v <> 3%nat) ->
        resolve_cell (CellArr rows) = Err InvalidCell)
    /\
    (forall r1, rows = [RowNull; r1] -> resolve_cell (CellArr rows) = Err TypeError).
Proof.
  intro rows. split; [| split; [| split]].
  - intros H2 H3. unfold resolve_cell.
    apply Nat.eqb_neq in H2. apply Nat.eqb_neq in H3.
    rewrite H2, H3. reflexivity.
  - intros r0 r1 r2 v -> Hin Hv. apply Nat.eqb_neq in Hv.
    assert (Hrow : forall i, resolve_row i (RowArr v) = Err InvalidCell)
      by (intro i; simpl; rewrite Hv; reflexivity).
    assert (Hok : forall i r,
               (exists x, resolve_row i r = Ok x)
               \/ resolve_row i r = Err InvalidCell).
    { intros i r. destruct r as [|x|w]; simpl.
      - left. eexists. reflexivity.
      - left. destruct (is_falsy_num x); eexists; reflexivity.
      - destruct (negb (List.length w =? 3)%nat);
          [right; reflexivity | left; eexists; reflexivity]. }
    unfold resolve_cell. cbn [List.length Nat.eqb negb bind seq combine mapM fst snd].
    destruct Hin as [-> | [-> | [-> | []]]].
    + rewrite Hrow. reflexivity.
    + destruct (Hok 0%nat r0) as [[x E] | E]; rewrite E; [cbn [bind] | reflexivity].
      rewrite Hrow. reflexivity.
    + destruct (Hok 0%nat r0) as [[x E] | E]; rewrite E; [cbn [bind] | reflexivity].
      destruct (Hok 1%nat r1) as [[y E1] | E1]; rewrite E1;
        [cbn [bind] | reflexivity].
      rewrite Hrow. reflexivity.
  - intros r0 r1 -> H. unfold resolve_cell.
    cbn [List.length Nat.eqb nth_error].
    destruct H as [[x ->] | (v & -> & Hv)]; cbn [row_length_is_3 bind].
    + reflexivity.
    + apply Nat.eqb_neq in Hv. rewrite Hv. reflexivity.
  - intros r1 ->. reflexivity.
Qed.

(** X8.  Scaled positions need the three directions periodic: when the
    elements resolve, the cell is accepted without an inverse (no cell, or a
    [null] row) and the positions have the right shape, [scaled = true]
    makes the construction fail with the scaled-coordinates error. *)
Theorem Atoms_new_scaled_nonperiodic :
  forall (elems positions : list jsval) (cell : cellarg)
         (inf : option (list (string * jsval))) (tolerant : bool) els c pbc,
    mapM (resolve_elem getElement getAtomic tolerant) elems = Ok els ->
    resolve_cell cell = Ok (c, pbc) ->
    resolve_inv_cell cell c = Ok None ->
    check_rows (List.length positions =? List.length elems)%nat positions
    = Ok true ->
    Atoms_new getElement getAtomic elems positions cell inf true tolerant
    = Err ScaledNonPeriodic.
Proof.
  intros elems positions cell inf tolerant els c pbc Hels Hc Hic Hpos.
  unfold Atoms_new. rewrite Hels. cbn [bind]. rewrite Hc. cbn [bind].
  rewrite Hic. cbn [bind].
  destruct (mapM_ok_nth _ _ Hels) as [Hlen _].
  rewrite length_map, Hlen, Hpos. reflexivity.
Qed.

End ConstructorErrors.

(** X3 at the two constructions of the test suite:
    [new Atoms(['C', 'C'], [[1,1,1]])] and
    [new Atoms(['C', 'C'], [[1,1,1], [1]])]. *)
Lemma Atoms_new_invalid_positions_witness :
  Atoms_new table_getElement table_getAtomic [JStr "C"; JStr "C"]
    (map JArr [[JNum 1; JNum 1; JNum 1]]) CellFalsy None false false
  = Err InvalidPositions
  /\
  Atoms_new table_getElement table_getAtomic [JStr "C"; JStr "C"]
    (map JArr [[JNum 1; JNum 1; JNum 1]; [JNum 1]]) CellFalsy None false false
  = Err InvalidPositions.
Proof.
  split.
  - eapply Atoms_new_invalid_positions; try reflexivity.
    left. simpl. discriminate.
  - eapply Atoms_new_invalid_positions; try reflexivity.
    right. exists [JNum 1]. split; [right; left; reflexivity | simpl; discriminate].
Defined.

(** X8 at [new Atoms(['C'], [[0,0,0]], [1, null, 1], {}, true)]. *)
Lemma Atoms_new_scaled_nonperiodic_witness :
  Atoms_new table_getElement table_getAtomic [JStr "C"]
    [JArr [JNum 0; JNum 0; JNum 0]] (CellArr [RowNum 1; RowNull; RowNum 1])
    (Some []) true false
  = Err ScaledNonPeriodic.
Proof.
  eapply (@Atoms_new_scaled_nonperiodic table_getElement table_getAtomic
            [JStr "C"] [JArr [JNum 0; JNum 0; JNum 0]]
            (CellArr [RowNum 1; RowNull; RowNum 1]) (Some []) false
            _ (Some [Some [1; 0; 0]; None; Some [0; 0; 1]]) [true; false; true]).
  - reflexivity.
  - unfold resolve_cell. cbn -[is_falsy_num]. unfold is_falsy_num.
    rewrite !Reqb_false by lra. reflexivity.
  - reflexivity.
  - reflexivity.
Defined.

(** ** The cell of a structure *)

Lemma cellparToCell_default_3x3 (cellpar : vec * vec) (radians : bool) :
  is_3x3 (cellparToCell cellpar None None radians) = true.
Proof.
  unfold cellparToCell, default_a_direction.
  destruct (snap_at 2 _) as [cosa sina].
  destruct (Rltb (norm (cross [0; 0; 1] [1; 0; 0])) 1e-5); reflexivity.
Qed.

Lemma full_rows_spec (rows : list (option vec)) :
  (forall m, full_rows rows = Some m -> rows = map Some m)
  /\ (full_rows rows = None <-> In None rows).
Proof.
  induction rows as [|[r|] rows [IH1 IH2]]; simpl.
  - split; [intros m E; injection E as <-; reflexivity |].
    split; [discriminate | intros []].
  - destruct (full_rows rows) as [m'|].
    + split; [intros m E; injection E as <-; simpl; f_equal; apply IH1; reflexivity |].
      split; [discriminate |].
      intros [E | E]; [discriminate | apply IH2 in E; discriminate].
    + split; [discriminate |]. split; [| reflexivity].
      intros _. right. apply IH2. reflexivity.
  - split; [discriminate |]. split; [| reflexivity]. intros _. left. reflexivity.
Qed.

Lemma resolve_row_spec (i : nat) (r : cellrow) (v : option vec) (b : bool) :
  resolve_row i r = Ok (v, b) ->
  b = is_some v
  /\ match v with Some w => List.length w = 3%nat | None => True end.
Proof.
  destruct r as [|x|w]; simpl.
  - intro E. injection E as <- <-. auto.
  - destruct (is_falsy_num x); intro E; injection E as <- <-; [auto |].
    split; [reflexivity |]. apply Store.length_upd.
  - destruct (List.length w =? 3)%nat eqn:E3; cbn [negb]; [| discriminate].
    intro E. injection E as <- <-. split; [reflexivity | apply Nat.eqb_eq, E3].
Qed.

(** What the cell stage of the constructor produces. *)
Lemma resolve_cell_spec (cell : cellarg) c pbc :
  resolve_cell cell = Ok (c, pbc) ->
  match c with
  | None => pbc = [false; false; false] /\ falsy_cell cell = true
  | Some rows =>
      List.length rows = 3%nat /\ pbc = map is_some rows
      /\ falsy_cell cell = false
      /\ Forall (fun r => match r with
                          | Some w => List.length w = 3%nat
                          | None => True
                          end) rows
  end.
Proof.
  destruct cell as [|a|rows]; unfold resolve_cell; cbn [falsy_cell].
  - intro E. injection E as <- <-. auto.
  - destruct (is_falsy_num a); intro E; injection E as <- <-; [auto |].
    repeat split; repeat constructor.
  - match goal with
    | |- bind ?x _ = _ -> _ => destruct x as [[|]|] eqn:Ecp
    end; cbn [bind]; try discriminate.
    + destruct rows as [|[| |l] [|[| |angs] [|]]]; try discriminate.
      intro E. injection E as <- <-.
      pose proof (cellparToCell_default_3x3 (l, angs) false) as H3.
      destruct (is_3x3_inv _ H3)
        as (a0 & a1 & a2 & b0 & b1 & b2 & c0 & c1 & c2 & ->).
      repeat split; repeat constructor.
    + destruct (List.length rows =? 3)%nat eqn:E3; cbn [negb]; [| discriminate].
      destruct rows as [|r0 [|r1 [|r2 [|]]]]; try discriminate.
      cbn [seq combine mapM fst snd].
      destruct (resolve_row 0 r0) as [[v0 b0]|] eqn:E0; [| discriminate].
      cbn [bind].
      destruct (resolve_row 1 r1) as [[v1 b1]|] eqn:E1; [| discriminate].
      cbn [bind].
      destruct (resolve_row 2 r2) as [[v2 b2]|] eqn:E2; [| discriminate].
      cbn [bind]. intro E. injection E as <- <-.
      destruct (resolve_row_spec _ _ E0) as [-> H0].
      destruct (resolve_row_spec _ _ E1) as [-> H1].
      destruct (resolve_row_spec _ _ E2) as [-> H2].
      repeat split; repeat constructor; assumption.
Qed.

Section CellInvariant.

Variable getElement : jsval -> option element.
Variable getAtomic : R -> option element.

(** X4.  In a constructed structure the flags, the cell and the inverse
    cell agree: there are three flags; without a cell they are all false and
    there is no inverse; with a cell the flag of a direction is true exactly
    when its row is not [null], every row present has three entries; and the
    inverse cell is present exactly when the three flags are true. *)
Theorem Atoms_new_cell_invariant :
  forall (elems positions : list jsval) (cell : cellarg)
         (inf : option (list (string * jsval))) (scaled tolerant : bool)
         (a : Atoms),
    Atoms_new getElement getAtomic elems positions cell inf scaled tolerant = Ok a ->
    List.length (get_pbc a) = 3%nat
    /\ (get_cell a = None ->
        get_pbc a = [false; false; false] /\ get_inv_cell a = None)
    /\ (forall rows, get_cell a = Some rows ->
        List.length rows = 3%nat
        /\ get_pbc a = map is_some rows
        /\ Forall (fun r => match r with
                            | Some w => List.length w = 3%nat
                            | None => True
                            end) rows)
    /\ (get_inv_cell a <> None <-> get_pbc a = [true; true; true])
    /\ (forall ic, get_inv_cell a = Some ic -> is_3x3 ic = true).
Proof.
  intros elems positions cell inf scaled tolerant a H.
  destruct (Atoms_new_inv _ _ _ _ _ _ _ _ H)
    as (els & c & pbc & ic & pos & _ & Hc & Hic & _ & _ & _ & ->).
  unfold get_pbc, get_cell, get_inv_cell, deepClone. cbn [_pbc _cell _inv_cell].
  pose proof (resolve_cell_spec _ Hc) as Hs.
  assert (Hinv3 : forall icm, ic = Some icm -> is_3x3 icm = true).
  { intros icm ->. unfold resolve_inv_cell in Hic.
    destruct c as [rows|]; [| discriminate].
    destruct (falsy_cell cell); [discriminate |].
    destruct (full_rows rows) as [m|]; [| discriminate].
    unfold inv in Hic. destruct (is_3x3 m) eqn:E3; cbn [negb] in Hic;
      [| discriminate].
    destruct (Reqb (det3 m) 0); [discriminate |].
    cbn [bind] in Hic. injection Hic as <-. reflexivity. }
  destruct c as [rows|].
  - destruct Hs as (Hl & -> & Hf & Hrows).
    split; [rewrite length_map; exact Hl |].
    split; [discriminate |].
    split; [intros rows' E; injection E as <-; auto |].
    split; [| exact Hinv3].
    unfold resolve_inv_cell in Hic. rewrite Hf in Hic.
    destruct (full_rows_spec rows) as [Hfull Hnone].
    destruct (full_rows rows) as [m|] eqn:Em.
    + rewrite (Hfull m eq_refl) in *. rewrite length_map in Hl.
      destruct (inv m) as [icm|]; [| discriminate].
      injection Hic as <-.
      destruct m as [|r0 [|r1 [|r2 [|]]]]; try discriminate.
      split; [reflexivity | discriminate].
    + injection Hic as <-. split; [intro E; contradiction |].
      intro E. exfalso.
      assert (Hin : In None rows) by (apply Hnone; reflexivity).
      apply (in_map is_some) in Hin. rewrite E in Hin.
      simpl in Hin. intuition discriminate.
  - destruct Hs as [-> _]. simpl in Hic. injection Hic as <-.
    split; [reflexivity |]. split; [auto |].
    split; [discriminate |]. split; [| exact Hinv3].
    split; [intro E; contradiction | discriminate].
Qed.

End CellInvariant.

(** X4 at [new Atoms(['C'], [[0,0,0]], [1, null, 1])], the partially
    periodic cell of the test suite. *)
Lemma Atoms_new_cell_invariant_witness :
  exists a,
    Atoms_new table_getElement table_getAtomic [JStr "C"]
      [JArr [JNum 0; JNum 0; JNum 0]] (CellArr [RowNum 1; RowNull; RowNum 1])
      None false false = Ok a
    /\ get_pbc a = [true; false; true]
    /\ get_cell a = Some [Some [1; 0; 0]; None; Some [0; 0; 1]]
    /\ (get_inv_cell a <> None <-> get_pbc a = [true; true; true]).
Proof.
  assert (E : Atoms_new table_getElement table_getAtomic [JStr "C"]
      [JArr [JNum 0; JNum 0; JNum 0]] (CellArr [RowNum 1; RowNull; RowNum 1])
      None false false
    = Ok {| _arrays := [("symbols", [JStr "C"]); ("numbers", [JNum 6]);
                        ("positions", [JArr [JNum 0; JNum 0; JNum 0]])];
            _N := 1;
            _pbc := [true; false; true];
            _inv_cell := None;
            _cell := Some [Some [1; 0; 0]; None; Some [0; 0; 1]];
            info := [] |}).
  { eapply (@Atoms_new_ok table_getElement table_getAtomic false [JStr "C"]
              [JArr [JNum 0; JNum 0; JNum 0]]
              (CellArr [RowNum 1; RowNull; RowNum 1]) None
              [(JStr "C", JNum 6)]).
    - reflexivity.
    - unfold resolve_cell. cbn -[is_falsy_num]. unfold is_falsy_num.
      rewrite !Reqb_false by lra. reflexivity.
    - reflexivity.
    - reflexivity. }
  eexists. split; [exact E |].
  split; [reflexivity |]. split; [reflexivity |].
  exact (proj1 (proj2 (proj2 (proj2
           (Atoms_new_cell_invariant _ _ _ _ _ _ _ _ E))))).
Defined.

(** The inverse of a 3x3 matrix with non-zero determinant undoes the
    product on both sides. *)
Lemma inv_spec (m : mat) :
  is_3x3 m = true -> det3 m <> 0 ->
  exists icm,
    inv m = Ok icm /\ is_3x3 icm = true
    /\ forall p, List.length p = 3%nat ->
         vec_mat (vec_mat p m) icm = p /\ vec_mat (vec_mat p icm) m = p.
Proof.
  intros H3 Hd.
  destruct (is_3x3_inv _ H3)
    as (a0 & a1 & a2 & b0 & b1 & b2 & c0 & c1 & c2 & ->).
  unfold inv. rewrite H3. cbn [negb]. rewrite Reqb_false by exact Hd.
  eexists. split; [reflexivity |]. split; [reflexivity |].
  intros p Hp. destruct p as [|x [|y [|z [|]]]]; try discriminate.
  unfold det3, row, idx in Hd. simpl in Hd.
  unfold det3, vec_mat, col, row, idx. simpl.
  split; vec_eq ltac:(field; exact Hd).
Qed.

Section CellForms.

Variable getElement : jsval -> option element.
Variable getAtomic : R -> option element.

(** X5.  Three non-zero numbers as cell give the orthorhombic cell with
    those lengths on the diagonal, periodic in the three directions, with
    the reciprocal lengths on the diagonal of the inverse cell; and a single
    non-zero number [x] gives what [[x, x, x]] gives. *)
Theorem Atoms_new_orthorhombic :
  forall (elems positions : list jsval) (inf : option (list (string * jsval)))
         (tolerant : bool) (els : list (jsval * jsval)) (x y z : R),
    mapM (resolve_elem getElement getAtomic tolerant) elems = Ok els ->
    check_rows (List.length positions =? List.length elems)%nat positions
    = Ok true ->
    x <> 0 -> y <> 0 -> z <> 0 ->
    Atoms_new getElement getAtomic elems positions
      (CellArr [RowNum x; RowNum y; RowNum z]) inf false tolerant
    = Ok {| _arrays := [("symbols", map fst els); ("numbers", map snd els);
                        ("positions", positions)];
            _N := List.length elems;
            _pbc := [true; true; true];
            _inv_cell := Some [[1 / x; 0; 0]; [0; 1 / y; 0]; [0; 0; 1 / z]];
            _cell := Some [Some [x; 0; 0]; Some [0; y; 0]; Some [0; 0; z]];
            info := match inf with Some i => i | None => [] end |}
    /\
    Atoms_new getElement getAtomic elems positions (CellNum x) inf false tolerant
    = Atoms_new getElement getAtomic elems positions
        (CellArr [RowNum x; RowNum x; RowNum x]) inf false tolerant.
Proof.
  intros elems positions inf tolerant els x y z Hels Hpos Hx Hy Hz.
  assert (Hc : forall u v w, u <> 0 -> v <> 0 -> w <> 0 ->
            resolve_cell (CellArr [RowNum u; RowNum v; RowNum w])
            = Ok (Some [Some [u; 0; 0]; Some [0; v; 0]; Some [0; 0; w]],
                  [true; true; true])).
  { intros u v w Hu Hv Hw. unfold resolve_cell.
    cbn -[is_falsy_num]. unfold is_falsy_num.
    rewrite !Reqb_false by assumption. reflexivity. }
  assert (Hi : forall cell u v w, u <> 0 -> v <> 0 -> w <> 0 ->
            falsy_cell cell = false ->
            resolve_inv_cell cell
              (Some [Some [u; 0; 0]; Some [0; v; 0]; Some [0; 0; w]])
            = Ok (Some [[1 / u; 0; 0]; [0; 1 / v; 0]; [0; 0; 1 / w]])).
  { intros cell u v w Hu Hv Hw Hf. unfold resolve_inv_cell. rewrite Hf.
    cbn [full_rows]. unfold inv.
    change (is_3x3 [[u; 0; 0]; [0; v; 0]; [0; 0; w]]) with true. cbn [negb].
    assert (Hd : det3 [[u; 0; 0]; [0; v; 0]; [0; 0; w]] = u * v * w)
      by (unfold det3, row, idx; simpl; ring).
    rewrite Hd.
    assert (Hne : u * v * w <> 0)
      by (repeat apply Rmult_integral_contrapositive_currified; assumption).
    rewrite Reqb_false by exact Hne.
    unfold row, idx. simpl. cbn [bind]. do 2 apply f_equal.
    vec_eq ltac:(field; repeat split; assumption). }
  assert (Hnew : forall u v w, u <> 0 -> v <> 0 -> w <> 0 ->
            Atoms_new getElement getAtomic elems positions
              (CellArr [RowNum u; RowNum v; RowNum w]) inf false tolerant
            = Ok {| _arrays := [("symbols", map fst els);
                                ("numbers", map snd els);
                                ("positions", positions)];
                    _N := List.length elems;
                    _pbc := [true; true; true];
                    _inv_cell :=
                      Some [[1 / u; 0; 0]; [0; 1 / v; 0]; [0; 0; 1 / w]];
                    _cell :=
                      Some [Some [u; 0; 0]; Some [0; v; 0]; Some [0; 0; w]];
                    info := match inf with Some i => i | None => [] end |}).
  { intros u v w Hu Hv Hw.
    eapply Atoms_new_ok; [exact Hels | apply Hc; assumption
                         | apply Hi; [assumption .. | reflexivity] | exact Hpos]. }
  split.
  - apply Hnew; assumption.
  - rewrite Hnew by assumption.
    eapply Atoms_new_ok; [exact Hels | | | exact Hpos].
    + unfold resolve_cell, is_falsy_num. rewrite Reqb_false by exact Hx.
      reflexivity.
    + apply Hi; try assumption. unfold falsy_cell, is_falsy_num.
      apply Reqb_false, Hx.
Qed.

(** X7.  Scaled positions round-trip: on a cell of three rows of three
    numbers with non-zero determinant, constructing with [scaled = true] from
    at least one fractional position stores each position times the cell, and
    [get_scaled_positions] gives the fractional positions back.  With no
    position (and no element) the construction fails: [mjs.multiply] refuses
    the empty array. *)
Theorem Atoms_new_scaled_roundtrip :
  forall (elems : list jsval) (ps : list vec) (r0 r1 r2 : vec)
         (inf : option (list (string * jsval))) (tolerant : bool)
         (els : list (jsval * jsval)),
    mapM (resolve_elem getElement getAtomic tolerant) elems = Ok els ->
    List.length ps = List.length elems ->
    Forall (fun p => List.length p = 3%nat) ps ->
    is_3x3 [r0; r1; r2] = true ->
    det3 [r0; r1; r2] <> 0 ->
    (ps <> [] ->
     exists a,
       Atoms_new getElement getAtomic elems (map of_vec ps)
         (CellArr [RowArr r0; RowArr r1; RowArr r2]) inf true tolerant = Ok a
       /\ get_positions a = Some (map of_vec (mat_mul ps [r0; r1; r2]))
       /\ get_scaled_positions a = Ok ps)
    /\
    (ps = [] ->
     Atoms_new getElement getAtomic elems (map of_vec ps)
       (CellArr [RowArr r0; RowArr r1; RowArr r2]) inf true tolerant
     = Err MathError).
Proof.
  intros elems ps r0 r1 r2 inf tolerant els Hels Hlen Hps H3 Hd.
  destruct (inv_spec H3 Hd) as (icm & Hinv & Hic3 & Hrt).
  assert (Hl : List.length r0 = 3%nat /\ List.length r1 = 3%nat
               /\ List.length r2 = 3%nat).
  { destruct (is_3x3_inv _ H3)
      as (a0 & a1 & a2 & b0 & b1 & b2 & c0 & c1 & c2 & E).
    injection E as -> -> ->. auto. }
  destruct Hl as (L0 & L1 & L2).
  assert (Hc : resolve_cell (CellArr [RowArr r0; RowArr r1; RowArr r2])
               = Ok (Some [Some r0; Some r1; Some r2], [true; true; true])).
  { unfold resolve_cell. cbn [List.length Nat.eqb negb bind seq combine mapM
                               fst snd resolve_row].
    rewrite L0, L1, L2. reflexivity. }
  assert (Hi : resolve_inv_cell (CellArr [RowArr r0; RowArr r1; RowArr r2])
                 (Some [Some r0; Some r1; Some r2]) = Ok (Some icm)).
  { unfold resolve_inv_cell. cbn [falsy_cell full_rows]. rewrite Hinv.
    reflexivity. }
  assert (Hcheck : check_rows (List.length (map of_vec ps) =? List.length elems)%nat
                     (map of_vec ps) = Ok true).
  { unfold of_vec. rewrite <- (map_map (map JNum) JArr), check_rows_arrays.
    rewrite !length_map, Hlen, Nat.eqb_refl. cbn [andb]. f_equal.
    apply forallb_forall. intros r Hr. apply in_map_iff in Hr.
    destruct Hr as (p & <- & Hp). rewrite length_map.
    rewrite Forall_forall in Hps. apply Nat.eqb_eq, Hps, Hp. }
  assert (Hvec : mapM to_vec (map of_vec ps) = Ok ps).
  { clear. induction ps as [|p ps IH]; [reflexivity |].
    cbn [map mapM]. rewrite IH.
    assert (Hp : to_vec (of_vec p) = Ok p).
    { unfold of_vec, to_vec. induction p as [|x p IHp]; [reflexivity |].
      cbn [map mapM to_number bind]. rewrite IHp. reflexivity. }
    rewrite Hp. reflexivity. }
  destruct (mapM_ok_nth _ _ Hels) as [Hlen' _].
  assert (Hrun : Atoms_new getElement getAtomic elems (map of_vec ps)
                   (CellArr [RowArr r0; RowArr r1; RowArr r2]) inf true tolerant
                 = (scaled <- multiply ps [r0; r1; r2] ;;
                    a <- set_array "positions" (map of_vec scaled)
                           {| _arrays := [("symbols", map fst els);
                                          ("numbers", map snd els)];
                              _N := List.length (map fst els);
                              _pbc := [true; true; true];
                              _inv_cell := Some icm;
                              _cell := Some [Some r0; Some r1; Some r2];
                              info := [] |} ;;
                    Ok {| _arrays := _arrays a; _N := _N a; _pbc := _pbc a;
                          _inv_cell := _inv_cell a; _cell := _cell a;
                          info := match inf with Some i => i | None => [] end |})).
  { unfold Atoms_new. rewrite Hels. cbn [bind]. rewrite Hc. cbn [bind].
    rewrite Hi. cbn [bind].
    rewrite (length_map fst), Hlen', Hcheck. cbn [bind negb].
    rewrite Hvec. cbn [bind full_rows of_option].
    destruct (multiply ps [r0; r1; r2]); reflexivity. }
  split.
  - intro Hne. rewrite Hrun.
    destruct ps as [|p0 ps']; [contradiction |].
    cbn [multiply bind]. set (ps := p0 :: ps') in *.
    eexists. split; [| split].
    + unfold set_array, mat_mul. cbn [_N].
      rewrite !length_map, Hlen', Hlen, Nat.eqb_refl. cbn [negb bind].
      reflexivity.
    + unfold get_positions, get_array. cbn [_arrays]. apply js_get_set_same.
    + unfold get_scaled_positions, get_array. cbn [_arrays _inv_cell].
      rewrite js_get_set_same. cbn [of_option bind].
      clear - Hps Hic3 Hrt L0 L1 L2.
      induction Hps as [|p ps Hp _ IH]; [reflexivity |].
      cbn [mat_mul map mapM].
      assert (Hpm : List.length (vec_mat p [r0; r1; r2]) = 3%nat).
      { unfold vec_mat. rewrite length_map, length_seq. exact L0. }
      rewrite (scaled_position_vec_mat _ _ Hic3 Hpm). cbn [bind].
      rewrite IH. cbn [bind].
      rewrite (proj1 (Hrt p Hp)). reflexivity.
  - intros ->. rewrite Hrun. reflexivity.
Qed.

End CellForms.

(** X5 at [new Atoms(['C'], [[0,0,0]], [1, 2, 3])]. *)
Lemma Atoms_new_orthorhombic_witness :
  exists a,
    Atoms_new table_getElement table_getAtomic [JStr "C"]
      [JArr [JNum 0; JNum 0; JNum 0]] (CellArr [RowNum 1; RowNum 2; RowNum 3])
      None false false = Ok a
    /\ get_cell a = Some [Some [1; 0; 0]; Some [0; 2; 0]; Some [0; 0; 3]]
    /\ get_inv_cell a = Some [[1 / 1; 0; 0]; [0; 1 / 2; 0]; [0; 0; 1 / 3]].
Proof.
  eexists. split.
  - apply (proj1 (@Atoms_new_orthorhombic table_getElement table_getAtomic
                    [JStr "C"] [JArr [JNum 0; JNum 0; JNum 0]] None false
                    [(JStr "C", JNum 6)] 1 2 3 eq_refl eq_refl
                    ltac:(lra) ltac:(lra) ltac:(lra))).
  - split; reflexivity.
Defined.

(** X7 at the construction of the test suite: fractional [[0.5, 0.5, 0]] in
    the cell [[1,1,0],[0,3,0],[0,0,1]]. *)
Lemma Atoms_new_scaled_roundtrip_witness :
  exists a,
    Atoms_new table_getElement table_getAtomic [JStr "C"]
      (map of_vec [[1 / 2; 1 / 2; 0]])
      (CellArr [RowArr [1; 1; 0]; RowArr [0; 3; 0]; RowArr [0; 0; 1]])
      (Some []) true false = Ok a
    /\ get_positions a
       = Some (map of_vec (mat_mul [[1 / 2; 1 / 2; 0]]
                                   [[1; 1; 0]; [0; 3; 0]; [0; 0; 1]]))
    /\ get_scaled_positions a = Ok [[1 / 2; 1 / 2; 0]].
Proof.
  apply (@Atoms_new_scaled_roundtrip table_getElement table_getAtomic
           [JStr "C"] [[1 / 2; 1 / 2; 0]] [1; 1; 0] [0; 3; 0] [0; 0; 1]
           (Some []) false [(JStr "C", JNum 6)]).
  - reflexivity.
  - reflexivity.
  - repeat constructor.
  - reflexivity.
  - unfold det3, row, idx. simpl. lra.
  - discriminate.
Defined.

(** X9.  [get_scaled_positions] on a structure without inverse cell (no
    cell, or partial periodicity): with at least one atom it fails with a
    [TypeError], on reading [ic[0]] of [null]; with no atom it returns the
    empty array. *)
Theorem get_scaled_positions_aperiodic :
  forall (a : Atoms) (pos : list jsval),
    get_inv_cell a = None ->
    get_array "positions" a = Some pos ->
    get_scaled_positions a
    = match pos with [] => Ok [] | _ :: _ => Err TypeError end.
Proof.
  intros a pos Hic Hpos. unfold get_scaled_positions.
  unfold get_inv_cell, deepClone in Hic. rewrite Hpos, Hic.
  destruct pos; reflexivity.
Qed.

(** X9 on the partially periodic structure
    [new Atoms(['C'], [[0,0,0]], [1, null, 1])]. *)
Lemma get_scaled_positions_aperiodic_witness :
  get_scaled_positions
    {| _arrays := [("symbols", [JStr "C"]); ("numbers", [JNum 6]);
                   ("positions", [JArr [JNum 0; JNum 0; JNum 0]])];
       _N := 1;
       _pbc := [true; false; true];
       _inv_cell := None;
       _cell := Some [Some [1; 0; 0]; None; Some [0; 0; 1]];
       info := [] |}
  = Err TypeError.
Proof.
  apply (@get_scaled_positions_aperiodic _ [JArr [JNum 0; JNum 0; JNum 0]]);
    reflexivity.
Defined.

(** ** Cell geometry *)

(** What [cellToCellpar] answers for the angle between two rows [p] and
    [q], in degrees: when the product of their lengths is above [1e-16] and
    the rows are not parallel, the angle lies strictly between 0 and 180 and
    its cosine is the dot product of the rows over the product of their
    lengths; when the product of the lengths is not above [1e-16], it is
    90. *)
Definition angle_spec (p q : vec) (deg : R) : Prop :=
  (1e-16 < norm p * norm q -> Rabs (dot p q) < norm p * norm q ->
   0 < deg < 180 /\ cos (degToRad deg) = dot p q / (norm p * norm q))
  /\ (~ 1e-16 < norm p * norm q -> deg = 90).

Lemma degToRad_radToDeg (x : R) : degToRad (radToDeg x) = x.
Proof. unfold radToDeg, degToRad. field. apply PI_neq0. Qed.

Lemma acos_inside (x : R) : -1 < x < 1 -> 0 < acos x < PI.
Proof.
  intro Hx. pose proof (acos_bound x) as [H0 H1].
  assert (Hc : cos (acos x) = x) by (apply cos_acos; lra).
  split.
  - destruct H0 as [H0 | H0]; [exact H0 |].
    rewrite <- H0, cos_0 in Hc. lra.
  - destruct H1 as [H1 | H1]; [exact H1 |].
    rewrite H1, cos_PI in Hc. lra.
Qed.

Lemma angle_between_spec (p q : vec) :
  angle_spec p q (radToDeg (angle_between (norm p * norm q) (dot p q))).
Proof.
  unfold angle_spec, angle_between.
  generalize (norm p * norm q) as ll. generalize (dot p q) as d.
  intros d ll. split.
  - intros Hll Habs. rewrite (Rltb_true Hll).
    assert (Hpos : 0 < ll) by lra.
    assert (Hx : -1 < d / ll < 1).
    { apply Rabs_def2 in Habs. destruct Habs as [Hlt Hgt].
      assert (E : d / ll * ll = d) by (field; lra).
      split.
      - apply Rmult_lt_reg_r with ll; [exact Hpos |]. rewrite E. lra.
      - apply Rmult_lt_reg_r with ll; [exact Hpos |]. rewrite E. lra. }
    destruct (acos_inside Hx) as [H0 H1].
    rewrite degToRad_radToDeg. split; [| apply cos_acos; lra].
    pose proof PI_RGT_0 as HPI. unfold radToDeg. split.
    + apply Rmult_lt_0_compat; [lra | apply Rinv_0_lt_compat; exact HPI].
    + apply Rmult_lt_reg_r with PI; [exact HPI |].
      replace (acos (d / ll) * 180 / PI * PI)
        with (acos (d / ll) * 180) by (field; lra).
      lra.
  - intro Hn. rewrite (Rltb_false Hn). unfold radToDeg. field. apply PI_neq0.
Qed.

(** X10.  On a cell of three rows [cellToCellpar] returns the Euclidean
    lengths of the rows and three angles in degrees, the first between the
    third and the second row, the second between the first and the third, the
    third between the second and the first: for two rows that are not
    parallel and whose lengths have a product above [1e-16] the angle lies
    strictly between 0 and 180 degrees and its cosine is the dot product of
    the rows over the product of their lengths (in exact arithmetic); for
    two rows whose lengths have a product not above [1e-16] it is 90.  With
    [radians] the same angles are returned in radians. *)
Theorem cellToCellpar_angles :
  forall u v w : vec,
    exists al be ga,
      cellToCellpar [u; v; w] false = ([norm u; norm v; norm w], [al; be; ga])
      /\ cellToCellpar [u; v; w] true
         = ([norm u; norm v; norm w], map degToRad [al; be; ga])
      /\ angle_spec w v al /\ angle_spec u w be /\ angle_spec v u ga.
Proof.
  intros u v w. rewrite cellToCellpar_rows. do 3 eexists.
  split; [reflexivity |]. split.
  - cbn [map]. rewrite !degToRad_radToDeg. reflexivity.
  - split; [| split]; apply angle_between_spec.
Qed.

(** X10 at the cell [[1,0,0],[1,1,0],[0,0,1]]: the angle between the
    second and the first row has cosine [1 / sqrt 2]. *)
Lemma cellToCellpar_angles_witness :
  exists al be ga,
    cellToCellpar [[1; 0; 0]; [1; 1; 0]; [0; 0; 1]] false
    = ([norm [1; 0; 0]; norm [1; 1; 0]; norm [0; 0; 1]], [al; be; ga])
    /\ 0 < ga < 180
    /\ cos (degToRad ga) = 1 / sqrt 2.
Proof.
  destruct (cellToCellpar_angles [1; 0; 0] [1; 1; 0] [0; 0; 1])
    as (al & be & ga & E & _ & _ & _ & [Hga _]).
  exists al, be, ga. split; [exact E |].
  assert (N2 : norm [1; 1; 0] = sqrt 2).
  { unfold norm. f_equal. simpl. ring. }
  assert (S2 : 1 < sqrt 2).
  { rewrite <- sqrt_1 at 1. apply sqrt_lt_1; lra. }
  rewrite N2, norm_ex in Hga.
  assert (D : dot [1; 1; 0] [1; 0; 0] = 1) by (simpl; ring).
  rewrite D in Hga.
  destruct Hga as [Hr Hc]; [lra | rewrite Rabs_R1; lra |].
  split; [exact Hr |]. rewrite Hc. f_equal. ring.
Defined.

Lemma inv_mul (m : mat) :
  is_3x3 m = true -> det3 m <> 0 ->
  exists icm, inv m = Ok icm /\ mat_mul m icm = I3 /\ mat_mul icm m = I3.
Proof.
  intros H3 Hd.
  destruct (is_3x3_inv _ H3)
    as (a0 & a1 & a2 & b0 & b1 & b2 & c0 & c1 & c2 & ->).
  unfold inv. rewrite H3. cbn [negb]. rewrite Reqb_false by exact Hd.
  eexists. split; [reflexivity |].
  unfold det3, row, idx in Hd. simpl in Hd.
  unfold det3, mat_mul, vec_mat, col, row, idx, I3. simpl.
  split; vec_eq ltac:(field; exact Hd).
Qed.

(** The determinant of the cell built from lengths and angles. *)
Lemma cellparToCell_det (a b c al be ga : R) :
  0 <= c -> 0 < ga < 180 ->
  unrounded al -> unrounded be -> unrounded ga ->
  0 <= gram al be ga ->
  det3 (cellparToCell ([a; b; c], [al; be; ga]) None None false)
  = a * b * c * sqrt (gram al be ga).
Proof.
  intros Hc Hga Ual Ube Uga Hgram.
  rewrite cellparToCell_canonical by assumption.
  unfold canonical_cell. cbv zeta.
  set (ca := cos (degToRad al)). set (cb := cos (degToRad be)).
  set (cg := cos (degToRad ga)). set (sg := sin (degToRad ga)).
  assert (Hsg : 0 < sg).
  { unfold sg. destruct (degToRad_range Hga). apply sin_gt_0; assumption. }
  assert (Hrad : sqrt (c * c - c * cb * (c * cb)
                       - c * (ca - cb * cg) / sg * (c * (ca - cb * cg) / sg))
                 = c * sqrt (gram al be ga) / sg).
  { unfold ca, cb, cg, sg. rewrite radicand_gram by (fold sg; lra).
    fold sg. pose proof (sqrt_pos (gram al be ga)) as Hs.
    pose proof (sqrt_sqrt _ Hgram) as Hss.
    apply sqrt_lem_1.
    - apply Rmult_le_pos.
      + apply Rmult_le_pos; [nra | exact Hgram].
      + left. apply Rinv_0_lt_compat. nra.
    - apply Rmult_le_pos.
      + apply Rmult_le_pos; assumption.
      + left. apply Rinv_0_lt_compat. exact Hsg.
    - transitivity (c * c * (sqrt (gram al be ga) * sqrt (gram al be ga))
                    / (sg * sg)); [field; lra |].
      rewrite Hss. reflexivity. }
  unfold det3, row, idx. cbn [nth]. rewrite Hrad. field. lra.
Qed.

(** With non-zero lengths and a positive radicand the cell has an
    inverse. *)
Lemma cellparToCell_inverse (a b c al be ga : R) :
  a <> 0 -> b <> 0 -> 0 < c -> 0 < ga < 180 ->
  unrounded al -> unrounded be -> unrounded ga ->
  0 < gram al be ga ->
  exists ic,
    inv (cellparToCell ([a; b; c], [al; be; ga]) None None false) = Ok ic
    /\ mat_mul (cellparToCell ([a; b; c], [al; be; ga]) None None false) ic
       = I3
    /\ mat_mul ic (cellparToCell ([a; b; c], [al; be; ga]) None None false)
       = I3.
Proof.
  intros Ha Hb Hc Hga Ual Ube Uga Hpos. apply inv_mul.
  - apply cellparToCell_default_3x3.
  - rewrite cellparToCell_det by (try assumption; lra).
    pose proof (sqrt_lt_R0 _ Hpos) as Hs.
    repeat apply Rmult_integral_contrapositive_currified; try assumption; lra.
Qed.

(** X11.  The cell built from lengths and angles in the default orientation
    has the volume of the crystallographic formula,
    [a b c sqrt(1 - cos^2 al - cos^2 be - cos^2 ga + 2 cos al cos be cos ga)],
    as its determinant; with non-zero lengths and a positive radicand
    [mjs.inv] succeeds on it and returns its inverse. *)
Theorem cellparToCell_volume :
  forall a b c al be ga : R,
    0 <= c -> 0 < ga < 180 ->
    unrounded al -> unrounded be -> unrounded ga ->
    0 <= gram al be ga ->
    det3 (cellparToCell ([a; b; c], [al; be; ga]) None None false)
    = a * b * c * sqrt (gram al be ga)
    /\
    (a <> 0 -> b <> 0 -> c <> 0 -> 0 < gram al be ga ->
     exists ic,
       inv (cellparToCell ([a; b; c], [al; be; ga]) None None false) = Ok ic
       /\ mat_mul (cellparToCell ([a; b; c], [al; be; ga]) None None false) ic
          = I3
       /\ mat_mul ic (cellparToCell ([a; b; c], [al; be; ga]) None None false)
          = I3).
Proof.
  intros a b c al be ga Hc Hga Ual Ube Uga Hgram.
  split; [apply cellparToCell_det; assumption |].
  intros Ha Hb Hc0 Hpos. apply cellparToCell_inverse; try assumption. lra.
Qed.

(** X11 at lengths 1, 2, 3 and angles of 60 degrees. *)
Lemma cellparToCell_volume_witness :
  det3 (cellparToCell ([1; 2; 3], [60; 60; 60]) None None false)
  = 1 * 2 * 3 * sqrt (gram 60 60 60).
Proof.
  apply (proj1 (@cellparToCell_volume 1 2 3 60 60 60 ltac:(lra) ltac:(lra)
                  unrounded_60 unrounded_60 unrounded_60
                  ltac:(rewrite gram_60; lra))).
Defined.

(** ** Extraction from a CIF block *)

(** The values of a data item, as [_extract_tags] returns them. *)
Definition item_values (x : item) : list CifValue :=
  match x with Single v => [v] | Loop vs => vs end.

(** [x] has the type of the anchor [x0] and, for loops, its length. *)
Definition same_shape (x0 x : item) : bool :=
  match x0, x with
  | Loop vs0, Loop vs => (List.length vs =? List.length vs0)%nat
  | Single _, Single _ => true
  | _, _ => false
  end.

(** The column [_extract_tags] returns for a tag, given the anchor. *)
Definition column (cb : cblock) (x0 : item) (tag : string)
  : option (list CifValue) :=
  match js_get tag cb with
  | Some x => if same_shape x0 x then Some (item_values x) else None
  | None => None
  end.

Lemma same_shape_refl (x0 : item) : same_shape x0 x0 = true.
Proof. destruct x0; simpl; [reflexivity | apply Nat.eqb_refl]. Qed.

Lemma same_shape_length (x0 x : item) :
  same_shape x0 x = true ->
  List.length (item_values x) = List.length (item_values x0).
Proof.
  destruct x0, x; simpl; try discriminate; [reflexivity |].
  intro H. apply Nat.eqb_eq, H.
Qed.

Lemma extract_tags_columns (cb : cblock) (t : string) (tags : list string)
    (x0 : item) :
  js_get t cb = Some x0 ->
  _extract_tags cb (t :: tags) = Some (map (column cb x0) (t :: tags)).
Proof.
  intro H. unfold _extract_tags. cbn [map]. rewrite H. f_equal.
  unfold column at 1. rewrite H, same_shape_refl. f_equal.
  - destruct x0; [reflexivity |]. rewrite Nat.eqb_refl. reflexivity.
  - rewrite map_map. apply map_ext. intro tag. unfold column.
    destruct (js_get tag cb) as [x|]; [| reflexivity].
    destruct x0, x; reflexivity.
Qed.

(** X12.  [_extract_tags] returns [null] exactly when the block lacks the
    first tag (or no tag is asked for); otherwise it returns one entry per
    tag, the first is the values of the first tag, and every entry that is
    not [null] holds the values of its tag and has as many of them as the
    first. *)
Theorem extract_tags_shape :
  forall (cb : cblock) (tags : list string),
    (_extract_tags cb tags = None
     <-> match tags with [] => True | t :: _ => js_get t cb = None end)
    /\
    (forall cols, _extract_tags cb tags = Some cols ->
       exists t x0 rest,
         tags = t :: rest /\ js_get t cb = Some x0
         /\ List.length cols = List.length tags
         /\ nth_error cols 0 = Some (Some (item_values x0))
         /\ forall j col, nth_error cols j = Some (Some col) ->
              List.length col = List.length (item_values x0)
              /\ exists tag x, nth_error tags j = Some tag
                               /\ js_get tag cb = Some x
                               /\ item_values x = col).
Proof.
  intros cb tags. destruct tags as [|t rest].
  - split; [split; auto |]. intros cols H. discriminate.
  - destruct (js_get t cb) as [x0|] eqn:E.
    + rewrite (@extract_tags_columns cb t rest x0 E). split.
      * split; intro H; discriminate.
      * intros cols H. injection H as <-. exists t, x0, rest.
        split; [reflexivity |]. split; [exact E |].
        split; [apply (length_map (column cb x0) (t :: rest)) |]. split.
        { cbn [map nth_error]. unfold column.
          rewrite E, same_shape_refl. reflexivity. }
        intros j col Hj.
        change (column cb x0 t :: map (column cb x0) rest)
          with (map (column cb x0) (t :: rest)) in Hj.
        rewrite nth_error_map in Hj.
        destruct (nth_error (t :: rest) j) as [tag|] eqn:Et; [| discriminate].
        cbn [option_map] in Hj. injection Hj as Hj. unfold column in Hj.
        destruct (js_get tag cb) as [x|] eqn:Ex; [| discriminate].
        destruct (same_shape x0 x) eqn:Es; [| discriminate].
        injection Hj as <-.
        split; [apply same_shape_length, Es |].
        exists tag, x. auto.
    + split.
      * split; [intros _; reflexivity |]. intros _.
        unfold _extract_tags. cbn [map]. rewrite E. reflexivity.
      * intros cols H. unfold _extract_tags in H. cbn [map] in H.
        rewrite E in H. discriminate.
Qed.

(** The inner loop over the tags: it reads entry [i] of every column
    present, so it succeeds when these are long enough; a field then holds
    entry [i] of the column of its tag, or what it held before when that
    column is [null]. *)
Lemma fill_fields_spec (i : nat) :
  forall (tags : list string) (vals : list (option (list CifValue))) (obj : site),
    List.length vals = List.length tags ->
    NoDup (map slice11 tags) ->
    (forall col, In (Some col) vals -> (i < List.length col)%nat) ->
    exists s,
      fill_fields tags vals i obj = Ok s
      /\ (forall k, ~ In k (map slice11 tags) -> js_get k s = js_get k obj)
      /\ (forall j tag, nth_error tags j = Some tag ->
            js_get (slice11 tag) s
            = match nth_error vals j with
              | Some (Some col) => option_map get_value (nth_error col i)
              | _ => js_get (slice11 tag) obj
              end).
Proof.
  induction tags as [|t tags IH]; intros vals obj Hlen Hnd Hcols.
  - exists obj. split; [reflexivity |]. split; [reflexivity |].
    intros [|j] tag Hj; discriminate.
  - destruct vals as [|v vals]; [discriminate |].
    cbn [map] in Hnd. inversion Hnd as [|? ? Hnotin Hnd']. subst.
    assert (Hstep : exists obj',
              match v with
              | None => Ok obj
              | Some col =>
                  x <- of_option TypeError (nth_error col i) ;;
                  Ok (js_set (slice11 t) (get_value x) obj)
              end = Ok obj'
              /\ (forall k, k <> slice11 t -> js_get k obj' = js_get k obj)
              /\ js_get (slice11 t) obj'
                 = match v with
                   | Some col => option_map get_value (nth_error col i)
                   | None => js_get (slice11 t) obj
                   end).
    { destruct v as [col|].
      - assert (Hi : (i < List.length col)%nat)
          by (apply Hcols; left; reflexivity).
        destruct (nth_error col i) as [x|] eqn:Ex.
        + eexists. split; [reflexivity |]. split.
          * intros k Hk. apply js_get_set_other, Hk.
          * apply js_get_set_same.
        + apply nth_error_None in Ex. lia.
      - exists obj. auto. }
    destruct Hstep as (obj' & Hobj' & Hother & Hsame).
    destruct (IH vals obj') as (s & Hs & Hkeep & Hget).
    + simpl in Hlen. lia.
    + exact Hnd'.
    + intros col Hc. apply Hcols. right. exact Hc.
    + exists s. split; [cbn [fill_fields]; rewrite Hobj'; exact Hs |]. split.
      * intros k Hk. cbn [map] in Hk.
        rewrite Hkeep by (intro Hin; apply Hk; right; exact Hin).
        apply Hother. intro E. apply Hk. left. symmetry. exact E.
      * intros [|j] tag Hj; cbn [nth_error] in Hj |- *.
        { injection Hj as <-. rewrite (Hkeep _ Hnotin). exact Hsame. }
        rewrite (Hget _ _ Hj).
        assert (Hne : slice11 tag <> slice11 t).
        { intro E. apply Hnotin. rewrite <- E. apply in_map.
          apply nth_error_In with j. exact Hj. }
        destruct (nth_error vals j) as [[col|]|]; auto.
Qed.

Lemma NoDup_asite_fields : NoDup (map slice11 asite_tags).
Proof.
  repeat (constructor; [simpl; intuition discriminate |]). constructor.
Qed.

Lemma NoDup_atype_fields : NoDup (map slice11 (tl atype_tags)).
Proof.
  repeat (constructor; [simpl; intuition discriminate |]). constructor.
Qed.

Lemma column_length (cb : cblock) (x0 : item) (tags : list string)
    (col : list CifValue) :
  In (Some col) (map (column cb x0) tags) ->
  List.length col = List.length (item_values x0).
Proof.
  intro H. apply in_map_iff in H. destruct H as (tag & Hc & _).
  unfold column in Hc. destruct (js_get tag cb) as [x|]; [| discriminate].
  destruct (same_shape x0 x) eqn:Es; [| discriminate].
  injection Hc as <-. apply same_shape_length, Es.
Qed.

(** X13.  [_atom_sites] never fails.  It returns [null] when the block has
    no [_atom_site_label]; otherwise one site per label, and in site [i] the
    field of each tag is entry [i] of that tag when the block has it with the
    shape of the labels (a loop of the same length, or a single value with a
    single label), and [undefined] when the block lacks the tag or has it
    with another shape. *)
Theorem atom_sites_fields :
  forall cb : cblock,
    (js_get "_atom_site_label" cb = None -> _atom_sites cb = Ok None)
    /\
    (forall x0, js_get "_atom_site_label" cb = Some x0 ->
       exists sites,
         _atom_sites cb = Ok (Some sites)
         /\ List.length sites = List.length (item_values x0)
         /\ forall i s tag,
              nth_error sites i = Some s -> In tag asite_tags ->
              field (slice11 tag) s
              = match column cb x0 tag with
                | Some col => match nth_error col i with
                              | Some v => get_value v
                              | None => JUndef
                              end
                | None => JUndef
                end).
Proof.
  intro cb. split.
  - intro E. unfold _atom_sites, _extract_tags. cbn [asite_tags map].
    rewrite E. reflexivity.
  - intros x0 E. unfold _atom_sites, asite_tags.
    rewrite (@extract_tags_columns cb _ _ x0 E). fold asite_tags.
    assert (Hbase : nth 0 (map (column cb x0) asite_tags) None
                    = Some (item_values x0)).
    { cbn [asite_tags map nth]. unfold column.
      rewrite E, same_shape_refl. reflexivity. }
    rewrite Hbase. cbn [of_option bind].
    set (n := List.length (item_values x0)).
    assert (Hfill : forall i, (i < n)%nat ->
              exists s,
                fill_fields asite_tags (map (column cb x0) asite_tags) i [] = Ok s
                /\ forall j tag, nth_error asite_tags j = Some tag ->
                     js_get (slice11 tag) s
                     = match nth_error (map (column cb x0) asite_tags) j with
                       | Some (Some col) => option_map get_value (nth_error col i)
                       | _ => js_get (slice11 tag) []
                       end).
    { intros i Hi.
      destruct (@fill_fields_spec i asite_tags
                  (map (column cb x0) asite_tags) [])
        as (s & Hs & _ & Hget).
      - apply length_map.
      - exact NoDup_asite_fields.
      - intros col Hc. rewrite (@column_length cb x0 _ col Hc). exact Hi.
      - exists s. auto. }
    destruct (@mapM_all_ok _ _
                (fun i => fill_fields asite_tags
                            (map (column cb x0) asite_tags) i [])
                (seq 0 n)) as [sites Hsites].
    { intros i Hi. apply in_seq in Hi.
      destruct (Hfill i) as (s & Hs & _); [lia |]. exists s. exact Hs. }
    rewrite Hsites. cbn [bind]. exists sites.
    destruct (mapM_ok_nth _ _ Hsites) as [Hlen Hnth].
    rewrite length_seq in Hlen.
    split; [reflexivity |]. split; [exact Hlen |].
    intros i s tag Hi Htag.
    assert (Hin : (i < n)%nat).
    { rewrite <- Hlen. apply nth_error_Some. congruence. }
    destruct (Hnth i i) as (s' & Hs' & Hf).
    { rewrite nth_error_seq. destruct (Nat.ltb_spec i n); [reflexivity | lia]. }
    rewrite Hi in Hs'. injection Hs' as <-.
    destruct (Hfill i Hin) as (s'' & Hs'' & Hget).
    rewrite Hf in Hs''. injection Hs'' as <-.
    destruct (In_nth_error _ _ Htag) as [j Hj].
    unfold field. rewrite (Hget j tag Hj).
    rewrite nth_error_map, Hj. cbn [option_map js_get].
    destruct (column cb x0 tag) as [col|]; [| reflexivity].
    destruct (nth_error col i); reflexivity.
Qed.

(** X13 on the molecule block: one site, labelled [H1], of type [H], at the
    origin, without fractional coordinates. *)
Lemma atom_sites_fields_witness :
  exists s,
    _atom_sites block_molecule = Ok (Some [s])
    /\ field "label" s = JStr "H1"
    /\ field "type_symbol" s = JStr "H"
    /\ field "Cartn_x" s = JNum 0
    /\ field "fract_x" s = JUndef.
Proof.
  destruct (proj2 (atom_sites_fields block_molecule) (Loop [str_value "H1"])
              eq_refl) as (sites & Hs & Hlen & Hf).
  destruct sites as [|s [|]]; try discriminate.
  exists s. split; [exact Hs |].
  split; [apply (Hf 0%nat s "_atom_site_label" eq_refl); simpl; tauto |].
  split; [apply (Hf 0%nat s "_atom_site_type_symbol" eq_refl); simpl; tauto |].
  split; [apply (Hf 0%nat s "_atom_site_Cartn_x" eq_refl); simpl; tauto |].
  apply (Hf 0%nat s "_atom_site_fract_x" eq_refl); simpl; tauto.
Defined.

Lemma js_in_set {A : Type} (k k' : string) (v : A) (o : list (string * A)) :
  js_in k (js_set k' v o) = (String.eqb k k' || js_in k o)%bool.
Proof.
  unfold js_in. destruct (String.eqb k k') eqn:E.
  - apply String.eqb_eq in E. subst k'. rewrite js_get_set_same. reflexivity.
  - rewrite js_get_set_other; [reflexivity |].
    intro E'. subst k'. rewrite String.eqb_refl in E. discriminate.
Qed.

(** The loop of [_atom_types] over the symbols numbered in [l]. *)
Lemma atom_types_fold (base : list CifValue)
    (vals : list (option (list CifValue))) :
  List.length vals = List.length (tl atype_tags) ->
  (forall col, In (Some col) vals -> List.length col = List.length base) ->
  forall (l : list nat) (acc0 : list (string * site)),
    (forall i, In i l -> (i < List.length base)%nat) ->
    exists r,
      fold_left
        (fun acc i =>
           atypes <- acc ;;
           x <- of_option TypeError (nth_error base i) ;;
           o <- fill_fields (tl atype_tags) vals i [] ;;
           Ok (js_set (text x) o atypes))
        l (Ok acc0) = Ok r
      /\ forall k, js_in k r = true
                   <-> js_in k acc0 = true
                       \/ exists i x, In i l /\ nth_error base i = Some x
                                      /\ text x = k.
Proof.
  intros Hlen Hcols. induction l as [|i l IH]; intros acc0 Hl.
  - exists acc0. split; [reflexivity |]. intro k. split; [auto |].
    intros [H | (i & x & [] & _)]. exact H.
  - assert (Hi : (i < List.length base)%nat) by (apply Hl; left; reflexivity).
    destruct (nth_error base i) as [x|] eqn:Ex;
      [| apply nth_error_None in Ex; lia].
    destruct (@fill_fields_spec i (tl atype_tags) vals [])
      as (o & Ho & _).
    + exact Hlen.
    + exact NoDup_atype_fields.
    + intros col Hc. rewrite (Hcols col Hc). exact Hi.
    + destruct (IH (js_set (text x) o acc0)) as (r & Hr & Hkeys).
      { intros j Hj. apply Hl. right. exact Hj. }
      exists r. split.
      * cbn [fold_left bind]. rewrite Ex. cbn [of_option bind].
        rewrite Ho. cbn [bind]. exact Hr.
      * intro k. rewrite Hkeys, js_in_set, orb_true_iff, String.eqb_eq.
        split.
        { intros [[-> | H] | (j & y & Hj & Hy & Hk)].
          - right. exists i, x. split; [left; reflexivity | auto].
          - left. exact H.
          - right. exists j, y. split; [right; exact Hj | auto]. }
        { intros [H | (j & y & [<- | Hj] & Hy & Hk)].
          - left. right. exact H.
          - left. left. rewrite Ex in Hy. injection Hy as <-. symmetry. exact Hk.
          - right. exists j, y. auto. }
Qed.

(** X14.  [_atom_types] never fails.  It returns [null] when the block has
    no [_atom_type_symbol]; otherwise an object whose keys are the texts of
    the symbols listed (a symbol listed twice gives one key). *)
Theorem atom_types_total :
  forall cb : cblock,
    (js_get "_atom_type_symbol" cb = None -> _atom_types cb = Ok None)
    /\
    (forall x0, js_get "_atom_type_symbol" cb = Some x0 ->
       exists atypes,
         _atom_types cb = Ok (Some atypes)
         /\ forall k, js_in k atypes = true
                      <-> In k (map text (item_values x0))).
Proof.
  intro cb. split.
  - intro E. unfold _atom_types, _extract_tags. cbn [atype_tags map].
    rewrite E. reflexivity.
  - intros x0 E. unfold _atom_types.
    unfold atype_tags at 1.
    rewrite (@extract_tags_columns cb _ _ x0 E).
    cbn [map nth tl]. unfold column at 1.
    rewrite E, same_shape_refl. cbn [of_option bind].
    destruct (@atom_types_fold (item_values x0)
                (map (column cb x0) (tl atype_tags)))
      with (l := seq 0 (List.length (item_values x0)))
           (acc0 := @nil (string * site))
      as (r & Hr & Hkeys).
    + apply length_map.
    + intros col Hc. apply (@column_length cb x0 _ col Hc).
    + intros i Hi. apply in_seq in Hi. lia.
    + exists r. split.
      * cbn [atype_tags tl map] in Hr |- *. rewrite Hr. reflexivity.
      * intro k. rewrite Hkeys. split.
        { intros [H | (i & x & _ & Hx & <-)]; [discriminate |].
          apply in_map. apply nth_error_In with i. exact Hx. }
        { intro H. right. apply in_map_iff in H.
          destruct H as (x & Hk & Hin).
          destruct (In_nth_error _ _ Hin) as [i Hi].
          exists i, x. split; [| auto].
          apply in_seq. split; [lia |]. simpl.
          apply nth_error_Some. congruence. }
Qed.

(** ** The symmetry expansion *)

Section ExpansionProperties.

Variable mod1 : vec -> vec.
Variable shortestPeriodicLength : vec -> R.

(** The loop over the operations, from any list of positions kept so far:
    the list only grows, by images of the site, at most one per operation,
    and the image of every operation ends up kept or within [symtol] of a
    position kept. *)
Lemma expand_fold_shape (symtol : R) (p0 : vec) :
  forall (ops : list symop) (allp : list vec),
    exists rest,
      fold_left (expand_step mod1 shortestPeriodicLength symtol p0) ops allp
      = allp ++ rest
      /\ (List.length rest <= List.length ops)%nat
      /\ (forall p, In p rest ->
            exists op, In op ops /\ p = image mod1 p0 op)
      /\ (forall op, In op ops ->
            In (image mod1 p0 op) (allp ++ rest)
            \/ exists q, In q (allp ++ rest)
                         /\ periodic_distance mod1 shortestPeriodicLength (image mod1 p0 op) q < symtol).
Proof.
  induction ops as [|op ops IH]; intro allp.
  - exists []. rewrite app_nil_r. split; [reflexivity |].
    split; [apply Nat.le_refl |].
    split; [intros p [] | intros op []].
  - cbn [fold_left]. unfold expand_step at 2.
    destruct (is_duplicate mod1 shortestPeriodicLength symtol
                (image mod1 p0 op) allp) eqn:E.
    + destruct (IH allp) as (rest & Hf & Hlen & Himg & Hcov).
      exists rest. split; [exact Hf |].
      split; [simpl; lia |]. split.
      * intros p Hp. destruct (Himg p Hp) as (op' & Hin & Heq).
        exists op'. split; [right; exact Hin | exact Heq].
      * intros op' [<- | Hin]; [| apply Hcov, Hin].
        right.
        apply (@is_duplicate_true mod1 shortestPeriodicLength) in E.
        destruct E as (q & Hq & Hlt). exists q.
        split; [apply in_or_app; left; exact Hq | exact Hlt].
    + destruct (IH (allp ++ [image mod1 p0 op]))
        as (rest & Hf & Hlen & Himg & Hcov).
      exists (image mod1 p0 op :: rest).
      rewrite <- app_assoc in Hf, Hcov. cbn [app] in Hf, Hcov.
      split; [exact Hf |]. split; [simpl; lia |]. split.
      * intros p [<- | Hp]; [exists op; split; [left |]; reflexivity |].
        destruct (Himg p Hp) as (op' & Hin & Heq).
        exists op'. split; [right; exact Hin | exact Heq].
      * intros op' [<- | Hin]; [| apply Hcov, Hin].
        left. apply in_or_app. right. left. reflexivity.
Qed.

(** The list kept for a site starts with the site and has at most one
    more entry per operation. *)
Lemma expand_site_shape (symtol : R) (symops : list symop) (p0 : vec) :
  exists rest,
    expand_site mod1 shortestPeriodicLength symtol symops p0 = p0 :: rest
    /\ (List.length rest <= List.length symops)%nat.
Proof.
  destruct (expand_fold_shape symtol p0 symops [p0]) as (rest & Hf & Hlen & _).
  exists rest. auto.
Qed.

(** X15.  The positions kept for a site start with the site itself; the
    others are candidates [mod1(rot.p0 + tr)] for operations [(rot, tr)] of
    the list, at most one per operation; and no candidate is lost: for every
    operation of the list the candidate [mod1(rot.p0 + tr)] is among the
    positions kept or at a distance
    [shortestPeriodicLength(mod1(candidate - q))] below [symtol] from a
    position [q] kept. *)
Theorem expand_site_covers :
  forall (symtol : R) (symops : list symop) (p0 : vec),
    exists rest,
      expand_site mod1 shortestPeriodicLength symtol symops p0 = p0 :: rest
      /\ (List.length rest <= List.length symops)%nat
      /\ (forall p, In p rest ->
            exists rot tr,
              In (rot, tr) symops /\ p = mod1 (vadd (mat_vec rot p0) tr))
      /\ (forall rot tr, In (rot, tr) symops ->
            In (mod1 (vadd (mat_vec rot p0) tr)) (p0 :: rest)
            \/ exists q,
                 In q (p0 :: rest)
                 /\ shortestPeriodicLength
                      (mod1 (vsub (mod1 (vadd (mat_vec rot p0) tr)) q))
                    < symtol).
Proof.
  intros symtol symops p0. unfold expand_site.
  destruct (expand_fold_shape symtol p0 symops [p0])
    as (rest & Hf & Hlen & Himg & Hcov).
  exists rest. cbn [app] in Hf, Hcov.
  split; [exact Hf |]. split; [exact Hlen |]. split.
  - intros p Hp. destruct (Himg p Hp) as ([rot tr] & Hin & ->).
    exists rot, tr. split; [exact Hin | reflexivity].
  - intros rot tr Hin. exact (Hcov (rot, tr) Hin).
Qed.

(** The three lists of [expand], index by index. *)
Lemma expand_flat_map (symtol : R) (symops : list symop) (fpos : list vec)
    (symbols labels : list jsval) :
  forall (l : list nat) (acc : list vec * list jsval * list jsval),
    fold_left
      (fun acc i =>
         let '(allfpos, allsyms, alllabs) := acc in
         let allp := expand_site mod1 shortestPeriodicLength symtol symops (nth i fpos []) in
         (allfpos ++ allp,
          allsyms ++ repeat (nth i symbols JUndef) (List.length allp),
          alllabs ++ repeat (nth i labels JUndef) (List.length allp)))
      l acc
    = (fst (fst acc)
         ++ flat_map (fun i => expand_site mod1 shortestPeriodicLength symtol symops (nth i fpos [])) l,
       snd (fst acc)
         ++ flat_map (fun i => repeat (nth i symbols JUndef)
                          (List.length (expand_site mod1 shortestPeriodicLength symtol symops (nth i fpos []))))
              l,
       snd acc
         ++ flat_map (fun i => repeat (nth i labels JUndef)
                          (List.length (expand_site mod1 shortestPeriodicLength symtol symops (nth i fpos []))))
              l).
Proof.
  induction l as [|i l IH]; intros [[a s] lb]; cbn [fold_left flat_map fst snd].
  - rewrite !app_nil_r. reflexivity.
  - rewrite IH. cbn [fst snd]. rewrite <- !app_assoc. reflexivity.
Qed.

(** Blocks of copies and blocks of repeated tags, laid side by side. *)
Lemma flat_map_blocks {A B C : Type} (F : nat -> list A) (g : nat -> B)
    (h : nat -> C) (da : A) (db : B) (dc : C) :
  forall (l : list nat) (k : nat),
    (k < List.length (flat_map F l))%nat ->
    exists i,
      In i l /\ In (nth k (flat_map F l) da) (F i)
      /\ nth k (flat_map (fun i => repeat (g i) (List.length (F i))) l) db = g i
      /\ nth k (flat_map (fun i => repeat (h i) (List.length (F i))) l) dc = h i.
Proof.
  induction l as [|i l IH]; intros k Hk; cbn [flat_map] in *.
  - simpl in Hk. lia.
  - destruct (Nat.lt_ge_cases k (List.length (F i))) as [Hlt | Hge].
    + exists i. split; [left; reflexivity |].
      rewrite !app_nth1 by (rewrite ?repeat_length; exact Hlt).
      split; [apply nth_In, Hlt |].
      split; apply nth_repeat_lt, Hlt.
    + rewrite length_app in Hk.
      destruct (IH (k - List.length (F i))%nat) as (j & Hj & Hin & Hg & Hh);
        [lia |].
      exists j. split; [right; exact Hj |].
      rewrite !app_nth2 by (rewrite ?repeat_length; exact Hge).
      rewrite !repeat_length. auto.
Qed.

Lemma flat_map_blocks_length {A B : Type} (F : nat -> list A) (g : nat -> B)
    (l : list nat) :
  List.length (flat_map (fun i => repeat (g i) (List.length (F i))) l)
  = List.length (flat_map F l).
Proof.
  induction l as [|i l IH]; cbn [flat_map]; [reflexivity |].
  rewrite !length_app, repeat_length, IH. reflexivity.
Qed.

Lemma flat_map_bounds {A : Type} (F : nat -> list A) (m : nat) (l : list nat) :
  (forall i, 1 <= List.length (F i) <= S m)%nat ->
  (List.length l <= List.length (flat_map F l) <= List.length l * S m)%nat.
Proof.
  intro H. induction l as [|i l IH]; cbn [flat_map List.length]; [lia |].
  rewrite length_app. specialize (H i). lia.
Qed.

(** X16.  After the expansion the lists of positions, symbols and labels
    have the same length, between the number of sites and that number times
    one plus the number of operations; the copy at each index is one of the
    positions kept for some site, and carries the symbol and the label of
    that site ([undefined] where the site has none). *)
Theorem expand_copies :
  forall (symtol : R) (symops : list symop) (fpos : list vec)
         (symbols labels : list jsval),
    exists allfpos allsyms alllabs,
      expand mod1 shortestPeriodicLength symtol symops fpos symbols labels
      = (allfpos, allsyms, alllabs)
      /\ List.length allsyms = List.length allfpos
      /\ List.length alllabs = List.length allfpos
      /\ (List.length fpos <= List.length allfpos
          <= List.length fpos * S (List.length symops))%nat
      /\ forall k, (k < List.length allfpos)%nat ->
           exists i,
             (i < List.length fpos)%nat
             /\ In (nth k allfpos [])
                  (expand_site mod1 shortestPeriodicLength symtol symops
                     (nth i fpos []))
             /\ nth k allsyms JUndef = nth i symbols JUndef
             /\ nth k alllabs JUndef = nth i labels JUndef.
Proof.
  intros symtol symops fpos symbols labels.
  pose proof (expand_flat_map symtol symops fpos symbols labels
                (seq 0 (List.length fpos)) ([], [], [])) as HE.
  cbn [fst snd app] in HE.
  set (F := fun i => expand_site mod1 shortestPeriodicLength symtol symops
                       (nth i fpos [])) in *.
  do 3 eexists. split; [exact HE |].
  split; [apply (flat_map_blocks_length F (fun i => nth i symbols JUndef)) |].
  split; [apply (flat_map_blocks_length F (fun i => nth i labels JUndef)) |].
  split.
  - pose proof (@flat_map_bounds _ F (List.length symops)
                  (seq 0 (List.length fpos))) as Hb.
    rewrite length_seq in Hb. apply Hb. intro i. unfold F.
    destruct (expand_site_shape symtol symops (nth i fpos []))
      as (rest & -> & Hlen).
    simpl. lia.
  - intros k Hk.
    destruct (@flat_map_blocks _ _ _ F (fun i => nth i symbols JUndef)
                (fun i => nth i labels JUndef) [] JUndef JUndef
                _ k Hk) as (i & Hi & Hin & Hs & Hl).
    exists i. apply in_seq in Hi.
    split; [lia |]. split; [exact Hin |]. split; [exact Hs | exact Hl].
Qed.

End ExpansionProperties.

(** ** The reader *)

Lemma js_get_None {A : Type} (k : string) (o : list (string * A)) :
  js_get k o = None <-> ~ In k (map fst o).
Proof.
  induction o as [|[k' v] o IH]; simpl.
  - split; [intros _ [] | reflexivity].
  - destruct (String.eqb k k') eqn:E.
    + apply String.eqb_eq in E. subst k'.
      split; [discriminate | intro H; exfalso; apply H; left; reflexivity].
    + rewrite IH. split.
      * intros H [Hk | Hk]; [| exact (H Hk)].
        subst k'. rewrite String.eqb_refl in E. discriminate.
      * intros H Hk. apply H. right. exact Hk.
Qed.

Lemma js_get_NoDup {A : Type} (k : string) (v : A) (o : list (string * A)) :
  NoDup (map fst o) -> In (k, v) o -> js_get k o = Some v.
Proof.
  induction o as [|[k' v'] o IH]; intros Hnd Hin; [contradiction |].
  simpl in Hnd. inversion Hnd as [|? ? Hnotin Hnd']. subst.
  simpl. destruct Hin as [E | Hin].
  - injection E as -> ->. rewrite String.eqb_refl. reflexivity.
  - destruct (String.eqb k k') eqn:E; [| apply IH; assumption].
    apply String.eqb_eq in E. subst k'. exfalso. apply Hnotin.
    apply (in_map fst) in Hin. exact Hin.
Qed.

Lemma js_set_fresh {A : Type} (k : string) (v : A) (o : list (string * A)) :
  ~ In k (map fst o) -> js_set k v o = o ++ [(k, v)].
Proof.
  induction o as [|[k' v'] o IH]; intro H; simpl; [reflexivity |].
  destruct (String.eqb k k') eqn:E.
  - apply String.eqb_eq in E. subst k'. exfalso. apply H. left. reflexivity.
  - rewrite IH; [reflexivity |]. intro Hk. apply H. right. exact Hk.
Qed.

(** A block is a structure when it has the tag [_atom_site_label]. *)
Definition has_sites (nb : string * cblock) : bool :=
  js_in "_atom_site_label" (snd nb).

(** The first loop of [readCif] keeps the blocks with atom sites, in the
    order of the document. *)
Lemma select_blocks_filter (cd : cifdict) :
  NoDup (map fst cd) -> select_blocks cd = filter has_sites cd.
Proof.
  intro Hnd. unfold select_blocks.
  assert (H : forall suf pre, cd = pre ++ suf ->
            fold_left
              (fun structs bname =>
                 match js_get bname cd with
                 | Some block =>
                     if js_in "_atom_site_label" block
                     then js_set bname block structs
                     else structs
                 | None => structs
                 end)
              (map fst suf) (filter has_sites pre)
            = filter has_sites cd).
  { induction suf as [|[n b] suf IH]; intros pre E.
    - rewrite app_nil_r in E. subst pre. reflexivity.
    - cbn [map fst fold_left].
      assert (Hget : js_get n cd = Some b).
      { apply js_get_NoDup; [exact Hnd |]. rewrite E.
        apply in_or_app. right. left. reflexivity. }
      rewrite Hget.
      assert (Hpre : filter has_sites (pre ++ [(n, b)])
                     = if js_in "_atom_site_label" b
                       then js_set n b (filter has_sites pre)
                       else filter has_sites pre).
      { rewrite filter_app. cbn [filter]. unfold has_sites at 2. cbn [snd].
        destruct (js_in "_atom_site_label" b); [| apply app_nil_r].
        rewrite js_set_fresh; [reflexivity |].
        intro Hin. apply in_map_iff in Hin.
        destruct Hin as ([n' b'] & Hn & Hin'). cbn [fst] in Hn. subst n'.
        apply filter_In in Hin'. destruct Hin' as [Hin' _].
        rewrite E, map_app in Hnd. apply NoDup_remove_2 in Hnd.
        apply Hnd. apply in_or_app. left.
        apply (in_map fst) in Hin'. exact Hin'. }
      rewrite <- Hpre. apply IH. rewrite E, <- app_assoc. reflexivity. }
  apply (H cd []). reflexivity.
Qed.

Section ReaderProperties.

Variable getElement : jsval -> option element.
Variable getAtomic : R -> option element.
Variable parseSymOp : string -> symop.
Variable interpretHallSymbol : item -> option (list symop).
Variable mod1 : vec -> vec.
Variable shortestPeriodicLength : vec -> R.
Variable StringToNumber : string -> option R.

(** What a successful run of the loop over the structures went through. *)
Lemma process_blocks_inv (symtol : R) (cd : cifdict) :
  forall (snames : list string) (cell : option mat)
         (structs : list (string * Atoms)),
    process_blocks getElement getAtomic parseSymOp interpretHallSymbol mod1
      shortestPeriodicLength StringToNumber symtol cd snames cell = Ok structs ->
    map fst structs = snames
    /\ forall sname a, In (sname, a) structs ->
         exists cb cell0 cell',
           js_get sname cd = Some cb
           /\ process_block getElement getAtomic parseSymOp interpretHallSymbol
                mod1 shortestPeriodicLength StringToNumber symtol cell0 cb
              = Ok (cell', a).
Proof.
  induction snames as [|sname rest IH]; intros cell structs H;
    cbn [process_blocks] in H.
  - injection H as <-. split; [reflexivity | intros ? ? []].
  - destruct (js_get sname cd) as [cb|] eqn:Eb; [| discriminate].
    cbn [of_option bind] in H.
    destruct (process_block _ _ _ _ _ _ _ symtol cell cb)
      as [[cell' a]|] eqn:Ep; [| discriminate].
    cbn [bind] in H.
    destruct (process_blocks _ _ _ _ _ _ _ symtol cd rest cell')
      as [structs'|] eqn:Er; [| discriminate].
    cbn [bind] in H. injection H as <-.
    destruct (IH _ _ Er) as [Hn Hs].
    split; [cbn [map fst]; rewrite Hn; reflexivity |].
    intros sname' a' [E | Hin]; [| apply Hs, Hin].
    injection E as <- <-. exists cb, cell, cell'. auto.
Qed.

(** X17.  On a document whose block names are distinct, [readCif] returns
    one structure per block that has the tag [_atom_site_label], under the
    name of the block and in the order in which the parsed document
    enumerates its blocks, and nothing for the other blocks; each structure
    is what the loop body makes of its block. *)
Theorem readCif_names :
  forall (cd : cifdict) (symtol : option R) (structs : list (string * Atoms)),
    NoDup (map fst cd) ->
    readCif_parsed getElement getAtomic parseSymOp interpretHallSymbol mod1
      shortestPeriodicLength StringToNumber cd symtol = Ok structs ->
    map fst structs = map fst (filter has_sites cd)
    /\ forall sname a, In (sname, a) structs ->
         exists cb cell0 cell',
           In (sname, cb) cd /\ has_sites (sname, cb) = true
           /\ process_block getElement getAtomic parseSymOp interpretHallSymbol
                mod1 shortestPeriodicLength StringToNumber
                (match symtol with Some t => t | None => 1e-3 end) cell0 cb
              = Ok (cell', a).
Proof.
  intros cd symtol structs Hnd H. unfold readCif_parsed in H.
  rewrite (@select_blocks_filter cd Hnd) in H.
  destruct (@process_blocks_inv _ _ _ _ _ H) as [Hn Hs].
  split; [exact Hn |].
  intros sname a Hin. destruct (Hs sname a Hin) as (cb & cell0 & cell' & Hb & Hp).
  exists cb, cell0, cell'.
  assert (Hname : In sname (map fst (filter has_sites cd))).
  { rewrite <- Hn. apply (in_map fst) in Hin. exact Hin. }
  apply in_map_iff in Hname. destruct Hname as ([n b] & Hnb & Hf).
  cbn [fst] in Hnb. subst n. apply filter_In in Hf. destruct Hf as [Hcd Hhas].
  rewrite (@js_get_NoDup _ _ _ _ Hnd Hcd) in Hb. injection Hb as <-.
  auto.
Qed.

(** X18.  [readCif] is all or nothing: when the loop body fails on one
    block with atom sites, whatever cell the earlier blocks have left behind,
    the whole call fails, and no structure of the other blocks is
    returned. *)
Theorem readCif_block_failure :
  forall (cd : cifdict) (symtol : option R) (sname : string) (cb : cblock),
    NoDup (map fst cd) ->
    In (sname, cb) cd ->
    js_in "_atom_site_label" cb = true ->
    (forall cell0, exists e,
        process_block getElement getAtomic parseSymOp interpretHallSymbol
          mod1 shortestPeriodicLength StringToNumber
          (match symtol with Some t => t | None => 1e-3 end) cell0 cb
        = Err e) ->
    exists e,
      readCif_parsed getElement getAtomic parseSymOp interpretHallSymbol mod1
        shortestPeriodicLength StringToNumber cd symtol = Err e.
Proof.
  intros cd symtol sname cb Hnd Hin Hhas Hfail.
  destruct (readCif_parsed getElement getAtomic parseSymOp interpretHallSymbol
              mod1 shortestPeriodicLength StringToNumber cd symtol)
    as [structs|e] eqn:H; [| exists e; reflexivity].
  exfalso. unfold readCif_parsed in H.
  rewrite (@select_blocks_filter cd Hnd) in H.
  destruct (@process_blocks_inv _ _ _ _ _ H) as [Hn Hs].
  assert (Hname : In sname (map fst structs)).
  { rewrite Hn. apply in_map_iff. exists (sname, cb).
    split; [reflexivity |]. apply filter_In. split; [exact Hin | exact Hhas]. }
  apply in_map_iff in Hname. destruct Hname as ([n a] & Hna & Hin').
  cbn [fst] in Hna. subst n.
  destruct (Hs sname a Hin') as (cb' & cell0 & cell' & Hb & Hp).
  rewrite (@js_get_NoDup _ _ _ _ Hnd Hin) in Hb. injection Hb as <-.
  destruct (Hfail cell0) as [e He]. rewrite He in Hp. discriminate.
Qed.

End ReaderProperties.

(** A step of a computation that succeeded. *)
Tactic Notation "bind_ok" hyp(H) ident(v) ident(E) :=
  match type of H with
  | bind ?x _ = Ok _ =>
      destruct x as [v|] eqn:E; [cbn [bind] in H | discriminate H]
  end.

Section ExpansionKeeps.

Variable mod1 : vec -> vec.
Variable shortestPeriodicLength : vec -> R.

(** Every site keeps at least one copy, so its symbol survives the
    expansion. *)
Lemma expand_keeps_symbol (symtol : R) (symops : list symop) (fpos : list vec)
    (symbols labels : list jsval) (i : nat) :
  (i < List.length fpos)%nat ->
  In (nth i symbols JUndef)
     (snd (fst (expand mod1 shortestPeriodicLength symtol symops fpos
                  symbols labels))).
Proof.
  intro Hi.
  pose proof (expand_flat_map mod1 shortestPeriodicLength symtol symops fpos
                symbols labels (seq 0 (List.length fpos)) ([], [], [])) as HE.
  cbn [fst snd app] in HE.
  assert (E : expand mod1 shortestPeriodicLength symtol symops fpos
                symbols labels = _) by exact HE.
  rewrite E. cbn [fst snd]. apply in_flat_map. exists i.
  split; [apply in_seq; lia |].
  destruct (expand_site_shape mod1 shortestPeriodicLength symtol symops
              (nth i fpos [])) as (rest & -> & _).
  left. reflexivity.
Qed.

End ExpansionKeeps.

Lemma Atoms_new_arrays_ok (getElement : jsval -> option element)
    (getAtomic : R -> option element) (elems positions : list jsval)
    (cell : cellarg) (inf : option (list (string * jsval)))
    (scaled tolerant : bool) (a : Atoms) :
  Atoms_new getElement getAtomic elems positions cell inf scaled tolerant = Ok a ->
  arrays_ok a.
Proof.
  intro H.
  destruct (@Atoms_new_inv _ _ _ _ _ _ _ _ _ H)
    as (els & c & pbc & ic & pos & Hels & _ & _ & _ & _ & Hl & ->).
  destruct (mapM_ok_nth _ _ Hels) as [Hlen _].
  intros name arr. unfold get_array. cbn [_arrays _N js_get].
  destruct (String.eqb name "symbols");
    [intro E; injection E as <-; rewrite length_map; exact Hlen |].
  destruct (String.eqb name "numbers");
    [intro E; injection E as <-; rewrite length_map; exact Hlen |].
  destruct (String.eqb name "positions");
    [intro E; injection E as <-; exact Hl | discriminate].
Qed.

Lemma set_array_inv (name : string) (arr : list jsval) (a a' : Atoms) :
  set_array name arr a = Ok a' ->
  List.length arr = _N a
  /\ a' = {| _arrays := js_set name arr (_arrays a); _N := _N a;
             _pbc := _pbc a; _inv_cell := _inv_cell a; _cell := _cell a;
             info := info a |}.
Proof.
  unfold set_array.
  destruct (List.length arr =? _N a)%nat eqn:E; cbn [negb]; [| discriminate].
  intro H. injection H as <-. split; [apply Nat.eqb_eq, E | reflexivity].
Qed.

Lemma set_array_arrays_ok (name : string) (arr : list jsval) (a a' : Atoms) :
  set_array name arr a = Ok a' -> arrays_ok a -> arrays_ok a'.
Proof.
  intros H Hok. destruct (set_array_inv _ _ _ H) as [Hl ->].
  intros n arr'. unfold get_array. cbn [_arrays _N].
  destruct (String.eqb n name) eqn:E.
  - apply String.eqb_eq in E. subst n. rewrite js_get_set_same.
    intro E'. injection E' as <-. exact Hl.
  - rewrite js_get_set_other
      by (intro E'; subst n; rewrite String.eqb_refl in E; discriminate).
    apply Hok.
Qed.

Lemma multiply_inv (ps : list vec) (m : mat) (r : list vec) :
  multiply ps m = Ok r -> ps <> [] /\ r = mat_mul ps m.
Proof.
  destruct ps as [|p ps]; [discriminate |].
  unfold multiply. intro H. injection H as <-. split; [discriminate | reflexivity].
Qed.

(** The cell variable of the reader as the constructor resolves it. *)
Lemma resolve_cellarg_of (m : mat) :
  is_3x3 m = true ->
  resolve_cell (cellarg_of (Some m)) = Ok (Some (map Some m), [true; true; true])
  /\ resolve_inv_cell (cellarg_of (Some m)) (Some (map Some m))
     = (ic <- inv m ;; Ok (Some ic)).
Proof.
  intro H3.
  destruct (is_3x3_inv _ H3)
    as (a0 & a1 & a2 & b0 & b1 & b2 & c0 & c1 & c2 & ->).
  split; reflexivity.
Qed.

(** The cell variable holds no cell or three rows of three numbers. *)
Definition cell_var_ok (cell : option mat) : Prop :=
  match cell with None => True | Some c => is_3x3 c = true end.

Section BlockResults.

Variable getElement : jsval -> option element.
Variable getAtomic : R -> option element.
Variable parseSymOp : string -> symop.
Variable interpretHallSymbol : item -> option (list symop).
Variable mod1 : vec -> vec.
Variable shortestPeriodicLength : vec -> R.
Variable StringToNumber : string -> option R.

(** What a successful turn of the loop went through. *)
Lemma process_block_inv (symtol : R) (cell0 cell' : option mat) (cb : cblock)
    (a : Atoms) :
  process_block getElement getAtomic parseSymOp interpretHallSymbol mod1
    shortestPeriodicLength StringToNumber symtol cell0 cb = Ok (cell', a) ->
  exists sites symbols labels positions a0,
    _atom_sites cb = Ok (Some sites)
    /\ Atoms_new getElement getAtomic symbols positions (cellarg_of cell')
         (Some []) false false = Ok a0
    /\ set_array "labels" labels a0 = Ok a
    /\ (cell' = cell0
        \/ exists cp, cell' = Some (cellparToCell cp None None false))
    /\ (forall s, In s sites -> In (field "type_symbol" s) symbols)
    /\ get_positions a = Some positions
    /\ exists cellpars positions0,
         _cellpars StringToNumber cb = Ok cellpars
         /\ mapM (site_position (is_some cellpars) cell') sites = Ok positions0
         /\ match (if is_some cellpars
                   then _symops parseSymOp interpretHallSymbol cb
                   else None) with
            | None => positions = positions0
            | Some symops =>
                exists c ic ps,
                  cell' = Some c /\ inv c = Ok ic
                  /\ mapM to_vec positions0 = Ok ps /\ ps <> []
                  /\ positions
                     = map of_vec
                         (mat_mul
                            (fst (fst (expand mod1 shortestPeriodicLength symtol
                                         symops (mat_mul ps ic)
                                         (map (field "type_symbol") sites)
                                         (map (field "label") sites))))
                            c)
            end.
Proof.
  unfold process_block. intro H.
  bind_ok H atypes Eat. bind_ok H asites Eas. bind_ok H cellpars Ecp.
  bind_ok H cell Ecell.
  destruct asites as [sites|]; [| discriminate H].
  cbn [of_option bind] in H.
  bind_ok H positions Epos. bind_ok H triple Etr.
  destruct triple as [[symbols labels] positions'].
  bind_ok H a0 Ea0. bind_ok H a1 Ea1.
  injection H as <- <-.
  exists sites, symbols, labels, positions', a0.
  split; [reflexivity |]. split; [exact Ea0 |]. split; [exact Ea1 |].
  assert (Hexp :
    match (if is_some cellpars
           then _symops parseSymOp interpretHallSymbol cb
           else None) with
    | None => symbols = map (field "type_symbol") sites
              /\ positions' = positions
    | Some symops =>
        exists c ic ps,
          cell = Some c /\ inv c = Ok ic
          /\ mapM to_vec positions = Ok ps /\ ps <> []
          /\ symbols
             = snd (fst (expand mod1 shortestPeriodicLength symtol
                           symops (mat_mul ps ic)
                           (map (field "type_symbol") sites)
                           (map (field "label") sites)))
          /\ positions'
             = map of_vec
                 (mat_mul
                    (fst (fst (expand mod1 shortestPeriodicLength symtol
                                 symops (mat_mul ps ic)
                                 (map (field "type_symbol") sites)
                                 (map (field "label") sites))))
                    c)
    end).
  { destruct (if is_some cellpars
              then _symops parseSymOp interpretHallSymbol cb
              else None) as [symops|].
    - bind_ok Etr c Ec. bind_ok Etr ic Eic. bind_ok Etr ps Eps.
      bind_ok Etr fpos Ef.
      destruct (multiply_inv _ _ Ef) as [Hne ->].
      destruct (expand mod1 shortestPeriodicLength symtol symops
                  (mat_mul ps ic) (map (field "type_symbol") sites)
                  (map (field "label") sites))
        as [[allfpos allsyms] alllabs] eqn:Eex.
      bind_ok Etr out Eout.
      destruct (multiply_inv _ _ Eout) as [_ ->].
      injection Etr as <- <- <-.
      destruct cell as [c'|]; [| discriminate Ec].
      cbn [of_option] in Ec. injection Ec as ->.
      exists c, ic, ps.
      split; [reflexivity |]. split; [exact Eic |].
      split; [reflexivity |]. split; [exact Hne |].
      rewrite Eex. split; reflexivity.
    - injection Etr as <- <- <-. auto. }
  split.
  - destruct cellpars as [cp|].
    + right. bind_ok Ecell l El. bind_ok Ecell angs Ea.
      injection Ecell as <-. eexists. reflexivity.
    + left. injection Ecell as <-. reflexivity.
  - split; [| split].
    + intros s Hs.
      destruct (if is_some cellpars
                then _symops parseSymOp interpretHallSymbol cb
                else None) as [symops|].
      * destruct Hexp as (c & ic & ps & _ & _ & Eps & _ & -> & _).
        destruct (In_nth_error _ _ Hs) as [i Hi].
        assert (Hlt : (i < List.length sites)%nat)
          by (apply nth_error_Some; congruence).
        destruct (mapM_ok_nth _ _ Epos) as [Hl1 _].
        destruct (mapM_ok_nth _ _ Eps) as [Hl2 _].
        replace (field "type_symbol" s)
          with (nth i (map (field "type_symbol") sites) JUndef).
        { apply expand_keeps_symbol. unfold mat_mul. rewrite length_map. lia. }
        { apply nth_error_nth. apply map_nth_error. exact Hi. }
      * destruct Hexp as [-> _]. apply in_map, Hs.
    + destruct (@Atoms_new_inv _ _ _ _ _ _ _ _ _ Ea0)
        as (els & c & pbc & ic & pos & _ & _ & _ & _ & Hpos & _ & ->).
      cbn beta iota in Hpos. subst pos.
      destruct (set_array_inv _ _ _ Ea1) as [_ ->].
      reflexivity.
    + exists cellpars, positions.
      split; [reflexivity |]. split; [exact Epos |].
      destruct (if is_some cellpars
                then _symops parseSymOp interpretHallSymbol cb
                else None) as [symops|].
      * destruct Hexp as (c & ic & ps & Hc & Hic & Hps & Hne & _ & Hp).
        exists c, ic, ps. auto.
      * destruct Hexp as [_ ->]. reflexivity.
Qed.

End BlockResults.

(** A structure as the reader returns it: the four arrays are there, each
    with one entry per atom, and the structure is either not periodic at all
    or periodic in the three directions, then with a cell of three rows of
    three numbers and its inverse. *)
Definition structure_ok (a : Atoms) : Prop :=
  arrays_ok a
  /\ (forall name, In name ["symbols"; "numbers"; "positions"; "labels"] ->
        exists arr, get_array name a = Some arr)
  /\ ((get_pbc a = [false; false; false]
       /\ get_cell a = None /\ get_inv_cell a = None)
      \/ (get_pbc a = [true; true; true]
          /\ exists c ic,
               get_cell a = Some (map Some c) /\ is_3x3 c = true
               /\ inv c = Ok ic /\ get_inv_cell a = Some ic)).

Section StructureResults.

Variable getElement : jsval -> option element.
Variable getAtomic : R -> option element.
Variable parseSymOp : string -> symop.
Variable interpretHallSymbol : item -> option (list symop).
Variable mod1 : vec -> vec.
Variable shortestPeriodicLength : vec -> R.
Variable StringToNumber : string -> option R.

(** X19.  The reader is never tolerant: a block with a site whose type
    symbol the periodic table does not resolve (also [undefined], when the
    block has no usable [_atom_site_type_symbol]) makes the loop body fail,
    whatever the tolerance, the symmetry operations and the cell left by
    earlier blocks. *)
Theorem process_block_unknown_element :
  forall (symtol : R) (cell0 : option mat) (cb : cblock) (sites : list site)
         (s : site),
    _atom_sites cb = Ok (Some sites) ->
    In s sites ->
    unknown getElement getAtomic (field "type_symbol" s) ->
    exists e,
      process_block getElement getAtomic parseSymOp interpretHallSymbol mod1
        shortestPeriodicLength StringToNumber symtol cell0 cb = Err e.
Proof.
  intros symtol cell0 cb sites s Hsites Hs Hun.
  destruct (process_block getElement getAtomic parseSymOp interpretHallSymbol
              mod1 shortestPeriodicLength StringToNumber symtol cell0 cb)
    as [[cell' a]|e] eqn:H; [| exists e; reflexivity].
  exfalso.
  destruct (@process_block_inv _ _ _ _ _ _ _ _ _ _ _ _ H)
    as (sites' & symbols & labels & positions & a0 & Hs' & Ha0 & _ & _ & Hin
        & _).
  rewrite Hsites in Hs'. injection Hs' as <-.
  destruct (@Atoms_new_unknown getElement getAtomic false symbols positions
              (cellarg_of cell') (Some []) false (field "type_symbol" s)
              (Hin s Hs) (@resolve_elem_unknown_strict _ _ _ Hun))
    as (el' & _ & _ & _ & Herr).
  rewrite Herr in Ha0. discriminate.
Qed.

(** One turn of the loop keeps the cell variable well formed and returns a
    well-formed structure. *)
Lemma process_block_shape (symtol : R) (cell0 cell' : option mat) (cb : cblock)
    (a : Atoms) :
  cell_var_ok cell0 ->
  process_block getElement getAtomic parseSymOp interpretHallSymbol mod1
    shortestPeriodicLength StringToNumber symtol cell0 cb = Ok (cell', a) ->
  cell_var_ok cell' /\ structure_ok a.
Proof.
  intros Hc0 H.
  destruct (@process_block_inv _ _ _ _ _ _ _ _ _ _ _ _ H)
    as (sites & symbols & labels & positions & a0 & _ & Ha0 & Hset & Hcell & _).
  assert (Hc' : cell_var_ok cell').
  { destruct Hcell as [-> | [cp ->]]; [exact Hc0 |].
    apply cellparToCell_default_3x3. }
  split; [exact Hc' |].
  pose proof (Atoms_new_arrays_ok _ _ _ _ _ _ _ _ Ha0) as Hok0.
  pose proof (set_array_arrays_ok _ _ Hset Hok0) as Hok.
  destruct (@Atoms_new_inv _ _ _ _ _ _ _ _ _ Ha0)
    as (els & c & pbc & ic & pos & _ & Hrc & Hric & _ & _ & _ & ->).
  destruct (set_array_inv _ _ _ Hset) as [_ ->].
  split; [exact Hok |]. split.
  - intros name Hname. unfold get_array. cbn [_arrays].
    cbn [In] in Hname.
    destruct Hname as [<- | [<- | [<- | [<- | []]]]];
      eexists; reflexivity.
  - unfold get_pbc, get_cell, get_inv_cell, deepClone.
    cbn [_pbc _cell _inv_cell].
    destruct cell' as [m|].
    + right. destruct (@resolve_cellarg_of m Hc') as [E1 E2].
      rewrite E1 in Hrc. injection Hrc as <- <-.
      rewrite E2 in Hric. destruct (inv m) as [icm|] eqn:Ei; [| discriminate].
      injection Hric as <-.
      split; [reflexivity |]. exists m, icm. auto.
    + left. cbn in Hrc. injection Hrc as <- <-.
      cbn in Hric. injection Hric as <-. auto.
Qed.

Lemma process_blocks_shape (symtol : R) (cd : cifdict) :
  forall (snames : list string) (cell : option mat)
         (structs : list (string * Atoms)),
    cell_var_ok cell ->
    process_blocks getElement getAtomic parseSymOp interpretHallSymbol mod1
      shortestPeriodicLength StringToNumber symtol cd snames cell = Ok structs ->
    forall sname a, In (sname, a) structs -> structure_ok a.
Proof.
  induction snames as [|sname rest IH]; intros cell structs Hc H;
    cbn [process_blocks] in H.
  - injection H as <-. intros ? ? [].
  - bind_ok H cb Eb. bind_ok H r Ep. destruct r as [cell' a].
    bind_ok H structs' Er. injection H as <-.
    destruct (@process_block_shape _ _ _ _ _ Hc Ep) as [Hc' Ha].
    intros sname' a' [E | Hin].
    + injection E as <- <-. exact Ha.
    + exact (IH _ _ Hc' Er _ _ Hin).
Qed.

(** X20.  Every structure [readCif] returns has the arrays [symbols],
    [numbers], [positions] and [labels], each array with one entry per atom,
    and is either without cell, inverse cell and periodicity, or periodic in
    the three directions with a cell of three rows of three numbers and the
    inverse of that cell: the reader never gives partial periodicity. *)
Theorem readCif_structures :
  forall (cd : cifdict) (symtol : option R) (structs : list (string * Atoms)),
    readCif_parsed getElement getAtomic parseSymOp interpretHallSymbol mod1
      shortestPeriodicLength StringToNumber cd symtol = Ok structs ->
    forall sname a, In (sname, a) structs -> structure_ok a.
Proof.
  intros cd symtol structs H. unfold readCif_parsed in H.
  exact (@process_blocks_shape _ _ _ None _ I H).
Qed.

End StructureResults.

(** The molecule document read with the two-element table; no symmetry
    operation is known and distances are Euclidean. *)
Lemma readCif_molecule :
  readCif_parsed table_getElement table_getAtomic (fun _ => (I3, [0; 0; 0]))
    (fun _ => None) (fun v => v) norm (fun _ => None) doc_molecule None
  = Ok [("B", molecule_atoms None [false; false; false] None)].
Proof.
  unfold readCif_parsed.
  change (map fst (select_blocks doc_molecule)) with ["B"].
  unfold process_blocks.
  change (js_get "B" doc_molecule) with (Some block_molecule).
  cbn [of_option bind].
  rewrite (@process_block_no_cellpars _ _ _ _ _ _ block_molecule None
             None [false; false; false] None);
    reflexivity.
Qed.

(** A block with one site and nothing else: no coordinates, no cell. *)
Definition block_bare : cblock :=
  [ ("_atom_site_label", Loop [str_value "H1"]);
    ("_atom_site_type_symbol", Loop [str_value "H"]) ].

(** A block whose only site is of an element the table does not have. *)
Definition block_unknown : cblock :=
  [ ("_atom_site_label", Loop [str_value "Q1"]);
    ("_atom_site_type_symbol", Loop [str_value "Qq"]);
    ("_atom_site_Cartn_x", Loop [num_value "0" 0]);
    ("_atom_site_Cartn_y", Loop [num_value "0" 0]);
    ("_atom_site_Cartn_z", Loop [num_value "0" 0]) ].

(** X17 on the molecule document. *)
Lemma readCif_names_witness :
  map fst [("B", molecule_atoms None [false; false; false] None)]
  = map fst (filter has_sites doc_molecule).
Proof.
  refine (proj1 (@readCif_names table_getElement table_getAtomic
                   (fun _ => (I3, [0; 0; 0])) (fun _ => None) (fun v => v) norm
                   (fun _ => None) doc_molecule None _ _ readCif_molecule)).
  constructor; [intros [] | constructor].
Defined.

(** X18 on the cubic block followed by the bare block: the second has no
    coordinates and no cell parameters of its own, and the document is
    refused. *)
Lemma readCif_block_failure_witness :
  exists e,
    readCif_parsed table_getElement table_getAtomic (fun _ => (I3, [0; 0; 0]))
      (fun _ => None) (fun v => v) norm (fun _ => None)
      [("A", block_cubic); ("H", block_bare)] None = Err e.
Proof.
  apply (@readCif_block_failure table_getElement table_getAtomic
           (fun _ => (I3, [0; 0; 0])) (fun _ => None) (fun v => v) norm
           (fun _ => None) [("A", block_cubic); ("H", block_bare)] None
           "H" block_bare).
  - constructor; [simpl; intuition discriminate |].
    constructor; [intros [] | constructor].
  - right. left. reflexivity.
  - reflexivity.
  - intro cell0. exists AbsoluteCoordinatesNecessary. reflexivity.
Defined.

(** X19 on the block of the unknown element. *)
Lemma process_block_unknown_element_witness :
  exists e,
    process_block table_getElement table_getAtomic (fun _ => (I3, [0; 0; 0]))
      (fun _ => None) (fun v => v) norm (fun _ => None) 1e-3 None block_unknown
    = Err e.
Proof.
  apply (@process_block_unknown_element table_getElement table_getAtomic
           (fun _ => (I3, [0; 0; 0])) (fun _ => None) (fun v => v) norm
           (fun _ => None) 1e-3 None block_unknown
           [[("label", JStr "Q1"); ("type_symbol", JStr "Qq");
             ("Cartn_x", JNum 0); ("Cartn_y", JNum 0); ("Cartn_z", JNum 0)]]
           [("label", JStr "Q1"); ("type_symbol", JStr "Qq");
            ("Cartn_x", JNum 0); ("Cartn_y", JNum 0); ("Cartn_z", JNum 0)]).
  - reflexivity.
  - left. reflexivity.
  - reflexivity.
Defined.

(** X20 on the molecule document. *)
Lemma readCif_structures_witness :
  structure_ok (molecule_atoms None [false; false; false] None).
Proof.
  apply (@readCif_structures table_getElement table_getAtomic
           (fun _ => (I3, [0; 0; 0])) (fun _ => None) (fun v => v) norm
           (fun _ => None) doc_molecule None _ readCif_molecule "B").
  left. reflexivity.
Defined.

(** ** [get_scaled_positions] in the store *)

(** X21.  [get_scaled_positions] hands out arrays of its own: when it
    succeeds on a well-formed structure, every array reachable from the
    answer is new (none is an array of the structure), and whatever sequence
    of changes is made to arrays that did not exist before the call, every
    query answers as before. *)
Theorem get_scaled_positions_fresh :
  forall (a : Store.object) (h h1 : Store.heap) (v : Store.hval),
    Store.wf a h ->
    Store.get_scaled_positions a h = Ok (h1, v) ->
    (forall l, Store.reach h1 v l -> (List.length h <= l)%nat)
    /\ (forall ms, Forall (fun m => (List.length h <= fst m)%nat) ms ->
          forall q, Store.observe q a (Store.mutations ms h1)
                    = Store.observe q a h).
Proof.
  intros a h h1 v Hwf Hrun. unfold Store.get_scaled_positions in Hrun.
  destruct (Store.read (List.length h) h
              (snd (Store.get_array "positions" a h))) as [| | | | |ps];
    try discriminate.
  destruct (mapM _ ps) as [spos|]; [| discriminate].
  cbn [bind] in Hrun.
  destruct (Store.alloc_spec (JArr (map of_vec spos)) h)
    as (ext & v' & E & L & W & _).
  rewrite E in Hrun. injection Hrun as <- <-. split.
  - intros l Hl. apply W in Hl. lia.
  - intros ms Hms q.
    destruct (Store.mutations_agree Hms (h ++ ext)) as [Hlen Hag].
    apply Store.observe_frame; [exact Hwf | |].
    + eapply Store.agree_trans; [apply Store.agree_app | exact Hag].
    + rewrite Hlen, length_app. lia.
Qed.

(** The molecule placed in the unit cube, as an object of the store. *)
Definition cube_heap : Store.heap :=
  fst (Store.store_atoms
         (molecule_atoms (Some (map Some I3)) [true; true; true] (Some I3)) []).

Definition cube_object : Store.object :=
  snd (Store.store_atoms
         (molecule_atoms (Some (map Some I3)) [true; true; true] (Some I3)) []).

Lemma cube_wf : Store.wf cube_object cube_heap.
Proof.
  repeat split; try reflexivity.
  repeat constructor.
Qed.

(** X21 at the molecule in the unit cube. *)
Lemma get_scaled_positions_fresh_witness :
  exists h1 v,
    Store.get_scaled_positions cube_object cube_heap = Ok (h1, v)
    /\ (forall l, Store.reach h1 v l -> (List.length cube_heap <= l)%nat)
    /\ (forall ms,
           Forall (fun m => (List.length cube_heap <= fst m)%nat) ms ->
           forall q, Store.observe q cube_object (Store.mutations ms h1)
                     = Store.observe q cube_object cube_heap).
Proof.
  do 2 eexists. split; [reflexivity |].
  apply (@get_scaled_positions_fresh cube_object cube_heap _ _ cube_wf eq_refl).
Defined.

(** ** The cell parameters of a block *)

Section CellParameters.

Variable StringToNumber : string -> option R.

(** On single-valued cell tags [_cellpars] stops at the first tag missing,
    or gets the six values. *)
Lemma cellpars_cases (cb : cblock) :
  (forall t x, In t cell_tags -> js_get t cb = Some x -> exists v, x = Single v) ->
  (exists t, In t cell_tags /\ js_get t cb = None
             /\ _cellpars StringToNumber cb = Ok None)
  \/
  (exists v0 v1 v2 v3 v4 v5,
     map (fun t => js_get t cb) cell_tags
     = map (fun v => Some (Single v)) [v0; v1; v2; v3; v4; v5]
     /\ _cellpars StringToNumber cb
        = if existsb (loose_eq_zero StringToNumber)
               [get_value v0; get_value v1; get_value v2]
          then Ok None
          else Ok (Some ([get_value v0; get_value v1; get_value v2],
                         [get_value v3; get_value v4; get_value v5]))).
Proof.
  intro Hsingle. unfold _cellpars, cell_tags. cbn [cell_values map].
  repeat match goal with
         | |- context [js_get ?t cb] =>
             lazymatch goal with
             | H : js_get t cb = _ |- _ => fail
             | _ => idtac
             end;
             let E := fresh "E" in
             destruct (js_get t cb) as [[? | ?] |] eqn:E;
             [ | exfalso;
                 destruct (Hsingle t _ ltac:(unfold cell_tags; simpl; tauto) E);
                 discriminate
               | left; exists t;
                 split; [simpl; tauto | split; [exact E | reflexivity]] ]
         end.
  right. do 6 eexists. split; reflexivity.
Qed.

(** X22.  On a block whose cell tags, where present, are single values,
    [_cellpars] never fails; it returns [null] exactly when one of the six
    cell tags is missing or one of the three lengths is loosely equal to
    zero, and otherwise the values of the three lengths and of the three
    angles, in the order of the tags; the angles are not examined. *)
Theorem cellpars_spec :
  forall cb : cblock,
    (forall t x, In t cell_tags -> js_get t cb = Some x ->
                 exists v, x = Single v) ->
    (exists r, _cellpars StringToNumber cb = Ok r)
    /\
    (_cellpars StringToNumber cb = Ok None
     <-> (exists t, In t cell_tags /\ js_get t cb = None)
         \/ (exists t v, In t length_tags /\ js_get t cb = Some (Single v)
                         /\ loose_eq_zero StringToNumber (get_value v) = true))
    /\
    (forall ls angs,
        _cellpars StringToNumber cb = Ok (Some (ls, angs)) ->
        exists v0 v1 v2 v3 v4 v5,
          map (fun t => js_get t cb) cell_tags
          = map (fun v => Some (Single v)) [v0; v1; v2; v3; v4; v5]
          /\ ls = [get_value v0; get_value v1; get_value v2]
          /\ angs = [get_value v3; get_value v4; get_value v5]).
Proof.
  intros cb Hsingle.
  destruct (cellpars_cases cb Hsingle)
    as [(t & Hin & Hnone & Hcp)
       | (v0 & v1 & v2 & v3 & v4 & v5 & Hmap & Hcp)].
  - split; [eexists; exact Hcp |]. split.
    + split; [intros _; left; exists t; auto | intros _; exact Hcp].
    + intros ls angs H. rewrite Hcp in H. discriminate.
  - cbn [cell_tags map] in Hmap.
    injection Hmap as E0 E1 E2 E3 E4 E5.
    split; [| split].
    + rewrite Hcp. destruct (existsb _ _); eexists; reflexivity.
    + rewrite Hcp.
      destruct (existsb (loose_eq_zero StringToNumber)
                  [get_value v0; get_value v1; get_value v2]) eqn:Ez.
      * split; [| reflexivity]. intros _. right.
        cbn [existsb] in Ez. rewrite !orb_true_iff in Ez.
        destruct Ez as [Hz | [Hz | [Hz | Hz]]]; [| | | discriminate].
        { exists "_cell_length_a", v0. simpl. auto. }
        { exists "_cell_length_b", v1. simpl. auto. }
        { exists "_cell_length_c", v2. simpl. auto. }
      * split; [discriminate |].
        intros [(t & Hin & Hnone) | (t & v & Hin & Hsome & Hz)]; exfalso.
        { unfold cell_tags in Hin. simpl in Hin.
          repeat (destruct Hin as [<- | Hin]; [congruence |]). exact Hin. }
        { cbn [existsb] in Ez. rewrite !orb_false_iff in Ez.
          destruct Ez as (Z0 & Z1 & Z2 & _).
          unfold length_tags in Hin. simpl in Hin.
          destruct Hin as [<- | [<- | [<- | []]]];
            match goal with
            | E : js_get ?t cb = Some (Single ?w),
              H : js_get ?t cb = Some (Single v) |- _ =>
                rewrite E in H; injection H as <-
            end; congruence. }
    + intros ls angs H. rewrite Hcp in H.
      destruct (existsb _ _); [discriminate |].
      injection H as <- <-.
      exists v0, v1, v2, v3, v4, v5. cbn [cell_tags map].
      rewrite E0, E1, E2, E3, E4, E5. auto.
Qed.

End CellParameters.

(** X22 on the cubic block. *)
Lemma cellpars_spec_witness :
  exists r, _cellpars (fun _ => None) block_cubic = Ok r.
Proof.
  refine (proj1 (@cellpars_spec (fun _ => None) block_cubic _)).
  intros t x Hin. unfold cell_tags in Hin. simpl in Hin.
  repeat (destruct Hin as [<- | Hin];
          [intro E; injection E as <-; eexists; reflexivity |]).
  contradiction.
Defined.

(** ** A block without symmetry expansion *)

Section BlockSites.

Variable getElement : jsval -> option element.
Variable getAtomic : R -> option element.
Variable parseSymOp : string -> symop.
Variable interpretHallSymbol : item -> option (list symop).
Variable mod1 : vec -> vec.
Variable shortestPeriodicLength : vec -> R.
Variable StringToNumber : string -> option R.

(** X23.  When a block is read without symmetry expansion (it has no cell
    parameters, or no symmetry operations), the structure has one atom per
    site, in the order of the sites: the labels are the labels of the sites,
    the symbols and numbers are those the periodic table gives for the type
    symbols, and the positions are the positions of the sites. *)
Theorem process_block_sites :
  forall (symtol : R) (cell0 cell' : option mat) (cb : cblock) (a : Atoms)
         (sites : list site)
         (cellpars : option (list jsval * list jsval)),
    process_block getElement getAtomic parseSymOp interpretHallSymbol mod1
      shortestPeriodicLength StringToNumber symtol cell0 cb = Ok (cell', a) ->
    _atom_sites cb = Ok (Some sites) ->
    _cellpars StringToNumber cb = Ok cellpars ->
    (if is_some cellpars then _symops parseSymOp interpretHallSymbol cb
     else None) = None ->
    Atoms_length a = List.length sites
    /\ get_array "labels" a = Some (map (field "label") sites)
    /\ (exists els,
          mapM (resolve_elem getElement getAtomic false)
               (map (field "type_symbol") sites) = Ok els
          /\ get_chemical_symbols a = Some (map fst els)
          /\ get_atomic_numbers a = Some (map snd els))
    /\ (exists positions,
          mapM (site_position (is_some cellpars) cell') sites = Ok positions
          /\ get_positions a = Some positions).
Proof.
  intros symtol cell0 cell' cb a sites cellpars H Hsites Hcp Hsym.
  unfold process_block in H.
  bind_ok H atypes Eat. rewrite Hsites, Hcp in H. cbn [bind] in H.
  bind_ok H cell Ecell. cbn [of_option bind] in H.
  bind_ok H positions Epos. rewrite Hsym in H. cbn [bind] in H.
  bind_ok H a0 Ea0. bind_ok H a1 Ea1. injection H as <- <-.
  destruct (@Atoms_new_inv _ _ _ _ _ _ _ _ _ Ea0)
    as (els & c & pbc & ic & pos & Hels & _ & _ & _ & Hpos & Hl & ->).
  cbn beta iota in Hpos. subst pos.
  destruct (set_array_inv _ _ _ Ea1) as [_ ->].
  rewrite length_map in Hl |- *.
  unfold Atoms_length, get_array, get_chemical_symbols, get_atomic_numbers,
    get_positions, deepClone, get_array.
  cbn [_N _arrays].
  split; [reflexivity |].
  split; [reflexivity |].
  split; [exists els; auto |].
  exists positions. auto.
Qed.

End BlockSites.

(** X23 on the molecule block. *)
Lemma process_block_sites_witness :
  get_array "labels" (molecule_atoms None [false; false; false] None)
  = Some (map (field "label") molecule_sites).
Proof.
  refine (proj1 (proj2
    (@process_block_sites table_getElement table_getAtomic
       (fun _ => (I3, [0; 0; 0])) (fun _ => None) (fun v => v) norm
       (fun _ => None) 1e-3 None None block_molecule
       (molecule_atoms None [false; false; false] None) molecule_sites None
       _ eq_refl eq_refl eq_refl))).
  apply (@process_block_no_cellpars _ _ _ _ _ 1e-3 block_molecule None
           None [false; false; false] None); reflexivity.
Defined.

(** ** A cell given as lengths and angles *)

Lemma full_rows_map_Some (m : mat) : full_rows (map Some m) = Some m.
Proof.
  induction m as [|r m IH]; [reflexivity |].
  cbn [map full_rows]. rewrite IH. reflexivity.
Qed.

Section CellparForm.

Variable getElement : jsval -> option element.
Variable getAtomic : R -> option element.

(** X24.  A cell given as two arrays of three numbers is read as lengths
    and angles in degrees: with lengths that are not zero, angles that are
    those of a cell (the last strictly between 0 and 180 degrees, a positive
    radicand), the construction succeeds, the structure is periodic in the
    three directions, its cell is [cellparToCell] of the two arrays in the
    default orientation and its inverse cell is the inverse of that cell. *)
Theorem Atoms_new_cellpar :
  forall (elems positions : list jsval) (inf : option (list (string * jsval)))
         (tolerant : bool) (els : list (jsval * jsval))
         (a b c al be ga : R),
    mapM (resolve_elem getElement getAtomic tolerant) elems = Ok els ->
    check_rows (List.length positions =? List.length elems)%nat positions
    = Ok true ->
    a <> 0 -> b <> 0 -> 0 < c -> 0 < ga < 180 ->
    unrounded al -> unrounded be -> unrounded ga ->
    0 < gram al be ga ->
    exists ic,
      Atoms_new getElement getAtomic elems positions
        (CellArr [RowArr [a; b; c]; RowArr [al; be; ga]]) inf false tolerant
      = Ok {| _arrays := [("symbols", map fst els); ("numbers", map snd els);
                          ("positions", positions)];
              _N := List.length elems;
              _pbc := [true; true; true];
              _inv_cell := Some ic;
              _cell := Some (map Some (cellparToCell ([a; b; c], [al; be; ga])
                                         None None false));
              info := match inf with Some i => i | None => [] end |}
      /\ mat_mul (cellparToCell ([a; b; c], [al; be; ga]) None None false) ic
         = I3.
Proof.
  intros elems positions inf tolerant els a b c al be ga Hels Hpos
    Ha Hb Hc Hga Ual Ube Uga Hgram.
  destruct (@cellparToCell_inverse a b c al be ga Ha Hb Hc Hga Ual Ube Uga Hgram)
    as (ic & Hinv & Hmul & _).
  exists ic. split; [| exact Hmul].
  eapply Atoms_new_ok; [exact Hels | reflexivity | | exact Hpos].
  unfold resolve_inv_cell. cbn [falsy_cell].
  rewrite full_rows_map_Some, Hinv. reflexivity.
Qed.

End CellparForm.

(** X24 at lengths 1, 2, 3 and angles of 60 degrees. *)
Lemma Atoms_new_cellpar_witness :
  exists ic,
    Atoms_new table_getElement table_getAtomic [JStr "C"]
      [JArr [JNum 0; JNum 0; JNum 0]]
      (CellArr [RowArr [1; 2; 3]; RowArr [60; 60; 60]]) None false false
    = Ok {| _arrays := [("symbols", [JStr "C"]); ("numbers", [JNum 6]);
                        ("positions", [JArr [JNum 0; JNum 0; JNum 0]])];
            _N := 1;
            _pbc := [true; true; true];
            _inv_cell := Some ic;
            _cell := Some (map Some (cellparToCell ([1; 2; 3], [60; 60; 60])
                                       None None false));
            info := [] |}
    /\ mat_mul (cellparToCell ([1; 2; 3], [60; 60; 60]) None None false) ic
       = I3.
Proof.
  apply (@Atoms_new_cellpar table_getElement table_getAtomic [JStr "C"]
           [JArr [JNum 0; JNum 0; JNum 0]] None false [(JStr "C", JNum 6)]
           1 2 3 60 60 60 eq_refl eq_refl
           ltac:(lra) ltac:(lra) ltac:(lra) ltac:(lra)
           unrounded_60 unrounded_60 unrounded_60
           ltac:(rewrite gram_60; lra)).
Defined.

(* ================================================================== *)
(** * The expansion and the site positions inside [readCif] *)

(** Modelled from the spec: [utils.mod1] ([wrap01]), every component
    wrapped to the interval from 0 (included) to 1 (excluded). *)
Definition wrap01 (v : vec) : vec := map frac_part v.

Lemma frac_part_half : frac_part (1 / 2) = 1 / 2.
Proof.
  destruct (Int_part_frac_part_spec (1 / 2) 0 (1 / 2)) as [_ H]; [lra | lra |].
  symmetry. exact H.
Qed.

Lemma wrap01_half : wrap01 [1 / 2; 0; 0] = [1 / 2; 0; 0].
Proof. unfold wrap01. cbn [map]. rewrite frac_part_half, fp_R0. reflexivity. Qed.

(** The translation by half a cell along the first axis, applied to the
    origin. *)
Lemma candidate_half :
  wrap01 (vadd (mat_vec I3 [0; 0; 0]) [1 / 2; 0; 0]) = [1 / 2; 0; 0].
Proof.
  replace (vadd (mat_vec I3 [0; 0; 0]) [1 / 2; 0; 0]) with [1 / 2; 0; 0]
    by (unfold I3, mat_vec; cbn [map dot vadd]; vec_eq ltac:(lra)).
  exact wrap01_half.
Qed.

Lemma distance_half_origin :
  norm (wrap01 (vsub [1 / 2; 0; 0] [0; 0; 0])) = 1 / 2.
Proof.
  replace (vsub [1 / 2; 0; 0] [0; 0; 0]) with [1 / 2; 0; 0]
    by (cbn [vsub]; vec_eq ltac:(lra)).
  rewrite wrap01_half. apply norm_3; lra.
Qed.

Lemma distance_half_half :
  norm (wrap01 (vsub [1 / 2; 0; 0] [1 / 2; 0; 0])) = 0.
Proof.
  replace (vsub [1 / 2; 0; 0] [1 / 2; 0; 0]) with [0; 0; 0]
    by (cbn [vsub]; vec_eq ltac:(lra)).
  unfold wrap01. cbn [map]. rewrite fp_R0. apply norm_3; lra.
Qed.

(** The origin under the half translation given twice, distances being
    Euclidean (on these differences the Euclidean length is the shortest
    periodic one): the first candidate is kept, the second is the first
    again and is discarded. *)
Lemma expand_site_example :
  expand_site wrap01 norm 1e-3
    [(I3, [1 / 2; 0; 0]); (I3, [1 / 2; 0; 0])] [0; 0; 0]
  = [[0; 0; 0]; [1 / 2; 0; 0]].
Proof.
  unfold expand_site. cbn [fold_left].
  unfold expand_step, image. cbn [fst snd].
  rewrite candidate_half.
  unfold is_duplicate at 2. cbn [existsb].
  rewrite distance_half_origin.
  rewrite (Rltb_false (a := 1 / 2) (b := 1e-3)) by lra.
  cbn [orb app].
  unfold is_duplicate. cbn [existsb].
  rewrite distance_half_origin, distance_half_half.
  rewrite (Rltb_false (a := 1 / 2) (b := 1e-3)) by lra.
  rewrite (Rltb_true (a := 0) (b := 1e-3)) by lra.
  reflexivity.
Qed.

(** X15 at that instance. *)
Lemma expand_site_covers_witness :
  exists rest,
    expand_site wrap01 norm 1e-3
      [(I3, [1 / 2; 0; 0]); (I3, [1 / 2; 0; 0])] [0; 0; 0]
    = [0; 0; 0] :: rest
    /\ rest = [[1 / 2; 0; 0]]
    /\ (In (wrap01 (vadd (mat_vec I3 [0; 0; 0]) [1 / 2; 0; 0]))
           ([0; 0; 0] :: rest)
        \/ exists q,
             In q ([0; 0; 0] :: rest)
             /\ norm (wrap01 (vsub (wrap01 (vadd (mat_vec I3 [0; 0; 0])
                                               [1 / 2; 0; 0])) q))
                < 1e-3).
Proof.
  destruct (expand_site_covers wrap01 norm 1e-3
              [(I3, [1 / 2; 0; 0]); (I3, [1 / 2; 0; 0])] [0; 0; 0])
    as (rest & E & _ & _ & Hcov).
  exists rest. split; [exact E |]. split.
  - rewrite expand_site_example in E. injection E as <-. reflexivity.
  - apply Hcov. left. reflexivity.
Defined.

Section ReaderClaims.

Variable getElement : jsval -> option element.
Variable getAtomic : R -> option element.
Variable parseSymOp : string -> symop.
Variable interpretHallSymbol : item -> option (list symop).
Variable mod1 : vec -> vec.
Variable shortestPeriodicLength : vec -> R.
Variable StringToNumber : string -> option R.

(** Every structure [readCif] returns comes from a turn of its loop on the
    block of that name. *)
Lemma readCif_run (cd : cifdict) (symtol : option R)
    (structs : list (string * Atoms)) (sname : string) (a : Atoms) :
  readCif_parsed getElement getAtomic parseSymOp interpretHallSymbol mod1
    shortestPeriodicLength StringToNumber cd symtol = Ok structs ->
  In (sname, a) structs ->
  exists cb cell0 cell',
    js_get sname cd = Some cb
    /\ process_block getElement getAtomic parseSymOp interpretHallSymbol mod1
         shortestPeriodicLength StringToNumber
         (match symtol with Some t => t | None => 1e-3 end) cell0 cb
       = Ok (cell', a).
Proof.
  intros H Hin. unfold readCif_parsed in H.
  destruct (@process_blocks_inv _ _ _ _ _ _ _ _ _ _ _ _ H) as [_ Hs].
  exact (Hs sname a Hin).
Qed.

Lemma expand_positions (symtol : R) (symops : list symop) (fpos : list vec)
    (symbols labels : list jsval) :
  fst (fst (expand mod1 shortestPeriodicLength symtol symops fpos symbols labels))
  = List.concat (map (expand_site mod1 shortestPeriodicLength symtol symops) fpos).
Proof.
  unfold expand.
  apply (@expand_fold mod1 shortestPeriodicLength symtol symops symbols labels
           fpos [] ([], [], [])).
Qed.

(** The positions of a structure returned by [readCif]: those
    [site_position] computes for the sites of its block, and, when the block
    has cell parameters and symmetry operations, the expansion of these,
    converted to fractional coordinates and back. *)
Lemma readCif_positions (cd : cifdict) (symtol : option R)
    (structs : list (string * Atoms)) (sname : string) (a : Atoms) :
  readCif_parsed getElement getAtomic parseSymOp interpretHallSymbol mod1
    shortestPeriodicLength StringToNumber cd symtol = Ok structs ->
  In (sname, a) structs ->
  exists cb sites cellpars cell' positions0,
    js_get sname cd = Some cb
    /\ _atom_sites cb = Ok (Some sites)
    /\ _cellpars StringToNumber cb = Ok cellpars
    /\ mapM (site_position (is_some cellpars) cell') sites = Ok positions0
    /\ match (if is_some cellpars
              then _symops parseSymOp interpretHallSymbol cb
              else None) with
       | None => get_positions a = Some positions0
       | Some symops =>
           exists c ic ps,
             cell' = Some c /\ inv c = Ok ic
             /\ mapM to_vec positions0 = Ok ps
             /\ get_positions a
                = Some (map of_vec
                          (mat_mul
                             (List.concat
                                (map (expand_site mod1 shortestPeriodicLength
                                        (match symtol with
                                         | Some t => t
                                         | None => 1e-3
                                         end) symops)
                                     (mat_mul ps ic)))
                             c))
       end.
Proof.
  intros H Hin.
  destruct (@readCif_run _ _ _ _ _ H Hin) as (cb & cell0 & cell' & Hcb & Hp).
  destruct (@process_block_inv _ _ _ _ _ _ _ _ _ _ _ _ Hp)
    as (sites & symbols & labels & positions & a0 & Hsites & _ & _ & _ & _
        & Hget & cellpars & positions0 & Hcp & Hpos & Hm).
  exists cb, sites, cellpars, cell', positions0.
  split; [exact Hcb |]. split; [exact Hsites |]. split; [exact Hcp |].
  split; [exact Hpos |].
  destruct (if is_some cellpars
            then _symops parseSymOp interpretHallSymbol cb
            else None) as [symops|].
  - destruct Hm as (c & ic & ps & Hc & Hic & Hps & _ & ->).
    exists c, ic, ps. rewrite expand_positions in Hget. auto.
  - subst positions. exact Hget.
Qed.

(** C1: for one site [p0] and one operation [(rot, tr)] the expansion
    computes the candidate [mod1(rot.p0 + tr)]; it discards the candidate
    when a position [q] already kept for that site is at distance
    [shortestPeriodicLength(mod1(candidate - q))] below [symtol], and appends
    it otherwise; so in the list kept for a site no position is within
    [symtol] of an earlier one (of any other one, when the distance is
    symmetric); the fractional positions of the expansion are those lists,
    site after site; and a structure [readCif] returns for a block with cell
    parameters and symmetry operations has as positions exactly those lists,
    computed from the positions of the sites in fractional coordinates and
    converted back with the cell. *)
Theorem C1_expansion_separated :
  forall (symtol : R) (symops : list symop) (p0 : vec),
    (forall allp rot tr,
        (exists q, In q allp
                   /\ shortestPeriodicLength
                        (mod1 (vsub (mod1 (vadd (mat_vec rot p0) tr)) q))
                      < symtol) ->
        expand_step mod1 shortestPeriodicLength symtol p0 allp (rot, tr) = allp)
    /\
    (forall allp rot tr,
        ~ (exists q, In q allp
                     /\ shortestPeriodicLength
                          (mod1 (vsub (mod1 (vadd (mat_vec rot p0) tr)) q))
                        < symtol) ->
        expand_step mod1 shortestPeriodicLength symtol p0 allp (rot, tr)
        = allp ++ [mod1 (vadd (mat_vec rot p0) tr)])
    /\
    (forall i j q p, (i < j)%nat ->
        nth_error (expand_site mod1 shortestPeriodicLength symtol symops p0) i = Some q ->
        nth_error (expand_site mod1 shortestPeriodicLength symtol symops p0) j = Some p ->
        ~ shortestPeriodicLength (mod1 (vsub p q)) < symtol)
    /\
    ((forall p q, shortestPeriodicLength (mod1 (vsub p q))
                  = shortestPeriodicLength (mod1 (vsub q p))) ->
     forall i j q p, i <> j ->
        nth_error (expand_site mod1 shortestPeriodicLength symtol symops p0) i = Some q ->
        nth_error (expand_site mod1 shortestPeriodicLength symtol symops p0) j = Some p ->
        ~ shortestPeriodicLength (mod1 (vsub p q)) < symtol)
    /\
    (forall fpos symbols labels,
        fst (fst (expand mod1 shortestPeriodicLength symtol symops fpos symbols labels))
        = List.concat (map (expand_site mod1 shortestPeriodicLength symtol symops) fpos))
    /\
    (forall (cd : cifdict) (structs : list (string * Atoms)) (sname : string)
            (a : Atoms),
        readCif_parsed getElement getAtomic parseSymOp interpretHallSymbol mod1
          shortestPeriodicLength StringToNumber cd (Some symtol) = Ok structs ->
        In (sname, a) structs ->
        exists cb sites,
          js_get sname cd = Some cb
          /\ _atom_sites cb = Ok (Some sites)
          /\ forall cp,
               _cellpars StringToNumber cb = Ok (Some cp) ->
               _symops parseSymOp interpretHallSymbol cb = Some symops ->
               exists c ic positions0 ps,
                 inv c = Ok ic
                 /\ mapM (site_position true (Some c)) sites = Ok positions0
                 /\ mapM to_vec positions0 = Ok ps
                 /\ get_positions a
                    = Some (map of_vec
                              (mat_mul
                                 (List.concat
                                    (map (expand_site mod1 shortestPeriodicLength
                                            symtol symops)
                                         (mat_mul ps ic)))
                                 c))).
Proof.
  intros symtol symops p0.
  assert (Hsep : separated mod1 shortestPeriodicLength symtol
                   (expand_site mod1 shortestPeriodicLength symtol symops p0)).
  { unfold expand_site. apply fold_expand_separated. constructor; constructor. }
  split; [| split; [| split; [| split; [| split]]]].
  - intros allp rot tr H. unfold expand_step.
    change (image mod1 p0 (rot, tr)) with (mod1 (vadd (mat_vec rot p0) tr)).
    apply (@is_duplicate_true mod1 shortestPeriodicLength) in H.
    rewrite H. reflexivity.
  - intros allp rot tr H. unfold expand_step.
    change (image mod1 p0 (rot, tr)) with (mod1 (vadd (mat_vec rot p0) tr)).
    destruct (is_duplicate mod1 shortestPeriodicLength symtol
                (mod1 (vadd (mat_vec rot p0) tr)) allp) eqn:E; [| reflexivity].
    apply (@is_duplicate_true mod1 shortestPeriodicLength) in E.
    contradiction.
  - intros i j q p Hij Hi Hj. exact (FOP_nth Hsep Hij Hi Hj).
  - intros Hsym i j q p Hij Hi Hj.
    destruct (Nat.lt_total i j) as [Hlt | [Heq | Hgt]].
    + exact (FOP_nth Hsep Hlt Hi Hj).
    + contradiction.
    + rewrite Hsym. exact (FOP_nth Hsep Hgt Hj Hi).
  - intros fpos symbols labels. apply expand_positions.
  - intros cd structs sname a H Hin.
    destruct (@readCif_positions _ _ _ _ _ H Hin)
      as (cb & sites & cellpars & cell' & positions0 & Hcb & Hsites & Hcp
          & Hpos & Hm).
    exists cb, sites. split; [exact Hcb |]. split; [exact Hsites |].
    intros cp Hcp' Hsym. rewrite Hcp' in Hcp. injection Hcp as <-.
    cbn [is_some] in Hm, Hpos. rewrite Hsym in Hm.
    destruct Hm as (c & ic & ps & -> & Hic & Hps & Hget).
    exists c, ic, positions0, ps. auto.
Qed.

End ReaderClaims.

(** The cubic block with the half translation along the first axis listed
    twice after the identity. *)
Definition block_shift : cblock :=
  block_cubic
  ++ [ ("_space_group_symop_operation_xyz",
        Loop [str_value "x,y,z"; str_value "x+1/2,y,z"; str_value "x+1/2,y,z"]) ].

Definition shift_sites : list site :=
  [[("label", JStr "C1"); ("type_symbol", JStr "C");
    ("fract_x", JNum 0); ("fract_y", JNum 0); ("fract_z", JNum 0)]].

Definition half_shift : symop := (I3, [1 / 2; 0; 0]).

Lemma fpos_shift : mat_mul [vec_mat [0; 0; 0] I3] I3 = [[0; 0; 0]].
Proof.
  unfold mat_mul, vec_mat, col, row, idx, I3. simpl. vec_eq ltac:(ring).
Qed.

(** The block read first, with the two-element table, every operation text
    parsed as the half translation, [wrap01] and Euclidean distances. *)
Lemma process_block_shift :
  exists a,
    process_block table_getElement table_getAtomic (fun _ => half_shift)
      (fun _ => None) wrap01 norm (fun _ => None) 1e-3 None block_shift
    = Ok (Some I3, a).
Proof.
  unfold process_block.
  change (_atom_types block_shift) with (@Ok (option (list (string * site))) None).
  change (_atom_sites block_shift) with (Ok (Some shift_sites)).
  assert (Hcp : _cellpars (fun _ => None) block_shift
                = Ok (Some ([JNum 1; JNum 1; JNum 1], [JNum 90; JNum 90; JNum 90]))).
  { unfold _cellpars. cbn -[loose_eq_zero]. unfold loose_eq_zero.
    rewrite !Reqb_false by lra. reflexivity. }
  rewrite Hcp. cbn [bind is_some fst snd mapM to_number of_option].
  rewrite cellparToCell_cubic. cbn [bind].
  change (mapM (site_position true (Some I3)) shift_sites)
    with (Ok [of_vec (vec_mat [0; 0; 0] I3)]).
  cbn [bind].
  change (_symops (fun _ : string => half_shift) (fun _ : item => None)
            block_shift) with (Some [half_shift; half_shift]).
  cbn [of_option bind]. rewrite inv_I3. cbn [bind].
  change (mapM to_vec [of_vec (vec_mat [0; 0; 0] I3)])
    with (Ok [vec_mat [0; 0; 0] I3]).
  cbn [bind multiply]. rewrite fpos_shift.
  unfold expand. cbn [List.length seq fold_left nth].
  assert (E : expand_site wrap01 norm 1e-3
                (@cons symop half_shift (@cons symop half_shift (@nil symop)))
                [0; 0; 0]
              = [[0; 0; 0]; [1 / 2; 0; 0]]) by exact expand_site_example.
  rewrite E.
  cbn [app List.length repeat multiply bind].
  erewrite Atoms_new_ok;
    [| reflexivity | exact resolve_cell_I3 | exact resolve_inv_cell_I3
     | reflexivity].
  cbn [bind]. eexists. reflexivity.
Qed.

Section SiteClaims.

Variable getElement : jsval -> option element.
Variable getAtomic : R -> option element.
Variable parseSymOp : string -> symop.
Variable interpretHallSymbol : item -> option (list symop).
Variable mod1 : vec -> vec.
Variable shortestPeriodicLength : vec -> R.
Variable StringToNumber : string -> option R.


End SiteClaims.






Definition doc_shift : cifdict := [("S", block_shift)].

Lemma readCif_shift :
  exists a,
    readCif_parsed table_getElement table_getAtomic (fun _ => half_shift)
      (fun _ => None) wrap01 norm (fun _ => None) doc_shift (Some 1e-3)
    = Ok [("S", a)].
Proof.
  destruct process_block_shift as [a Ha]. exists a.
  unfold readCif_parsed.
  change (map fst (select_blocks doc_shift)) with ["S"].
  unfold process_blocks.
  change (js_get "S" doc_shift) with (Some block_shift).
  cbn [of_option bind]. rewrite Ha. reflexivity.
Qed.

Lemma cellpars_shift :
  _cellpars (fun _ => None) block_shift
  = Ok (Some ([JNum 1; JNum 1; JNum 1], [JNum 90; JNum 90; JNum 90])).
Proof.
  unfold _cellpars. cbn -[loose_eq_zero]. unfold loose_eq_zero.
  rewrite !Reqb_false by lra. reflexivity.
Qed.

(** C1 at the origin under the half translation along the first axis, given
    twice: two positions are kept (the second candidate, equal to the first,
    is discarded), they are half a cell apart, not within [1e-3]; and the
    document whose block lists these operations is read into a structure
    whose positions are this expansion, converted back with the cell. *)
Lemma C1_expansion_separated_witness :
  expand_site wrap01 norm 1e-3
    (@cons symop half_shift (@cons symop half_shift (@nil symop))) [0; 0; 0]
  = [[0; 0; 0]; [1 / 2; 0; 0]]
  /\ ~ norm (wrap01 (vsub [1 / 2; 0; 0] [0; 0; 0])) < 1e-3
  /\ exists a c ic positions0 ps,
       readCif_parsed table_getElement table_getAtomic (fun _ => half_shift)
         (fun _ => None) wrap01 norm (fun _ => None) doc_shift (Some 1e-3)
       = Ok [("S", a)]
       /\ inv c = Ok ic
       /\ mapM (site_position true (Some c)) shift_sites = Ok positions0
       /\ mapM to_vec positions0 = Ok ps
       /\ get_positions a
          = Some (map of_vec
                    (mat_mul
                       (List.concat
                          (map (expand_site wrap01 norm 1e-3
                                  (@cons symop half_shift
                                     (@cons symop half_shift (@nil symop))))
                               (mat_mul ps ic)))
                       c)).
Proof.
  assert (E : expand_site wrap01 norm 1e-3
                (@cons symop half_shift (@cons symop half_shift (@nil symop)))
                [0; 0; 0]
              = [[0; 0; 0]; [1 / 2; 0; 0]]) by exact expand_site_example.
  destruct (@C1_expansion_separated table_getElement table_getAtomic
              (fun _ => half_shift) (fun _ => None) wrap01 norm (fun _ => None)
              1e-3
              (@cons symop half_shift (@cons symop half_shift (@nil symop)))
              [0; 0; 0])
    as (_ & _ & Hsep & _ & _ & Htie).
  split; [exact E |]. split.
  - apply (Hsep 0%nat 1%nat [0; 0; 0] [1 / 2; 0; 0]);
      [lia | rewrite E; reflexivity | rewrite E; reflexivity].
  - destruct readCif_shift as [a Ha].
    destruct (Htie doc_shift _ "S" a Ha (or_introl eq_refl))
      as (cb & sites & Hcb & Hsites & Hrun).
    change (js_get "S" doc_shift) with (Some block_shift) in Hcb.
    injection Hcb as <-.
    change (_atom_sites block_shift) with (Ok (Some shift_sites)) in Hsites.
    injection Hsites as <-.
    destruct (Hrun _ cellpars_shift eq_refl)
      as (c & ic & positions0 & ps & Hic & Hpos & Hps & Hget).
    exists a, c, ic, positions0, ps. auto.
Defined.
